(** * parse_roms.py: compression engine and layout planner

    A shallow embedding of [scripts/parse_roms.py]: the per-family
    compression engine ([compress_lzma], [_compress_rom]), the image
    catalog ([ROM], [find_roms]) and the layout planner
    ([generate_system], [write_if_changed], [parse]).

    Python integers are [Z]; [bytes] values are [list byte]; a raised
    exception is a value of [exn]; code that touches the disk is written
    in a state-and-exception monad over an explicit store. *)

From stdpp Require Import base numbers list strings gmap sorting pretty.
From Stdlib Require Import ZArith Lia.
From Stdlib.Strings Require Import Byte Ascii.

Open Scope Z_scope.

(** ** Exceptions and results *)

Inductive exn : Type :=
| IndexError
| NameError
| NotImplementedError
| ValueError
| TypeError
| FileNotFoundError
| CalledProcessError
| SystemExit (code : Z).

Inductive result (A : Type) : Type :=
| Ok (a : A)
| Raise (e : exn).

Arguments Ok {A} a.
Arguments Raise {A} e.

#[global] Instance result_ret : MRet result := λ A a, Ok a.
#[global] Instance result_bind : MBind result := λ A B f m,
  match m with
  | Ok a => f a
  | Raise e => Raise e
  end.
#[global] Instance result_fmap : FMap result := λ A B f m,
  match m with
  | Ok a => Ok (f a)
  | Raise e => Raise e
  end.

Definition is_ok {A} (r : result A) : bool :=
  match r with
  | Ok _ => true
  | Raise _ => false
  end.

(** ** Python list primitives *)

Abbreviation bytes := (list byte).

#[global] Instance byte_eq_decision : EqDecision byte := Byte.byte_eq_dec.

(** [len(x)] as a Python integer. *)
Definition len {A} (l : list A) : Z := Z.of_nat (length l).

(** [l[i]]: a negative index counts from the end; out of range raises. *)
Definition py_getitem {A} (l : list A) (i : Z) : result A :=
  let j := if i <? 0 then i + len l else i in
  if (0 <=? j) && (j <? len l)
  then match l !! Z.to_nat j with
       | Some x => Ok x
       | None => Raise IndexError
       end
  else Raise IndexError.

(** [l[i] = x]. *)
Definition py_setitem {A} (l : list A) (i : Z) (x : A) : result (list A) :=
  let j := if i <? 0 then i + len l else i in
  if (0 <=? j) && (j <? len l)
  then Ok (<[Z.to_nat j := x]> l)
  else Raise IndexError.

(** [range(0, stop, step)] for a positive step. *)
Definition py_range_step (stop step : Z) : list Z :=
  (λ k : nat, Z.of_nat k * step) <$> seq 0 (Z.to_nat ((stop + step - 1) / step)).

(** [data[i : j]] for [0 <= i <= j]. *)
Definition py_slice {A} (data : list A) (i j : Z) : list A :=
  take (Z.to_nat (j - i)) (drop (Z.to_nat i) data).

(** [enumerate(l)]. *)
Definition enumerate {A} (l : list A) : list (Z * A) :=
  imap (λ i x, (Z.of_nat i, x)) l.

(** [sorted(l)] on integers. *)
Definition sorted (l : list Z) : list Z := merge_sort Z.le l.

(** [[data[i : i + BANK_SIZE] for i in range(0, len(data), BANK_SIZE)]]. *)
Definition split_banks (BANK_SIZE : Z) (data : bytes) : list bytes :=
  (λ i, py_slice data i (i + BANK_SIZE)) <$> py_range_step (len data) BANK_SIZE.

(** ** The codec registry *)

(** The optional [level] argument of a [compress_*] function: left at
    its default [None], or the [DONT_COMPRESS] sentinel. *)
Inductive level : Type :=
| LevelNone
| DONT_COMPRESS.

Definition codec : Type := bytes → level → result bytes.

(** [compress_lzma].  [lzma_alone data] stands for
    [lzma.compress(data, format=FORMAT_ALONE, filters=[LZMA1, preset 6,
    dict_size 16 KiB])], the liblzma encoder; [compress_gb_speed] is the
    global [args.compress_gb_speed] the function reads. *)
Definition compress_lzma (lzma_alone : bytes → bytes) (compress_gb_speed : bool)
    : codec := λ data lvl,
  match lvl with
  | DONT_COMPRESS =>
      if compress_gb_speed then Raise NotImplementedError
      else Ok data
  | LevelNone => Ok (drop 13 (lzma_alone data))
  end.

(** [COMPRESSIONS]: the decorator registers the function under its name
    without the [compress_] prefix, and under the same name with a
    leading dot.  [compress_lzma] is the only decorated function. *)
Definition COMPRESSIONS (lzma_alone : bytes → bytes) (compress_gb_speed : bool)
    : gmap string codec :=
  <[".lzma" := compress_lzma lzma_alone compress_gb_speed]>
    (<["lzma" := compress_lzma lzma_alone compress_gb_speed]> ∅).

(** ** The adaptive bank strategy of the gb branch *)

Definition compression_credit : Z := 26.

(** Lines 874-877: the compressed lengths of the banks after bank 0,
    without those of 98 bytes or fewer. *)
Definition compress_size (compressed_banks : list bytes) : list Z :=
  filter (λ i, 98 < i) (len <$> drop 1 compressed_banks).

(** Lines 881-882. *)
Definition clamp_credit (credit : Z) (ordered_size : list Z) : Z :=
  if credit >? len ordered_size then len ordered_size - 1 else credit.

(** Lines 886-889: the loop over [enumerate(compressed_banks)]. *)
Definition mark_poor (compress_threshold : Z) (compressed_banks : list bytes)
    (compress_its : list bool) : result (list bool) :=
  foldl (λ acc ib,
           its ← acc;
           if len ib.2 >=? compress_threshold
           then py_setitem its ib.1 false
           else Ok its)
        (Ok compress_its) (enumerate compressed_banks).

(** Lines 862-890: which banks are kept compressed.  [credit] is the
    local [compression_credit], 26 in the source. *)
Definition gb_compress_its (credit : Z) (compress_gb_speed : bool)
    (banks compressed_banks : list bytes) : result (list bool) :=
  compress_its ← py_setitem (replicate (length banks) true) 0 false;
  if compress_gb_speed then
    let ordered_size := sorted (compress_size compressed_banks) in
    let credit := clamp_credit credit ordered_size in
    compress_threshold ← py_getitem ordered_size credit;
    mark_poor compress_threshold compressed_banks compress_its
  else Ok compress_its.

(** Lines 893-901: the reassembly loop over
    [zip(banks, compressed_banks, compress_its)]. *)
Fixpoint gb_output_banks (compress : codec)
    (banks compressed_banks : list bytes) (compress_its : list bool)
    : result (list bytes) :=
  match banks, compressed_banks, compress_its with
  | bank :: banks', compressed_bank :: compressed_banks', compress_it :: its' =>
      out ← (if compress_it : bool then Ok compressed_bank
             else compress bank DONT_COMPRESS);
      rest ← gb_output_banks compress banks' compressed_banks' its';
      Ok (out :: rest)
  | _, _, _ => Ok []
  end.

(** The gb branch of [_compress_rom] up to the bytes it writes. *)
Definition gb_container (compress : codec) (credit : Z)
    (compress_gb_speed : bool) (data : bytes) : result bytes :=
  let banks := split_banks 16384 data in
  compressed_banks ← mapM (λ bank, compress bank LevelNone) banks;
  compress_its ← gb_compress_its credit compress_gb_speed banks compressed_banks;
  output_banks ← gb_output_banks compress banks compressed_banks compress_its;
  Ok (concat output_banks).

(** ** The 128 KiB container of the sms, gg and md branch *)

Definition byte_of_Z (z : Z) : byte :=
  default "000"%byte (Byte.of_N (Z.to_N (z mod 256))).

Definition Z_of_byte (b : byte) : Z := Z.of_N (Byte.to_N b).

(** [struct.pack("<l", n)]: four bytes, least significant first, of a
    signed 32-bit integer; out of range is [struct.error], a
    [ValueError] here. *)
Definition le32 (n : Z) : bytes :=
  [byte_of_Z n; byte_of_Z (n ≫ 8); byte_of_Z (n ≫ 16); byte_of_Z (n ≫ 24)].

Definition struct_pack_l (n : Z) : result bytes :=
  if (- 2 ^ 31 <=? n) && (n <? 2 ^ 31) then Ok (le32 n) else Raise ValueError.

(** What the bare name [pack] is bound to in the module's globals.  The
    module runs [import struct] and nothing else that could bind it (no
    [from struct import pack], no assignment, no definition), so the name
    is unbound and evaluating it raises [NameError]. *)
Definition module_pack : option (Z → result bytes) := None.

Definition SMS_MAGIC : bytes := ["S"; "M"; "S"; "+"]%byte.

(** Lines 835-851, with the binding of [pack] as a parameter. *)
Definition sms_container (pack : option (Z → result bytes)) (compress : codec)
    (data : bytes) : result bytes :=
  let banks := split_banks (128 * 1024) data in
  compressed_banks ← mapM (λ bank, compress bank LevelNone) banks;
  pack ← from_option Ok (Raise NameError) pack;
  count ← pack (len compressed_banks);
  lengths ← mapM (λ compressed_bank : bytes, pack (len compressed_bank))
                 compressed_banks;
  Ok (concat ([SMS_MAGIC; count] ++ lengths ++ compressed_banks)).

(** ** Strings and path names *)

Definition ascii_lower (c : ascii) : ascii :=
  let n := Ascii.nat_of_ascii c in
  if (Nat.leb 65 n && Nat.leb n 90)%bool then Ascii.ascii_of_nat (n + 32)%nat else c.

(** [s.lower()], on ASCII names. *)
Fixpoint lower (s : string) : string :=
  match s with
  | EmptyString => EmptyString
  | String c s' => String (ascii_lower c) (lower s')
  end.

(** [s.startswith(p)]. *)
Definition startswith (s p : string) : bool := String.prefix p s.

(** [s.endswith(suffix)]. *)
Definition endswith (s suffix : string) : bool :=
  String.prefix (String.rev suffix) (String.rev s).

(** [s[: -len(suffix)]]. *)
Definition strip_suffix (s suffix : string) : string :=
  String.substring 0 (String.length s - String.length suffix) s.

(** [sub in s] on strings. *)
Fixpoint contains (s sub : string) : bool :=
  String.prefix sub s ||
  match s with
  | EmptyString => false
  | String _ s' => contains s' sub
  end.

(** [name.rfind(".")]. *)
Fixpoint rfind_dot (s : string) : option nat :=
  match s with
  | EmptyString => None
  | String c s' =>
      match rfind_dot s' with
      | Some i => Some (S i)
      | None => if Ascii.eqb c "."%char then Some 0%nat else None
      end
  end.

(** [PurePath.suffix]: the last dot and what follows it, unless the dot
    is the first or the last character of the name. *)
Definition path_suffix (name : string) : string :=
  match rfind_dot name with
  | Some i =>
      if (Nat.ltb 0 i && Nat.ltb i (String.length name - 1))%bool
      then String.substring i (String.length name - i) name
      else EmptyString
  | None => EmptyString
  end.

(** [PurePath.stem], which is also the name of [with_suffix("")]. *)
Definition path_stem (name : string) : string :=
  strip_suffix name (path_suffix name).

(** [s.replace(old, new)] for a pattern [old] that is not empty: the
    occurrences of [old] are taken from the left, and [skip] counts the
    characters of an occurrence still to pass. *)
Fixpoint str_replace_go (old new : string) (skip : nat) (s : string) : string :=
  match s with
  | EmptyString => EmptyString
  | String c s' =>
      match skip with
      | S k => str_replace_go old new k s'
      | O =>
          if String.prefix old s
          then (new ++ str_replace_go old new (String.length old - 1) s')%string
          else String c (str_replace_go old new 0 s')
      end
  end.

Definition str_replace (old new s : string) : string := str_replace_go old new 0 s.

(** ** The store *)

(** A file: its content and the time of its last write. *)
Record file : Type := File { f_data : bytes; f_mtime : nat }.

(** One entry of a metadata dictionary: the keys ['name'], ['publish']
    and ['enable_save'] of a rom, when given. *)
Abbreviation romdef := (gmap string string).

(** The dictionary of a family: its roms by file stem, and the cover
    size under ["_cover_width"] and ["_cover_height"]. *)
Record romdefs : Type := RomDefs {
  rd_roms : gmap string romdef;
  rd_cover_width : option Z;
  rd_cover_height : option Z;
}.

Definition empty_romdefs : romdefs := RomDefs ∅ None None.

(** A rom object, with the attributes the planner reads.  [rom_folder]
    and [rom_file] are the directory under [roms/] and the file name of
    [path]; [obj_path] and [obj_img] are the object files made from the
    rom and from its cover image. *)
Record ROM : Type := MkROM {
  rom_id : Z;
  rom_folder : string;
  rom_file : string;
  filename : string;
  publish : bool;
  enable_save : bool;
  system_name : string;
  name : string;
  obj_path : string;
  obj_img : string;
}.

(** One row of a family's descriptor table: the rom, its index in the
    family's list, the sizes read for it, and the mapper and controls
    found for it. *)
Record rom_entry : Type := RomEntry {
  re_rom : ROM;
  re_index : Z;
  re_size : Z;
  re_img_size : Z;
  re_mapper : Z;
  re_game_config : Z;
}.

(** What a family run hands to the emitter, in order.  The text of each
    item is the emitter's business. *)
Inductive item : Type :=
| ItProto (variable_name : string)
| ItObject (rom : ROM)
| ItImage (rom : ROM) (w h : Z)
| ItSave (name : string) (save_size : Z)
| ItCheat (prefix : string) (i : Z) (rom : ROM)
| ItEntries (name : string) (rows : list rom_entry) (rom_count : Z)
| ItSystem (variable_name system_name folder : string)
           (cover_width cover_height roms_count : Z).

(** The disk.  [roms] is the tree under [roms/], one directory per
    family; [outs] holds every other file by its path; [jsons] holds the
    metadata files as [json.load] returns them (absent when the file is
    missing or does not parse), by folder name, and [roms_json] is
    [roms/roms.json]; [clock] stamps writes. *)
Record store : Type := Store {
  roms : gmap string (gmap string file);
  outs : gmap string file;
  roms_json : option (gmap string romdefs);
  jsons : gmap string romdefs;
  clock : nat;
}.

(** The record of a run, kept beside the disk: each assignment
    [rom.rom_id = current_id], and each item written to a table file. *)
Record log : Type := Log {
  ids : list ROM;
  items : list (string * item);
}.

(** ** The state and exception monads *)

(** Code that only touches the disk. *)
Definition D (A : Type) : Type := store → result A * store.

#[global] Instance D_ret : MRet D := λ A a s, (Ok a, s).
#[global] Instance D_bind : MBind D := λ A B f m s,
  match m s with
  | (Ok a, s') => f a s'
  | (Raise e, s') => (Raise e, s')
  end.

Definition raise {A} (e : exn) : D A := λ s, (Raise e, s).
Definition get_store : D store := λ s, (Ok s, s).
Definition lift {A} (r : result A) : D A := λ s, (r, s).

(** Code of the planner, which also feeds the record. *)
Definition M (A : Type) : Type := store * log → result A * (store * log).

#[global] Instance M_ret : MRet M := λ A a s, (Ok a, s).
#[global] Instance M_bind : MBind M := λ A B f m s,
  match m s with
  | (Ok a, s') => f a s'
  | (Raise e, s') => (Raise e, s')
  end.

Definition disk {A} (m : D A) : M A := λ sl,
  let '(r, s') := m sl.1 in (r, (s', sl.2)).

Definition record (f : log → log) : M unit := λ sl, (Ok (), (sl.1, f sl.2)).

(** [exit(code)]. *)
Definition py_exit {A} (code : Z) : D A := raise (SystemExit code).

(** A [for] loop whose body updates the loop's variables. *)
Fixpoint for_each {A B} (body : B → A → D B) (acc : B) (l : list A) : D B :=
  match l with
  | [] => mret acc
  | x :: l' => acc' ← body acc x; for_each body acc' l'
  end.

Fixpoint for_each_M {A B} (body : B → A → M B) (acc : B) (l : list A) : M B :=
  match l with
  | [] => mret acc
  | x :: l' => acc' ← body acc x; for_each_M body acc' l'
  end.

(** ** Store primitives *)

Definition tick (s : store) : store :=
  Store (roms s) (outs s) (roms_json s) (jsons s) (S (clock s)).

Definition set_roms (r : gmap string (gmap string file)) (s : store) : store :=
  Store r (outs s) (roms_json s) (jsons s) (clock s).

Definition set_outs (o : gmap string file) (s : store) : store :=
  Store (roms s) o (roms_json s) (jsons s) (clock s).

Definition log_id (r : ROM) (l : log) : log := Log (ids l ++ [r]) (items l).

Definition log_item (file : string) (it : item) (l : log) : log :=
  Log (ids l) (items l ++ [(file, it)]).

(** The file of a rom path, if it exists. *)
Definition rom_lookup (folder file_name : string) (s : store) : option file :=
  roms s !! folder ≫= λ dir, dir !! file_name.

(** [path.read_bytes()] under [roms/]. *)
Definition read_rom (folder file_name : string) : D bytes := λ s,
  match rom_lookup folder file_name s with
  | Some f => (Ok (f_data f), s)
  | None => (Raise FileNotFoundError, s)
  end.

(** [path.stat().st_size] under [roms/]. *)
Definition stat_size (folder file_name : string) : D Z := λ s,
  match rom_lookup folder file_name s with
  | Some f => (Ok (len (f_data f)), s)
  | None => (Raise FileNotFoundError, s)
  end.

(** [path.write_bytes(data)] under [roms/]. *)
Definition write_rom (folder file_name : string) (data : bytes) : D unit := λ s,
  match roms s !! folder with
  | Some dir =>
      (Ok (), tick (set_roms (<[folder := <[file_name := File data (clock s)]> dir]> (roms s)) s))
  | None => (Raise FileNotFoundError, s)
  end.

(** [Path(path).exists()] elsewhere on the disk. *)
Definition out_exists (path : string) (s : store) : bool :=
  bool_decide (is_Some (outs s !! path)).

(** Writing a whole file elsewhere on the disk: [path.write_text(data)],
    or [open(path, "w")] followed by its writes. *)
Definition write_out (path : string) (data : bytes) : D unit := λ s,
  (Ok (), tick (set_outs (<[path := File data (clock s)]> (outs s)) s)).

(** [f.write(text)] on a file opened for writing. *)
Definition append_out (path : string) (text : bytes) : D unit := λ s,
  match outs s !! path with
  | Some f =>
      (Ok (), tick (set_outs (<[path := File (f_data f ++ text) (clock s)]> (outs s)) s))
  | None => (Raise ValueError, s)
  end.

(** [os.remove(path)] and [Path(path).unlink()]. *)
Definition remove_out (path : string) : D unit := λ s,
  match outs s !! path with
  | Some _ => (Ok (), set_outs (delete path (outs s)) s)
  | None => (Raise FileNotFoundError, s)
  end.

(** ** Command line *)

Record args : Type := Args {
  flash_size : Z;
  coverflow : Z;
  off_saveflash : Z;
  compress : option string;
  compress_gb_speed : bool;
  nofrendo : Z;
  save : bool;
  verbose : bool;
}.

(** The values [parse_args] gives when no option is passed.  [save] is
    the destination of [--no-save], a [store_false] action, whose default
    is [True]. *)
Definition default_args : args :=
  Args (1024 * 1024) 0 0 None false 0 true false.

(** The options that set an attribute read by the core ([--codepage] and
    [--jpg_quality] only reach the emitter). *)
Inductive option_flag : Type :=
| OptFlashSize (n : Z)
| OptCoverflow (n : Z)
| OptOffSaveflash (n : Z)
| OptCompress (method : string)
| OptCompressGbSpeed
| OptNoCompressGbSpeed
| OptNofrendo (n : Z)
| OptNoSave
| OptVerbose.

Definition apply_option (a : args) (o : option_flag) : args :=
  match o with
  | OptFlashSize n =>
      Args n (coverflow a) (off_saveflash a) (compress a) (compress_gb_speed a) (nofrendo a) (save a) (verbose a)
  | OptCoverflow n =>
      Args (flash_size a) n (off_saveflash a) (compress a) (compress_gb_speed a) (nofrendo a) (save a) (verbose a)
  | OptOffSaveflash n =>
      Args (flash_size a) (coverflow a) n (compress a) (compress_gb_speed a) (nofrendo a) (save a) (verbose a)
  | OptCompress m =>
      Args (flash_size a) (coverflow a) (off_saveflash a) (Some m) (compress_gb_speed a) (nofrendo a) (save a) (verbose a)
  | OptCompressGbSpeed =>
      Args (flash_size a) (coverflow a) (off_saveflash a) (compress a) true (nofrendo a) (save a) (verbose a)
  | OptNoCompressGbSpeed =>
      Args (flash_size a) (coverflow a) (off_saveflash a) (compress a) false (nofrendo a) (save a) (verbose a)
  | OptNofrendo n =>
      Args (flash_size a) (coverflow a) (off_saveflash a) (compress a) (compress_gb_speed a) n (save a) (verbose a)
  | OptNoSave =>
      Args (flash_size a) (coverflow a) (off_saveflash a) (compress a) (compress_gb_speed a) (nofrendo a) false (verbose a)
  | OptVerbose =>
      Args (flash_size a) (coverflow a) (off_saveflash a) (compress a) (compress_gb_speed a) (nofrendo a) (save a) true
  end.

(** [parser.parse_args()] on a well-formed command line. *)
Definition parse_args (argv : list option_flag) : args :=
  foldl apply_option default_args argv.

(** ** External collaborators *)

(** The programs and libraries the script calls, as functions of what
    they read. *)
Record tools : Type := Tools {
  (** [lzma.compress] in the "alone" format *)
  lzma_alone : bytes → bytes;
  (** the text the emitter writes for an item *)
  render : item → bytes;
  (** [fceumm-go/nesmapper.py savesize] on a file, if it is there *)
  nesmapper_savesize : option bytes → result Z;
  (** [tools/dsk2lzma.py] and [tools/amdsk2lzma.py] on a disk image of a
      folder: what the folder holds afterwards *)
  dsk2lzma : string → string → string → gmap string file → result (gmap string file);
  (** [write_covart]: the cover image made from a picture *)
  covart : bytes → Z → Z → result bytes;
  (** [parse_msx_bios_files] on [roms/msx_bios]: its verdict, and what
      the folder holds afterwards *)
  msx_bios_files : option (gmap string file) → bool * option (gmap string file);
  (** [c.isalnum()] on a character of a file name *)
  isalnum : ascii → bool;
  (** [str(Path(__file__).parent / "roms")], the directory of the roms
      as the script names it *)
  roms_root : string;
  (** [arm-none-eabi-objcopy -I binary -O elf32-littlearm ... input
      output], with [--reverse-bytes=2] or without, on the input file if
      it is there: the object file it writes *)
  objcopy : bool → option bytes → result bytes;
  (** [arm-none-eabi-ar -cr build/roms.a member], or [-cru]: the archive
      it leaves, from the archive before, if there is one, and the
      member *)
  ar : bool → option bytes → string → bytes → result bytes;
  (** [int] of the output of [fceumm-go/nesmapper.py mapper path], from
      the path and the disk, and what the program leaves in
      [build/mappers.h] when it writes that file *)
  nesmapper_mapper : string → store → result (Z * option bytes);
  (** [int] of the output of [tools/findblueMsxMapper.py
      roms/msx_bios/msxromdb.xml path], from the path and the disk *)
  msx_mapper : string → store → result Z;
  (** the lines of the output of [tools/findblueMsxControls.py
      roms/msx_bios/msxromdb.xml path], each as [int] reads it, from the
      path and the disk *)
  msx_controls : string → store → result (list (result Z));
}.

(** ** Constants *)

Definition SAVE_SIZES : gmap string Z :=
  list_to_map [
    ("nes", 24 * 1024); ("sms", 60 * 1024); ("gg", 60 * 1024);
    ("col", 60 * 1024); ("sg", 60 * 1024); ("pce", 76 * 1024);
    ("msx", 272 * 1024); ("gw", 4 * 1024); ("wsv", 28 * 1024);
    ("md", 144 * 1024); ("a7800", 36 * 1024); ("amstrad", 132 * 1024)
  ]%string.

Definition MAX_COMPRESSED_NES_SIZE : Z := 0x00080010.
Definition MAX_COMPRESSED_PCE_SIZE : Z := 0x00049000.
Definition MAX_COMPRESSED_WSV_SIZE : Z := 0x00080000.
Definition MAX_COMPRESSED_SG_COL_SIZE : Z := 60 * 1024.
Definition MAX_COMPRESSED_A7800_SIZE : Z := 131200.
Definition MAX_COMPRESSED_MSX_SIZE : Z := 136 * 1024.

Definition MAX_CHEAT_CODES : Z := 16.

(** The branch of [_compress_rom] a system variable name selects, in the
    order of the [if]/[elif] chain. *)
Inductive branch : Type :=
| BrCapped (cap : Z)
| BrSms
| BrGb
| BrNone.

Definition select_branch (variable_name : string) : branch :=
  if contains variable_name "nes_system" then BrCapped MAX_COMPRESSED_NES_SIZE
  else if contains variable_name "pce_system" then BrCapped MAX_COMPRESSED_PCE_SIZE
  else if contains variable_name "msx_system" then BrCapped MAX_COMPRESSED_MSX_SIZE
  else if contains variable_name "wsv_system" then BrCapped MAX_COMPRESSED_WSV_SIZE
  else if contains variable_name "a7800_system" then BrCapped MAX_COMPRESSED_A7800_SIZE
  else if bool_decide (variable_name ∈ ["col_system"; "sg1000_system"]%string)
       then BrCapped MAX_COMPRESSED_SG_COL_SIZE
  else if bool_decide (variable_name ∈ ["sms_system"; "gg_system"; "md_system"]%string)
       then BrSms
  else if contains variable_name "gb_system" then BrGb
  else BrNone.

Section Run.

Context (T : tools) (a : args).

(** The registry as the run sees it. *)
Definition registry : gmap string codec :=
  COMPRESSIONS (lzma_alone T) (compress_gb_speed a).

Definition in_registry (key : string) : bool :=
  bool_decide (is_Some (registry !! key)).

(** ** The image catalog *)

(** ["".join([i if i.isalnum() else "_" for i in s])]. *)
Fixpoint sanitize (s : string) : string :=
  match s with
  | EmptyString => EmptyString
  | String c s' => String (if isalnum T c then c else "_"%char) (sanitize s')
  end.

(** [ROM.__init__].  [romdefs.setdefault] and [romdef.setdefault] store
    the defaults that are then read back, and the dictionary is read
    nowhere else, so the entry is read here with defaults. *)
Definition ROM_init (system_name folder file_name extension : string) (defs : romdefs)
    : ROM :=
  let suffix := path_suffix file_name in
  let filename :=
    if in_registry suffix || String.eqb suffix ".cdk"
    then path_stem (path_stem file_name)
    else path_stem file_name in
  let romdef := default ∅ (rd_roms defs !! filename) in
  let name := default filename (romdef !! "name"%string) in
  let publish := String.eqb (default "1"%string (romdef !! "publish"%string)) "1" in
  let enable_save :=
    String.eqb (default "0"%string (romdef !! "enable_save"%string)) "1" || save a in
  let obj_name := sanitize file_name in
  let obj_path := ("build/roms/" ++ obj_name ++ ".o")%string in
  let obj_name := sanitize (filename ++ ".img") in
  let obj_img := ("build/roms/" ++ obj_name ++ "_" ++ extension ++ ".o")%string in
  MkROM 0 folder file_name filename publish enable_save system_name name
        obj_path obj_img.

Definition set_rom_id (r : ROM) (i : Z) : ROM :=
  MkROM i (rom_folder r) (rom_file r) (filename r) (publish r) (enable_save r)
        (system_name r) (name r) (obj_path r) (obj_img r).

(** Lines 538-542, the body of the loop over the found roms. *)
Definition strip_no_save (r : ROM) : ROM :=
  let suffix := "_no_save"%string in
  if endswith (name r) suffix
  then MkROM (rom_id r) (rom_folder r) (rom_file r) (filename r) (publish r) false
             (system_name r) (strip_suffix (name r) suffix) (obj_path r) (obj_img r)
  else r.

(** [find_roms]. *)
Definition find_roms (system_name folder extension : string) (defs : romdefs)
    : D (list ROM) :=
  let extension := lower extension in
  let ext := extension in
  let extension :=
    if startswith extension "." then extension else ("." ++ extension)%string in
  s ← get_store;
  match roms s !! folder with
  | None => raise FileNotFoundError
  | Some dir =>
      let rom_files := (map_to_list dir).*1 in
      let rom_files :=
        filter (λ r, endswith (lower r) extension = true) rom_files in
      let rom_files := merge_sort String.le rom_files in
      let found_roms :=
        (λ rom_file, ROM_init system_name folder rom_file ext defs) <$> rom_files in
      mret (strip_no_save <$> found_roms)
  end.

(** [rom.ext]. *)
Definition rom_ext (r : ROM) : string :=
  lower (String.substring 1 (String.length (path_suffix (rom_file r)) - 1)
                          (path_suffix (rom_file r))).

(** [rom.size]. *)
Definition rom_size (r : ROM) : D Z := stat_size (rom_folder r) (rom_file r).

(** [str(rom.path)]. *)
Definition rom_path (r : ROM) : string :=
  (roms_root T ++ "/" ++ rom_folder r ++ "/" ++ rom_file r)%string.

(** [rom.mapper]. *)
Definition rom_mapper (r : ROM) : D Z :=
  let mapper := 0 in
  mapper ←
    (if String.eqb (system_name r) "MSX"
     then s ← get_store;
          lift (msx_mapper T (str_replace ".lzma" ""
                                (str_replace ".dsk.cdk" ".dsk" (rom_path r))) s)
     else mret mapper);
  if String.eqb (system_name r) "Nintendo Entertainment System"
  then s ← get_store;
       out ← lift (nesmapper_mapper T (str_replace ".lzma" "" (rom_path r)) s);
       _ ← match out.2 with
           | Some h => write_out "build/mappers.h" h
           | None => mret ()
           end;
       mret out.1
  else mret mapper.

(** [rom.game_config]. *)
Definition rom_game_config (r : ROM) : D Z :=
  let value := 0xff in
  if String.eqb (system_name r) "MSX"
  then s ← get_store;
       sp_output ← lift (msx_controls T (str_replace ".lzma" ""
                                           (str_replace ".dsk.cdk" ".dsk" (rom_path r))) s);
       x0 ← lift (py_getitem sp_output 0 ≫= id);
       x1 ← lift (py_getitem sp_output 1 ≫= id);
       mret (x0 + Z.shiftl x1 8)
  else mret value.

(** [rom.img_path], a file of the rom's folder. *)
Definition img_file (r : ROM) : string := (filename r ++ ".img")%string.

(** [rom.img_size]. *)
Definition rom_img_size (r : ROM) : D Z := λ s,
  match rom_lookup (rom_folder r) (img_file r) s with
  | Some f => (Ok (len (f_data f)), s)
  | None => (Ok 0, s)
  end.

(** ** The compression engine *)

(** [_compress_rom]. *)
Definition _compress_rom (variable_name : string) (rom : ROM)
    (compress_gb_speed : bool) (compress : option string) : D unit :=
  if negb (publish rom) then mret ()
  else
    let compress := default "lz4"%string compress in
    if negb (in_registry compress) then raise ValueError
    else
      let compress :=
        if startswith compress "." then compress else ("." ++ compress)%string in
      let output_file := (rom_file rom ++ compress)%string in
      match registry !! compress with
      | None => raise ValueError
      | Some compress =>
          data ← read_rom (rom_folder rom) (rom_file rom);
          match select_branch variable_name with
          | BrCapped cap =>
              size ← rom_size rom;
              if size >? cap then mret ()
              else
                compressed_data ← lift (compress data LevelNone);
                write_rom (rom_folder rom) output_file compressed_data
          | BrSms =>
              output_data ← lift (sms_container module_pack compress data);
              write_rom (rom_folder rom) output_file output_data
          | BrGb =>
              output_data ←
                lift (gb_container compress compression_credit compress_gb_speed data);
              write_rom (rom_folder rom) output_file output_data
          | BrNone => mret ()
          end
      end.

(** ** Save sizes *)

(** The path argument of the save-size functions with a compression
    suffix removed. *)
Definition uncompressed_file (file_name : string) : string :=
  if in_registry (path_suffix file_name) then path_stem file_name else file_name.

(** [get_gameboy_save_size]. *)
Definition get_gameboy_save_size (folder file_name : string) : D Z :=
  let total_size := 4096 in
  data ← read_rom folder (uncompressed_file file_name);
  match data !! 0x143%nat with
  | None => raise TypeError
  | Some cgb =>
      let cgb := Z_of_byte cgb in
      let total_size :=
        if negb (Z.land cgb 0x80 =? 0) || (cgb =? 0xC0)
        then total_size + 8 * 4096 + 4 * 4096
        else total_size + 2 * 4096 + 2 * 4096 in
      match data !! 0x149%nat with
      | None => raise TypeError
      | Some ram =>
          n ← lift (py_getitem [1; 1; 1; 4; 16; 8] (Z_of_byte ram));
          mret (total_size + n * 8 * 1024)
      end
  end.

(** [get_nes_save_size]. *)
Definition get_nes_save_size (folder file_name : string) : D Z := λ s,
  (nesmapper_savesize T (f_data <$> rom_lookup folder (uncompressed_file file_name) s), s).

(** ** The emitter, as far as the planner drives it *)

(** [f.write] of an item's text. *)
Definition f_write (file : string) (it : item) : M unit :=
  _ ← disk (append_out file (render T it));
  record (log_item file it).

(** [generate_object_file]: the rom becomes an object file, which is
    put into the archive. *)
Definition generate_object_file (rom : ROM) (system_name : string) : D item :=
  s ← get_store;
  obj ← lift (objcopy T (String.eqb system_name "Sega Genesis")
                      (f_data <$> rom_lookup (rom_folder rom) (rom_file rom) s));
  _ ← write_out (obj_path rom) obj;
  s ← get_store;
  archive ← lift (ar T false (f_data <$> outs s !! "build/roms.a"%string)
                     (obj_path rom) obj);
  _ ← write_out "build/roms.a" archive;
  mret (ItObject rom).

(** [generate_img_object_file]: [None] stands for [NoArtworkError]. *)
Definition generate_img_object_file (rom : ROM) (w h : Z) : D (option item) :=
  let imgs := (λ e, (filename rom ++ e)%string) <$>
    [".png"; ".PNG"; ".Png"; ".jpg"; ".JPG"; ".Jpg";
     ".jpeg"; ".JPEG"; ".Jpeg"; ".bmp"; ".BMP"; ".Bmp"]%string in
  s ← get_store;
  _ ← match list_find (λ img, is_Some (rom_lookup (rom_folder rom) img s)) imgs with
      | Some (_, img) =>
          src ← read_rom (rom_folder rom) img;
          cover ← lift (covart T src w h);
          write_rom (rom_folder rom) (img_file rom) cover
      | None => mret ()
      end;
  s ← get_store;
  match rom_lookup (rom_folder rom) (img_file rom) s with
  | None => mret None
  | Some f =>
      obj ← lift (objcopy T false (Some (f_data f)));
      _ ← write_out (obj_img rom) obj;
      s ← get_store;
      archive ← lift (ar T true (f_data <$> outs s !! "build/roms.a"%string)
                         (obj_img rom) obj);
      _ ← write_out "build/roms.a" archive;
      mret (Some (ItImage rom w h))
  end.

(** [generate_rom_entries]: one row per published rom.  The arguments
    of the row template are evaluated in the order they are written:
    [rom.size], [rom.img_size], [rom.mapper], [rom.game_config]. *)
Definition generate_rom_entries (name : string) (roms : list ROM) : D item :=
  rows_count ← for_each (λ (acc : list rom_entry * Z) (ir : Z * ROM),
      let '(body, pubcount) := acc in
      let '(i, rom) := ir in
      if negb (publish rom) then mret acc
      else
        size ← rom_size rom;
        img_size ← rom_img_size rom;
        mapper ← rom_mapper rom;
        game_config ← rom_game_config rom;
        mret (body ++ [RomEntry rom i size img_size mapper game_config], pubcount + 1))
    ([], 0) (enumerate roms);
  mret (ItEntries name rows_count.1 rows_count.2).

(** [_convert_dsk]. *)
Definition _convert_dsk (variable_name : string) (dsk : ROM)
    (compress : option string) : D unit :=
  if negb (publish dsk) then mret ()
  else
    let compress := default "none"%string compress in
    let run (tool : string) : D unit := λ s,
      match roms s !! rom_folder dsk with
      | None => (Raise CalledProcessError, s)
      | Some dir =>
          match dsk2lzma T tool (rom_file dsk) compress dir with
          | Ok dir' => (Ok (), set_roms (<[rom_folder dsk := dir']> (roms s)) s)
          | Raise e => (Raise e, s)
          end
      end in
    _ ← (if contains variable_name "msx_system" then run "tools/dsk2lzma.py"%string
         else mret ());
    if contains variable_name "amstrad_system" then run "tools/amdsk2lzma.py"%string
    else mret ().

(** ** The layout planner *)

(** [contains_rom_by_name], local to [generate_system]. *)
Definition contains_rom_by_name (rom : ROM) (roms : list ROM) : bool :=
  existsb (λ r, String.eqb (name r) (name rom)) roms.

(** The roms of a list of extensions: the loops
    [for e in extensions: roms += self.find_roms(...)]. *)
Definition find_roms_of (system_name folder : string) (extensions : list string)
    (defs : romdefs) : D (list ROM) :=
  for_each (λ acc e, found ← find_roms system_name folder e defs; mret (acc ++ found))
           [] extensions.

(** [find_compressed_roms], local to [generate_system]. *)
Definition find_compressed_roms (system_name folder : string)
    (extensions : list string) (defs : romdefs) (compress : option string)
    : D (list ROM) :=
  match compress with
  | None => mret []
  | Some c =>
      if String.eqb c "" then mret []
      else find_roms_of system_name folder
             ((λ e, (e ++ "." ++ c)%string) <$> extensions) defs
  end.

(** [find_cdk_disks], local to [generate_system]. *)
Definition find_cdk_disks (system_name folder : string) (defs : romdefs)
    : D (list ROM) :=
  disks ← find_roms system_name folder "cdk" defs;
  mret (strip_no_save <$> disks).

(** Lines 1027-1030: the compressed roms, then the raw roms without a
    compressed counterpart of the same name. *)
Definition merge_roms (roms_compressed roms_raw : list ROM) : list ROM :=
  roms_compressed ++
  filter (λ r, contains_rom_by_name r roms_compressed = false) roms_raw.

(** Lines 1032-1034: every rom of the list takes the next identifier. *)
Definition assign_ids (roms : list ROM) (current_id : Z) : M (list ROM * Z) :=
  for_each_M (λ (acc : list ROM * Z) rom,
      let rom := set_rom_id rom acc.2 in
      _ ← record (log_id rom);
      mret (acc.1 ++ [rom], acc.2 + 1))
    ([], current_id) roms.

(** The variables the main loop of [generate_system] updates. *)
Record totals : Type := Totals {
  save_size : Z;
  system_save_size : Z;
  total_save_size : Z;
  total_rom_size : Z;
  total_img_size : Z;
}.

(** Lines 1065-1096: one turn of the loop over [enumerate(roms)]. *)
Definition emit_rom (file system_name folder save_prefix : string)
    (cheat_codes_prefix : option string) (cover_width cover_height : Z)
    (t : totals) (ir : Z * ROM) : M totals :=
  let '(i, rom) := ir in
  if negb (publish rom) then mret t
  else
    save_size ← disk
      (if String.eqb folder "gb"
       then get_gameboy_save_size (rom_folder rom) (rom_file rom)
       else if String.eqb folder "nes" && (nofrendo a =? 0)
       then get_nes_save_size (rom_folder rom) (rom_file rom)
       else mret (save_size t));
    let aligned_size := 4 * 1024 in
    let rom_save_size := (save_size + aligned_size - 1) / aligned_size * aligned_size in
    let total_save_size :=
      if enable_save rom then total_save_size t + rom_save_size
      else total_save_size t in
    let system_save_size :=
      if enable_save rom && (system_save_size t <? rom_save_size)
      then rom_save_size else system_save_size t in
    size ← disk (rom_size rom);
    let total_rom_size := total_rom_size t + size in
    img_size ← disk (if negb (coverflow a =? 0) then rom_img_size rom else mret 0);
    let total_img_size := total_img_size t + img_size in
    obj ← disk (generate_object_file rom system_name);
    _ ← f_write file obj;
    _ ← (if negb (coverflow a =? 0)
         then
           img ← disk (generate_img_object_file rom cover_width cover_height);
           match img with
           | Some it => f_write file it
           | None => mret ()
           end
         else mret ());
    _ ← (if enable_save rom
         then f_write file (ItSave (save_prefix ++ pretty i) save_size)
         else mret ());
    _ ← match cheat_codes_prefix with
        | Some p => if String.eqb p "" then mret () else f_write file (ItCheat p i rom)
        | None => mret ()
        end;
    mret (Totals save_size system_save_size total_save_size total_rom_size total_img_size).

(** Lines 1115-1118. *)
Definition larger_rom_size_of (roms_uncompressed : list ROM) : D Z :=
  for_each (λ larger_rom_size r,
      if bool_decide (rom_ext r ∈ ["gg"; "sms"; "md"; "gen"; "bin"]%string)
      then
        size ← rom_size r;
        mret (if larger_rom_size <? size then size else larger_rom_size)
      else mret larger_rom_size)
    0 roms_uncompressed.

(** Lines 945-1030: the list of roms of a family, after converting the
    disks and compressing the raw roms.  Returns [roms] and
    [roms_uncompressed]. *)
Definition collect_roms (system_name variable_name folder : string)
    (extensions : list string) (defs : romdefs)
    (compress : option string) (compress_gb_speed : bool)
    : D (list ROM * list ROM) :=
  roms_raw ← find_roms_of system_name folder extensions defs;
  let roms_uncompressed := roms_raw in
  cdk_disks ← find_cdk_disks system_name folder defs;
  let disks_raw :=
    filter (λ r, contains_rom_by_name r cdk_disks = false) roms_raw in
  let disks_raw := filter (λ r, rom_ext r = "dsk"%string) disks_raw in
  cdk_disks ←
    (if bool_decide (disks_raw ≠ [])
     then
       _ ← for_each (λ _ r, _convert_dsk variable_name r compress) () disks_raw;
       find_cdk_disks system_name folder defs
     else mret cdk_disks);
  let roms_raw :=
    filter (λ r, contains_rom_by_name r cdk_disks = false) roms_raw in
  let roms_raw := roms_raw ++ cdk_disks in
  roms_compressed ← find_compressed_roms system_name folder extensions defs compress;
  let roms_raw :=
    filter (λ r, contains_rom_by_name r roms_compressed = false) roms_raw in
  roms_compressed ←
    (if bool_decide (roms_raw ≠ []) && bool_decide (is_Some compress)
     then
       _ ← for_each (λ _ r, _compress_rom variable_name r compress_gb_speed compress)
                    () roms_raw;
       find_compressed_roms system_name folder extensions defs compress
     else mret roms_compressed);
  mret (merge_roms roms_compressed roms_raw, roms_uncompressed).

(** [generate_system].  It returns [system_save_size], [total_save_size],
    [total_rom_size], [total_img_size], [current_id] and
    [larger_rom_size]. *)
Definition generate_system (file system_name variable_name folder : string)
    (extensions : list string) (save_prefix : string) (defs : romdefs)
    (cheat_codes_prefix : option string) (current_id : Z)
    (compress : option string) (compress_gb_speed : bool)
    : M (Z * Z * Z * Z * Z * Z) :=
  s ← disk get_store;
  let defs := default defs (jsons s !! folder) in
  rr ← disk (collect_roms system_name variable_name folder extensions defs
                          compress compress_gb_speed);
  let '(roms, roms_uncompressed) := rr in
  ri ← assign_ids roms current_id;
  let '(roms, current_id) := ri in
  let pubcount := len (filter (λ r, publish r = true) roms) in
  let save_size := default 0 (SAVE_SIZES !! folder) in
  let cover_width := default 128 (rd_cover_width defs) in
  let cover_height := default 96 (rd_cover_height defs) in
  let cover_width :=
    if cover_width >? 180 then 180 else if cover_width <? 64 then 64 else cover_width in
  let cover_height :=
    if cover_height >? 136 then 136 else if cover_height <? 64 then 64 else cover_height in
  let img_max := cover_width * cover_height in
  if img_max >? 18600 then disk (py_exit (-1))
  else
    _ ← disk (write_out file []);
    _ ← f_write file (ItProto variable_name);
    t ← for_each_M (emit_rom file system_name folder save_prefix cheat_codes_prefix
                           cover_width cover_height)
                 (Totals save_size 0 0 0 0) (enumerate roms);
    rom_entries ← disk (generate_rom_entries (folder ++ "_roms") roms);
    _ ← f_write file rom_entries;
    _ ← f_write file (ItSystem variable_name system_name folder
                               cover_width cover_height pubcount);
    larger_rom_size ← disk (larger_rom_size_of roms_uncompressed);
    mret (system_save_size t, total_save_size t, total_rom_size t, total_img_size t,
          current_id, larger_rom_size).

(** The bytes of a text. *)
Definition text (s : string) : bytes := String.list_byte_of_string s.

(** [write_if_changed]. *)
Definition write_if_changed (path : string) (data : bytes) : D unit :=
  s ← get_store;
  let old_data := f_data <$> outs s !! path in
  if bool_decide (Some data ≠ old_data) then write_out path data
  else mret ().

(** The variables [parse] carries from one family to the next. *)
Record plan : Type := Plan {
  larger_save_size : Z;
  p_total_save_size : Z;
  p_total_rom_size : Z;
  sega_larger_rom_size : Z;
  p_total_img_size : Z;
  build_config : string;
  p_current_id : Z;
}.

Definition plan0 : plan := Plan 0 0 0 0 0 "" 0.

(** The statements that follow a call of [generate_system] in [parse];
    [r] is the tuple the call returned. *)

Definition set_current_id (r : Z * Z * Z * Z * Z * Z) (p : plan) : plan :=
  let '(_, _, _, _, current_id, _) := r in
  Plan (larger_save_size p) (p_total_save_size p) (p_total_rom_size p)
       (sega_larger_rom_size p) (p_total_img_size p) (build_config p) current_id.

(** [total_save_size += save_size; total_rom_size += rom_size]. *)
Definition add_save_rom (r : Z * Z * Z * Z * Z * Z) (p : plan) : plan :=
  let '(_, save_size, rom_size, _, _, _) := r in
  Plan (larger_save_size p) (p_total_save_size p + save_size)
       (p_total_rom_size p + rom_size) (sega_larger_rom_size p)
       (p_total_img_size p) (build_config p) (p_current_id p).

(** [total_img_size += img_size]. *)
Definition add_img (r : Z * Z * Z * Z * Z * Z) (p : plan) : plan :=
  let '(_, _, _, img_size, _, _) := r in
  Plan (larger_save_size p) (p_total_save_size p) (p_total_rom_size p)
       (sega_larger_rom_size p) (p_total_img_size p + img_size)
       (build_config p) (p_current_id p).

(** [build_config += "#define ENABLE_EMULATOR_X\n" if rom_size > 0 else ""]. *)
Definition add_define (emulator : string) (r : Z * Z * Z * Z * Z * Z) (p : plan) : plan :=
  let '(_, _, rom_size, _, _, _) := r in
  Plan (larger_save_size p) (p_total_save_size p) (p_total_rom_size p)
       (sega_larger_rom_size p) (p_total_img_size p)
       (build_config p ++
        (if rom_size >? 0 then "#define ENABLE_EMULATOR_" ++ emulator ++ "
" else ""))%string
       (p_current_id p).

(** [if system_save_size > larger_save_size: larger_save_size = system_save_size]. *)
Definition max_save (r : Z * Z * Z * Z * Z * Z) (p : plan) : plan :=
  let '(system_save_size, _, _, _, _, _) := r in
  Plan (if system_save_size >? larger_save_size p then system_save_size
        else larger_save_size p)
       (p_total_save_size p) (p_total_rom_size p) (sega_larger_rom_size p)
       (p_total_img_size p) (build_config p) (p_current_id p).

(** [if sega_larger_rom_size < larger_rom_size: sega_larger_rom_size = larger_rom_size]. *)
Definition max_sega (r : Z * Z * Z * Z * Z * Z) (p : plan) : plan :=
  let '(_, _, _, _, _, larger_rom_size) := r in
  Plan (larger_save_size p) (p_total_save_size p) (p_total_rom_size p)
       (if sega_larger_rom_size p <? larger_rom_size then larger_rom_size
        else sega_larger_rom_size p)
       (p_total_img_size p) (build_config p) (p_current_id p).

Definition rom_size_of (r : Z * Z * Z * Z * Z * Z) : Z :=
  let '(_, _, rom_size, _, _, _) := r in rom_size.

(** Lines 1187-1193: [build/mappers.h] is deleted and created empty. *)
Definition reset_mappers_file : D unit :=
  let mappers_file := "build/mappers.h"%string in
  s ← get_store;
  _ ← (if out_exists mappers_file s then remove_out mappers_file else mret ());
  write_out mappers_file [].

(** The call of [parse_msx_bios_files]. *)
Definition parse_msx_bios_files : D bool := λ s,
  let '(ok, dir) := msx_bios_files T (roms s !! "msx_bios"%string) in
  (Ok ok,
   set_roms (match dir with
             | Some d => <["msx_bios"%string := d]> (roms s)
             | None => delete "msx_bios"%string (roms s)
             end) s).

(** Lines 1469-1510 of [parse]: the checks on the totals and the files
    written after them. *)
Definition parse_finish (p : plan) : D unit :=
  let total_size := p_total_save_size p + p_total_rom_size p + p_total_img_size p in
  let sega_larger_rom_size := 0 in
  if total_size =? 0 then py_exit (-1)
  else if total_size >? flash_size a then
    s ← get_store;
    _ ← (if out_exists "build/roms.a" s then remove_out "build/roms.a" else mret ());
    py_exit (-1)
  else
    let build_config :=
      (build_config p ++ "#define ROM_COUNT " ++ pretty (p_current_id p) ++ "
" ++ "#define MAX_CHEAT_CODES " ++ pretty MAX_CHEAT_CODES ++ "
")%string in
    _ ← write_if_changed "build/saveflash.ld"
          (text ("__SAVEFLASH_LENGTH__ = " ++ pretty (p_total_save_size p) ++ ";
"));
    _ ← (if off_saveflash a =? 1
         then write_if_changed "build/offsaveflash.ld"
                (text ("__OFFSAVEFLASH_LENGTH__ = " ++ pretty (larger_save_size p) ++ ";
"))
         else write_if_changed "build/offsaveflash.ld"
                (text "__OFFSAVEFLASH_LENGTH__ = 0;
"));
    _ ← write_if_changed "build/cacheflash.ld"
          (text ("__CACHEFLASH_LENGTH__ = " ++ pretty sega_larger_rom_size ++ ";
"));
    write_if_changed "build/config.h" (text build_config).

(** Lines 1130-1467 of [parse]: one call of [generate_system] per
    family, in the order of the source. *)
Definition parse_systems : M plan :=
  s ← disk get_store;
  let romdef (folder : string) : romdefs :=
    default empty_romdefs (default ∅ (roms_json s) !! folder) in
  let p := plan0 in
  r ← generate_system "Core/Src/retro-go/gb_roms.c" "Nintendo Gameboy" "gb_system"
        "gb" ["gb"; "gbc"]%string "SAVE_GB_" (romdef "gb"%string) None
        (p_current_id p) (compress a) (compress_gb_speed a);
  let p := max_save r (add_define "GB" r (add_img r (add_save_rom r (set_current_id r p)))) in
  _ ← disk reset_mappers_file;
  r ← generate_system "Core/Src/retro-go/nes_roms.c" "Nintendo Entertainment System"
        "nes_system" "nes" ["nes"; "fds"; "nsf"]%string "SAVE_NES_" (romdef "nes"%string)
        (Some "GG_NES_"%string) (p_current_id p) (compress a) false;
  let p := max_save r (add_define "NES" r (add_img r (add_save_rom r (set_current_id r p)))) in
  p ← (if rom_size_of r >? 0
       then
         r ← generate_system "Core/Src/retro-go/nes_bios.c" "NES_BIOS" "nes_bios"
               "nes_bios" ["rom"; "nes"]%string "SAVE_NESB_" (romdef "nes_bios"%string)
               None (p_current_id p) None false;
         mret (add_img r (add_save_rom r (set_current_id r p)))
       else
         r ← generate_system "Core/Src/retro-go/nes_bios.c" "NES_BIOS" "nes_bios"
               "nes_bios" ["fakeToGenerateEmtyC"]%string "SAVE_NESB_"
               (romdef "nes_bios"%string) None (p_current_id p) None false;
         mret (set_current_id r p));
  r ← generate_system "Core/Src/retro-go/sms_roms.c" "Sega Master System" "sms_system"
        "sms" ["sms"]%string "SAVE_SMS_" (romdef "sms"%string) None
        (p_current_id p) None false;
  let p := max_save r (add_define "SMS" r (add_img r (add_save_rom r
             (max_sega r (set_current_id r p))))) in
  r ← generate_system "Core/Src/retro-go/gg_roms.c" "Sega Game Gear" "gg_system"
        "gg" ["gg"]%string "SAVE_GG_" (romdef "gg"%string) None
        (p_current_id p) None false;
  let p := max_save r (add_define "GG" r (add_img r (add_save_rom r
             (max_sega r (set_current_id r p))))) in
  r ← generate_system "Core/Src/retro-go/md_roms.c" "Sega Genesis" "md_system"
        "md" ["md"; "gen"; "bin"]%string "SAVE_MD_" (romdef "md"%string) None
        (p_current_id p) None false;
  let p := max_save r (add_define "MD" r (add_img r (add_save_rom r
             (max_sega r (set_current_id r p))))) in
  r ← generate_system "Core/Src/retro-go/col_roms.c" "Colecovision" "col_system"
        "col" ["col"]%string "SAVE_COL_" (romdef "col"%string) None
        (p_current_id p) None false;
  let p := max_save r (add_define "COL" r (add_img r (add_save_rom r (set_current_id r p)))) in
  r ← generate_system "Core/Src/retro-go/sg1000_roms.c" "Sega SG-1000" "sg1000_system"
        "sg" ["sg"]%string "SAVE_SG1000_" (romdef "sg"%string) None
        (p_current_id p) None false;
  let p := max_save r (add_define "SG1000" r (add_img r (add_save_rom r (set_current_id r p)))) in
  r ← generate_system "Core/Src/retro-go/pce_roms.c" "PC Engine" "pce_system"
        "pce" ["pce"]%string "SAVE_PCE_" (romdef "pce"%string) (Some "GG_PCE_"%string)
        (p_current_id p) (compress a) false;
  let p := max_save r (add_define "PCE" r (add_img r (add_save_rom r (set_current_id r p)))) in
  r ← generate_system "Core/Src/retro-go/gw_roms.c" "Game & Watch" "gw_system"
        "gw" ["gw"]%string "SAVE_GW_" (romdef "gw"%string) None
        (p_current_id p) None false;
  let p := max_save r (add_define "GW" r (add_img r (add_save_rom r (set_current_id r p)))) in
  r ← generate_system "Core/Src/retro-go/msx_roms.c" "MSX" "msx_system"
        "msx" ["rom"; "mx1"; "mx2"; "dsk"]%string "SAVE_MSX_" (romdef "msx"%string)
        (Some "MCF_MSX_"%string) (p_current_id p) (compress a) false;
  let p := max_save r (add_define "MSX" r (add_img r (add_save_rom r (set_current_id r p)))) in
  p ← (if rom_size_of r >? 0
       then
         ok ← disk parse_msx_bios_files;
         if ok : bool
         then
           r ← generate_system "Core/Src/retro-go/msx_bios.c" "MSX_BIOS" "msx_bios"
                 "msx_bios" ["rom"]%string "SAVE_MSXB_" (romdef "msx_bios"%string)
                 None (p_current_id p) None false;
           mret (add_img r (add_save_rom r (set_current_id r p)))
         else disk (py_exit (-1))
       else
         r ← generate_system "Core/Src/retro-go/msx_bios.c" "MSX_BIOS" "msx_bios"
               "msx_bios" ["fakeToGenerateEmtyC"]%string "SAVE_MSXB_"
               (romdef "msx_bios"%string) None (p_current_id p) None false;
         mret (set_current_id r p));
  r ← generate_system "Core/Src/retro-go/wsv_roms.c" "Watara Supervision" "wsv_system"
        "wsv" ["bin"; "sv"]%string "SAVE_WSV_" (romdef "wsv"%string) None
        (p_current_id p) (compress a) false;
  let p := max_save r (add_define "WSV" r (add_save_rom r (set_current_id r p))) in
  r ← generate_system "Core/Src/retro-go/a7800_roms.c" "Atari 7800" "a7800_system"
        "a7800" ["a78"; "bin"]%string "SAVE_A7800_" (romdef "a7800"%string) None
        (p_current_id p) (compress a) false;
  let p := max_save r (add_define "A7800" r (add_save_rom r (set_current_id r p))) in
  r ← generate_system "Core/Src/retro-go/amstrad_roms.c" "Amstrad CPC" "amstrad_system"
        "amstrad" ["dsk"]%string "SAVE_AMSTRAD_" (romdef "amstrad"%string) None
        (p_current_id p) (compress a) false;
  let p := max_save r (add_define "AMSTRAD" r (add_save_rom r (set_current_id r p))) in
  mret p.

(** [parse]. *)
Definition parse : M unit :=
  p ← parse_systems;
  disk (parse_finish p).

End Run.

(** ** Quantities the properties speak of *)

(** Among the banks after bank 0 whose compressed length exceeds 98 (the
    candidates of the adaptive strategy): how many are kept compressed,
    and how many are left uncompressed. *)
Definition kept_compressed (compress_its : list bool) (compressed_banks : list bytes)
    : nat :=
  length (filter (λ p : bool * bytes, p.1 = true ∧ 98 < len p.2)
                 (zip (drop 1 compress_its) (drop 1 compressed_banks))).

Definition left_uncompressed (compress_its : list bool) (compressed_banks : list bytes)
    : nat :=
  length (filter (λ p : bool * bytes, p.1 = false ∧ 98 < len p.2)
                 (zip (drop 1 compress_its) (drop 1 compressed_banks))).

(** What the speed-priority loop leaves in [compress_its]: a bank stays
    marked when it was marked and its compressed length is below the
    threshold. *)
Definition keep_mark (compress_threshold : Z) (compress_it : bool) (bank : bytes) : bool :=
  compress_it && negb (len bank >=? compress_threshold).

(** A run starts with an empty record. *)
Definition log0 : log := Log [] [].

(** The identifiers handed out, in the order of assignment. *)
Definition assigned_ids (l : log) : list Z := rom_id <$> ids l.

(** An item that gives a rom storage or a row: the roms it concerns. *)
Definition item_roms (it : item) : list ROM :=
  match it with
  | ItObject rom => [rom]
  | ItImage rom _ _ => [rom]
  | ItCheat _ _ rom => [rom]
  | ItEntries _ rows _ => re_rom <$> rows
  | ItProto _ | ItSave _ _ | ItSystem _ _ _ _ _ _ => []
  end.

(** Code that reads the disk and leaves it as it is. *)
Definition read_only {A} (m : D A) : Prop := ∀ s, (m s).2 = s.

(** The identifiers handed out so far are [0], ..., [c - 1], in the
    order of assignment. *)
Definition ids_contiguous (l : log) (c : Z) : Prop :=
  assigned_ids l = seqZ 0 c ∧ 0 ≤ c.

(** Every item written so far that stores a rom or gives it a row
    concerns a published rom. *)
Definition items_published (l : log) : Prop :=
  ∀ file it rom, (file, it) ∈ items l → rom ∈ item_roms it → publish rom = true.

(** The invariant of a run, when the next identifier is [c]. *)
Definition run_inv (c : Z) (l : log) : Prop :=
  ids_contiguous l c ∧ items_published l.

(** A specification of planner code on the record: from a record that
    satisfies [P], the result and the record afterwards satisfy [Q],
    whatever the disk holds. *)
Definition hoare {A} (P : log → Prop) (m : M A) (Q : result A → log → Prop) : Prop :=
  ∀ s l, P l → Q (m (s, l)).1 (m (s, l)).2.2.

(** The postcondition of code that returns a next identifier: the
    invariant at that identifier, or at some identifier if the code
    raised. *)
Definition inv_post {A} (next : A → Z) (r : result A) (l : log) : Prop :=
  match r with
  | Ok x => run_inv (next x) l
  | Raise _ => ∃ c, run_inv c l
  end.

(** The fifth component of the tuple [generate_system] returns. *)
Definition current_id_of (r : Z * Z * Z * Z * Z * Z) : Z := r.1.2.

(** The folders of the families, in the order in which [parse] calls
    [generate_system] for them. *)
Definition family_folders : list string :=
  ["gb"; "nes"; "nes_bios"; "sms"; "gg"; "md"; "col"; "sg"; "pce"; "gw";
   "msx"; "msx_bios"; "wsv"; "a7800"; "amstrad"]%string.

(** The place of a folder in that order. *)
Definition family_rank (folder : string) : nat :=
  default (length family_folders)
          (fst <$> list_find (λ f, f = folder) family_folders).

(** The roms numbered so far are grouped by family, the families in the
    order of [parse], none later than the one at place [k]. *)
Definition families_in_order (k : nat) (l : log) : Prop :=
  StronglySorted (λ r1 r2, (family_rank (rom_folder r1) ≤
                            family_rank (rom_folder r2))%nat) (ids l) ∧
  Forall (λ r, (family_rank (rom_folder r) ≤ k)%nat) (ids l).

(** Planner code that numbers only roms of one folder. *)
Definition numbers_only (folder : string) {A} (m : M A) : Prop :=
  ∀ s l, ∃ numbered,
    ids (m (s, l)).2.2 = ids l ++ numbered ∧
    Forall (λ r, rom_folder r = folder) numbered.

(** ** Sample data *)

(** Stand-ins for the external programs: a codec that stores its input
    between a 13-byte header and a one-byte trailer, an object copier
    that copies, an archiver that appends, and tools that do nothing
    else. *)
Definition sample_tools : tools :=
  Tools (λ d, replicate 13 "000"%byte ++ d ++ ["000"%byte])
        (λ _, [])
        (λ _, Ok 0)
        (λ _ _ _ d, Ok d)
        (λ src _ _, Ok src)
        (λ d, (true, d))
        (λ _, true)
        "roms"
        (λ _ input, match input with Some d => Ok d | None => Raise CalledProcessError end)
        (λ _ archive _ member, Ok (default [] archive ++ member))
        (λ _ _, Ok (0, None))
        (λ _ _, Ok 0)
        (λ _ _, Ok [Ok 255; Ok 0]).

Definition sample_dir (l : list (string * bytes)) : gmap string file :=
  list_to_map ((λ p, (p.1, File p.2 0)) <$> l).

(** A disk with every family folder, the given rom files, the given
    other files and the given [roms.json]; the clock reads 1. *)
Definition sample_store (l : list (string * list (string * bytes)))
    (o : list (string * bytes)) (j : option (gmap string romdefs)) : store :=
  Store (list_to_map ((λ p, (p.1, sample_dir p.2)) <$> l) ∪
         list_to_map ((λ f, (f, ∅)) <$> family_folders))
        (sample_dir o) j ∅ 1.

Definition lzma_args : args := parse_args [OptCompress "lzma"].

Definition lzma_speed_args : args := parse_args [OptCompress "lzma"; OptCompressGbSpeed].

(** A bank of [n] zero bytes. *)
Definition zeros (n : nat) : bytes := replicate n "000"%byte.

(** A disk with two Game Boy roms, of which [a.gbc] is marked as not
    published in [roms.json], and one NES rom. *)
Definition unpublished_store : store :=
  sample_store [("gb", [("b.gb", zeros 400); ("a.gbc", zeros 400)]);
                ("nes", [("c.nes", zeros 3)])]%string
               []
               (Some {[ "gb"%string :=
                          RomDefs {[ "a"%string := {[ "publish"%string := "0"%string ]} ]}
                                  None None ]}).

(** Code that leaves alone the files outside [roms/]. *)
Definition keeps_outs {A} (m : D A) : Prop := ∀ s, outs (m s).2 = outs s.

(** Code that removes no file outside [roms/]. *)
Definition grows_outs {A} (m : D A) : Prop :=
  ∀ s path, is_Some (outs s !! path) → is_Some (outs (m s).2 !! path).

(** Planner code that does not remove the file [path]. *)
Definition keeps_file (path : string) {A} (m : M A) : Prop :=
  ∀ s l, is_Some (outs s !! path) → is_Some (outs (m (s, l)).2.1 !! path).

(** Code that leaves the disk as it is and can only fail for a missing
    folder or file. *)
Definition only_missing {A} (m : D A) : Prop :=
  ∀ s, (m s).2 = s ∧ ∀ e, (m s).1 = Raise e → e = FileNotFoundError.

(** ** Cheat code files *)

(** A Python [str]: its code points. *)
Definition ustr : Type := list Z.

(** Python's character tables above ASCII, which follow the Unicode
    version of the interpreter. *)
Record unicode : Type := Unicode {
  (** [c.isspace()] for a character above 127 *)
  isspace_high : Z → bool;
  (** [c.upper()] for a character above 127, which may be more than one
      character *)
  upper_high : Z → ustr;
}.

Definition backslash : Z := 92.
Definition double_quote : Z := 34.
Definition comma : Z := 44.

Section Cheat.

Context (U : unicode).

(** [c.isspace()], which is also the whitespace of [strip] and
    [split]: below 128, tab to carriage return, the four separators
    from 28 to 31, and the space. *)
Definition py_isspace (c : Z) : bool :=
  if c <? 128
  then ((9 <=? c) && (c <=? 13)) || ((28 <=? c) && (c <=? 32))
  else isspace_high U c.

(** [s.lstrip()], [s.rstrip()] and [s.strip()]. *)
Fixpoint lstrip (s : ustr) : ustr :=
  match s with
  | [] => []
  | c :: s' => if py_isspace c then lstrip s' else s
  end.

Fixpoint rstrip (s : ustr) : ustr :=
  match s with
  | [] => []
  | c :: s' =>
      match rstrip s' with
      | [] => if py_isspace c then [] else [c]
      | r => c :: r
      end
  end.

Definition strip (s : ustr) : ustr := rstrip (lstrip s).

(** ["".join(s.split())]: the text without its whitespace. *)
Fixpoint remove_whitespace (s : ustr) : ustr :=
  match s with
  | [] => []
  | c :: s' => if py_isspace c then remove_whitespace s' else c :: remove_whitespace s'
  end.

(** [s.split(',', 1)]: the text before the first comma, and the text
    after it when there is a comma. *)
Fixpoint split_comma (s : ustr) : ustr * option ustr :=
  match s with
  | [] => ([], None)
  | c :: s' =>
      if c =? comma then ([], Some s')
      else let '(head, tail) := split_comma s' in (c :: head, tail)
  end.

(** [c.upper()]: below 128, the small letters become capitals. *)
Definition upper_char (c : Z) : ustr :=
  if c <? 128
  then (if (97 <=? c) && (c <=? 122) then [c - 32] else [c])
  else upper_high U c.

(** [s.upper()]. *)
Fixpoint upper (s : ustr) : ustr :=
  match s with
  | [] => []
  | c :: s' => upper_char c ++ upper s'
  end.

(** [s.replace(old, new)] for a pattern [old] of one character. *)
Fixpoint replace_char (old : Z) (new : ustr) (s : ustr) : ustr :=
  match s with
  | [] => []
  | c :: s' =>
      if c =? old then new ++ replace_char old new s'
      else c :: replace_char old new s'
  end.

(** Lines 383-388: a description is cut to 40 characters, each
    backslash becomes four, each double quote gets a backslash, and the
    ends are stripped. *)
Definition shorten_desc (desc : ustr) : ustr :=
  let desc := take 40 desc in
  let desc := replace_char backslash [backslash; backslash; backslash; backslash] desc in
  let desc := replace_char double_quote [backslash; double_quote] desc in
  strip desc.

(** Lines 366-390: one turn of the loop over the lines of a
    [.ggcodes] file; [None] stands for [continue]. *)
Definition gg_line (line : ustr) : option (ustr * option ustr) :=
  let line := strip line in
  if bool_decide (line = []) then None
  else
    let '(code, desc) := split_comma line in
    let code := remove_whitespace code in
    if bool_decide (code = []) then None
    else
      let code := upper code in
      Some (code, shorten_desc <$> desc).

(** Lines 363-398, the [.ggcodes] branch of [get_cheat_codes], on the
    lines [gg_path.read_text().splitlines()] gives. *)
Definition gg_codes (lines : list ustr) : list (ustr * option ustr) :=
  let codes_and_descs := omap gg_line lines in
  if len codes_and_descs >? MAX_CHEAT_CODES
  then take (Z.to_nat MAX_CHEAT_CODES) codes_and_descs
  else codes_and_descs.

End Cheat.

(** Lines 416-420 of the [.mcf] branch: the length written for a cheat
    whose value field is [value]. *)
Definition mcf_length (value : Z) : Z :=
  let length := 1 in
  if value >? 0xff then 2
  else if value >? 0xffff then 4
  else length.

(** What a C compiler makes of the characters between the quotes of a
    string literal: a backslash takes the next character with it, and a
    double quote that no backslash takes ends the literal.
    [c_scan esc s] is [Some esc'] when [s] holds no such quote, [esc']
    telling whether its last backslash still waits for a character. *)
Fixpoint c_scan (esc : bool) (s : ustr) : option bool :=
  match s with
  | [] => Some esc
  | c :: s' =>
      if esc then c_scan false s'
      else if c =? backslash then c_scan true s'
      else if c =? double_quote then None
      else c_scan false s'
  end.

Definition c_literal_body (s : ustr) : Prop := c_scan false s = Some false.

(** The texts made of plain characters, runs of four backslashes, and
    double quotes behind one backslash. *)
Inductive escaped : ustr → Prop :=
| escaped_nil : escaped []
| escaped_plain (c : Z) (s : ustr) :
    c ≠ backslash → c ≠ double_quote → escaped s → escaped (c :: s)
| escaped_backslash (s : ustr) :
    escaped s →
    escaped (backslash :: backslash :: backslash :: backslash :: s)
| escaped_quote (s : ustr) :
    escaped s → escaped (backslash :: double_quote :: s).

(** The code points of an ASCII text, and character tables that know
    no whitespace and no letters above ASCII. *)
Definition ustr_of_string (s : string) : ustr :=
  (λ b, Z.of_N (Byte.to_N b)) <$> String.list_byte_of_string s.

Definition sample_unicode : unicode := Unicode (λ _, false) (λ c, [c]).

(** * Properties *)

(** ** Results and Python lists *)

Lemma len_nonneg {A} (l : list A) : 0 ≤ len l.
Proof. unfold len. lia. Qed.

Lemma py_getitem_Ok {A} (l : list A) (i : Z) (x : A) :
  0 ≤ i → l !! Z.to_nat i = Some x → py_getitem l i = Ok x.
Proof.
  intros Hi Hx. unfold py_getitem.
  pose proof (lookup_lt_Some _ _ _ Hx) as Hlt.
  destruct (Z.ltb_spec i 0); [lia|].
  destruct (Z.leb_spec 0 i); [|lia].
  destruct (Z.ltb_spec i (len l)); [|unfold len in *; lia].
  simpl. by rewrite Hx.
Qed.

Lemma py_getitem_out_of_range {A} (l : list A) (i : Z) :
  i < - len l ∨ len l ≤ i → py_getitem l i = Raise IndexError.
Proof.
  intros Hi. unfold py_getitem. pose proof (len_nonneg l).
  destruct (Z.ltb_spec i 0).
  - destruct (Z.leb_spec 0 (i + len l)); [|done].
    destruct (Z.ltb_spec (i + len l) (len l)); [lia|done].
  - destruct (Z.leb_spec 0 i); [|done].
    destruct (Z.ltb_spec i (len l)); [lia|done].
Qed.

Lemma py_setitem_Ok {A} (l : list A) (i : Z) (x : A) :
  0 ≤ i < len l → py_setitem l i x = Ok (<[Z.to_nat i := x]> l).
Proof.
  intros Hi. unfold py_setitem.
  destruct (Z.ltb_spec i 0); [lia|].
  destruct (Z.leb_spec 0 i); [|lia].
  destruct (Z.ltb_spec i (len l)); [done|lia].
Qed.

Lemma mapM_Ok_Forall {A B} (f : A → result B) (g : A → B) (l : list A) :
  Forall (λ x, f x = Ok (g x)) l → mapM f l = Ok (g <$> l).
Proof.
  induction 1 as [|x l Hx _ IH]; [done|].
  simpl. rewrite Hx, IH. done.
Qed.

Lemma mapM_Ok {A B} (f : A → result B) (g : A → B) (l : list A) :
  (∀ x, f x = Ok (g x)) → mapM f l = Ok (g <$> l).
Proof. intros Hf. apply mapM_Ok_Forall, Forall_forall. auto. Qed.

Lemma mapM_result_length {A B} (f : A → result B) (l : list A) (k : list B) :
  mapM f l = Ok k → length k = length l.
Proof.
  revert k. induction l as [|x l IH]; intros k; simpl.
  - by intros [= <-].
  - destruct (f x); simpl; [|done]. destruct (mapM f l); simpl; [|done].
    intros [= <-]. simpl. by rewrite (IH _ eq_refl).
Qed.

Lemma sorted_length (l : list Z) : length (sorted l) = length l.
Proof. unfold sorted. by rewrite merge_sort_Permutation. Qed.

Lemma sorted_Sorted (l : list Z) : StronglySorted Z.le (sorted l).
Proof. apply StronglySorted_merge_sort; apply _. Qed.

(** ** The sentinel of [compress_lzma] *)

(** The two branches of the sentinel test, lines 142-146. *)
Lemma compress_lzma_DONT_COMPRESS (lzma : bytes → bytes) (speed : bool) (data : bytes) :
  compress_lzma lzma speed data DONT_COMPRESS =
  if speed then Raise NotImplementedError else Ok data.
Proof. reflexivity. Qed.

(** In the default mode the codec stores the encoder's output without
    its 13-byte header. *)
Lemma compress_lzma_default (lzma : bytes → bytes) (speed : bool) (data : bytes) :
  compress_lzma lzma speed data LevelNone = Ok (drop 13 (lzma data)).
Proof. reflexivity. Qed.

(** ** The credit clamp of the adaptive strategy *)

(** With 26 candidates, or with none, the threshold is read out of
    range, whatever the banks are. *)
Lemma gb_compress_its_faults (banks compressed_banks : list bytes) :
  len (compress_size compressed_banks) = compression_credit ∨
  compress_size compressed_banks = [] →
  gb_compress_its compression_credit true banks compressed_banks = Raise IndexError.
Proof.
  intros HL. unfold gb_compress_its.
  destruct (py_setitem _ 0 false) as [its|e] eqn:Hset; simpl.
  - rewrite py_getitem_out_of_range; [done|].
    assert (len (sorted (compress_size compressed_banks)) =
            len (compress_size compressed_banks)) as Hlen
      by (unfold len; by rewrite sorted_length).
    unfold clamp_credit. rewrite Hlen.
    destruct HL as [->| ->]; unfold compression_credit, len; simpl; lia.
  - unfold py_setitem in Hset. simpl in Hset.
    destruct (0 <? _); [done|]. by inversion Hset.
Qed.

(** C2: the code at two inputs the claim covers.  A rom of 27 banks
    whose 26 later banks each compress to 100 bytes gives a candidate
    list as long as the credit, and a rom of 2 banks whose bank 1
    compresses to 98 bytes gives an empty one; in both the threshold
    lookup raises [IndexError]. *)
Theorem gb_credit_clamp_faults :
  gb_compress_its compression_credit true
    (replicate 27 (zeros 16384)) (replicate 27 (zeros 100)) = Raise IndexError ∧
  gb_compress_its compression_credit true
    (replicate 2 (zeros 16384)) (replicate 2 (zeros 98)) = Raise IndexError.
Proof. split; apply gb_compress_its_faults; [left|right]; by vm_compute. Qed.

(** ** The 128 KiB container *)


(** The bytes the branch assembles once [pack] is bound to
    [struct.pack("<l", _)]: the magic, the bank count, one length per
    bank, then the compressed banks. *)
Lemma sms_container_layout (compress : bytes → bytes) (c : codec) (data : bytes) :
  (∀ bank, c bank LevelNone = Ok (compress bank)) →
  len (split_banks (128 * 1024) data) < 2 ^ 31 →
  (∀ bank, len (compress bank) < 2 ^ 31) →
  sms_container (Some struct_pack_l) c data =
  Ok (SMS_MAGIC ++ le32 (len (split_banks (128 * 1024) data)) ++
      concat ((λ bank, le32 (len (compress bank))) <$> split_banks (128 * 1024) data) ++
      concat (compress <$> split_banks (128 * 1024) data)).
Proof.
  intros Hc Hn Hb. unfold sms_container.
  assert (∀ n, 0 ≤ n < 2 ^ 31 → struct_pack_l n = Ok (le32 n)) as Hpack.
  { intros n Hr. unfold struct_pack_l.
    destruct (Z.leb_spec (- 2 ^ 31) n); [|lia].
    destruct (Z.ltb_spec n (2 ^ 31)); [done|lia]. }
  rewrite (mapM_Ok _ compress) by done. simpl.
  rewrite Hpack; last first.
  { split; [apply len_nonneg|]. unfold len in *. by rewrite length_fmap. }
  simpl.
  rewrite (mapM_Ok_Forall _ (λ compressed_bank : bytes, le32 (len compressed_bank)));
    last first.
  { apply Forall_forall. intros cb (b & -> & _)%list_elem_of_fmap.
    apply Hpack. split; [apply len_nonneg|apply Hb]. }
  rewrite <- list_fmap_compose.
  simpl. f_equal. unfold len. rewrite length_fmap.
  by rewrite concat_app.
Qed.

(** The sms, gg and md branch called on its own, which no run does
    ([parse] gives these families no compression method): the banks
    are compressed, then the name [pack] is looked up and [NameError]
    is raised; nothing is written. *)
Lemma sms_branch_raises_NameError :
  let s := sample_store [("sms", [("a.sms", zeros 3)]); ("gg", [("a.gg", zeros 3)]);
                         ("md", [("a.md", zeros 3)])]%string [] None in
  let rom folder file :=
    ROM_init sample_tools lzma_args "" folder file folder empty_romdefs in
  _compress_rom sample_tools lzma_args "sms_system" (rom "sms" "a.sms")%string
                false (Some "lzma"%string) s = (Raise NameError, s) ∧
  _compress_rom sample_tools lzma_args "gg_system" (rom "gg" "a.gg")%string
                false (Some "lzma"%string) s = (Raise NameError, s) ∧
  _compress_rom sample_tools lzma_args "md_system" (rom "md" "a.md")%string
                false (Some "lzma"%string) s = (Raise NameError, s).
Proof. by vm_compute. Qed.

(** ** The adaptive strategy *)

Lemma enumerate_snoc {A} (l : list A) (x : A) :
  enumerate (l ++ [x]) = enumerate l ++ [(len l, x)].
Proof.
  unfold enumerate, len. rewrite imap_app. simpl.
  by rewrite Nat.add_0_r.
Qed.

Lemma mark_poor_prefix (thr : Z) (cb : list bytes) (its0 : list bool) :
  (length cb ≤ length its0)%nat →
  mark_poor thr cb its0 =
  Ok (zip_with (keep_mark thr) (take (length cb) its0) cb ++ drop (length cb) its0).
Proof.
  unfold mark_poor. induction cb as [|x l IH] using rev_ind; intros Hlen.
  - simpl. by rewrite drop_0.
  - rewrite length_app in Hlen. simpl in Hlen.
    rewrite enumerate_snoc, foldl_app, IH by lia. simpl.
    destruct (lookup_lt_is_Some_2 its0 (length l)) as [y Hy]; [lia|].
    rewrite length_app. simpl. rewrite Nat.add_1_r.
    rewrite (take_S_r _ _ _ Hy), (drop_S _ _ _ Hy).
    assert (length (take (length l) its0) = length l) as Htl
      by (rewrite length_take; lia).
    rewrite zip_with_app by done. simpl.
    assert (length (zip_with (keep_mark thr) (take (length l) its0) l) = length l) as Hzl
      by (rewrite length_zip_with; lia).
    rewrite <- app_assoc. simpl.
    destruct (len x >=? thr) eqn:Hx.
    + rewrite py_setitem_Ok.
      * unfold len. rewrite Nat2Z.id.
        rewrite <- Hzl at 1. rewrite (insert_app_r_alt _ _ (length _)) by lia.
        rewrite Nat.sub_diag. simpl.
        change (keep_mark thr y x) with (y && negb (len x >=? thr)).
        by rewrite Hx, andb_false_r.
      * unfold len. rewrite length_app, Hzl. simpl. lia.
    + simpl. change (keep_mark thr y x) with (y && negb (len x >=? thr)).
      by rewrite Hx, andb_true_r.
Qed.

Lemma mark_poor_spec (thr : Z) (cb : list bytes) (its0 : list bool) :
  length its0 = length cb →
  mark_poor thr cb its0 = Ok (zip_with (keep_mark thr) its0 cb).
Proof.
  intros Hlen. rewrite mark_poor_prefix by lia.
  rewrite <- Hlen, firstn_all, drop_all. by rewrite app_nil_r.
Qed.

(** Counting below an element of a sorted list. *)
Lemma count_below_sorted (srt : list Z) (k : nat) (t : Z) :
  StronglySorted Z.le srt → srt !! k = Some t →
  (length (filter (λ x, (x < t)%Z) srt) ≤ k)%nat ∧
  (NoDup srt → length (filter (λ x, x < t) srt) = k).
Proof.
  intros Hs Hk.
  pose proof (take_drop_middle _ _ _ Hk) as Hsrt.
  pose proof (lookup_lt_Some _ _ _ Hk) as Hlt.
  assert (filter (λ x, x < t) (t :: drop (S k) srt) = []) as Htail.
  { rewrite <- Hsrt in Hs. apply StronglySorted_app_1_r in Hs.
    apply StronglySorted_cons in Hs as [Hall _].
    rewrite filter_cons_False by lia. clear -Hall.
    induction Hall as [|y l Hy _ IH]; [done|].
    rewrite filter_cons_False by lia. done. }
  rewrite <- Hsrt at 1 3. rewrite filter_app, Htail, app_nil_r.
  split.
  - etrans; [apply length_filter|]. rewrite length_take. lia.
  - intros Hnd. rewrite <- Hsrt in Hs, Hnd.
    assert (Forall (λ x, x < t) (take k srt)) as Hall.
    { apply Forall_forall. intros x Hx.
      assert (x ≤ t) by (eapply (StronglySorted_app_1_elem_of Z.le); [done..|left]).
      apply NoDup_app in Hnd as (_ & Hne & _).
      specialize (Hne x Hx). rewrite elem_of_cons in Hne.
      assert (x ≠ t) by tauto. lia. }
    clear -Hall Hlt.
    assert (filter (λ x, x < t) (take k srt) = take k srt) as ->.
    { induction Hall as [|y l Hy _ IH]; [done|].
      rewrite filter_cons_True by done. by rewrite IH. }
    rewrite length_take. lia.
Qed.

Lemma zip_with_keep_mark_true (thr : Z) (l : list bytes) :
  zip_with (keep_mark thr) (replicate (length l) true) l =
  (λ b, negb (len b >=? thr)) <$> l.
Proof. induction l as [|b l IH]; [done|]. simpl. by rewrite IH. Qed.

(** The candidates kept and left, counted on the list of candidate
    lengths. *)
Lemma candidate_counts (thr : Z) (l : list bytes) :
  let marks := (λ b, negb (len b >=? thr)) <$> l in
  let L := filter (λ i, 98 < i) (len <$> l) in
  length (filter (λ p : bool * bytes, p.1 = true ∧ 98 < len p.2) (zip marks l)) =
    length (filter (λ x, x < thr) L) ∧
  length (filter (λ p : bool * bytes, p.1 = false ∧ 98 < len p.2) (zip marks l)) =
    length (filter (λ x, thr ≤ x) L).
Proof.
  simpl. induction l as [|b l [IH1 IH2]]; [done|].
  simpl. rewrite !filter_cons. simpl.
  destruct (Z.geb_spec (len b) thr); simpl;
    repeat (case_decide; simpl); rewrite ?filter_cons;
    repeat (case_decide; simpl); try lia;
    intuition (try lia; try discriminate; try (f_equal; first [exact IH1|exact IH2])).
Qed.

Lemma filter_lt_ge_length (thr : Z) (L : list Z) :
  (length (filter (λ x, (x < thr)%Z) L) +
   length (filter (λ x, (thr ≤ x)%Z) L))%nat = length L.
Proof.
  induction L as [|x L IH]; [done|].
  rewrite !filter_cons. repeat case_decide; simpl; lia.
Qed.

Lemma filter_sorted_length (P : Z → Prop) `{!∀ x, Decision (P x)} (L : list Z) :
  length (filter P (sorted L)) = length (filter P L).
Proof. unfold sorted. by rewrite merge_sort_Permutation. Qed.

(** C1, as amended.  With the speed-priority flag, credit [k] and a
    list [L] of candidate lengths that is not empty and not of length
    [k], the threshold is the element of index [min(k, len(L) - 1)] of
    the sorted list; a bank is kept compressed exactly when it is not
    bank 0 and its compressed length is below the threshold; at most
    [min(k, len(L) - 1)] candidates are kept compressed, the others are
    left uncompressed, and exactly that many are kept when the candidate
    lengths are pairwise distinct. *)
Theorem gb_speed_selection (credit : Z) (banks cb : list bytes) :
  length banks = length cb →
  0 ≤ credit →
  compress_size cb ≠ [] →
  len (compress_size cb) ≠ credit →
  let L := compress_size cb in
  let k := Z.to_nat (Z.min credit (len L - 1)) in
  ∃ thr its,
    sorted L !! k = Some thr ∧
    gb_compress_its credit true banks cb = Ok its ∧
    length its = length cb ∧
    (∀ i b, cb !! i = Some b →
            its !! i = Some (bool_decide (i ≠ 0%nat ∧ len b < thr))) ∧
    (kept_compressed its cb ≤ k)%nat ∧
    (kept_compressed its cb + left_uncompressed its cb)%nat = length L ∧
    (NoDup L → kept_compressed its cb = k).
Proof.
  intros Hlen Hcredit Hne Hk L k.
  destruct cb as [|b0 cb']; [exfalso; by apply Hne|].
  destruct banks as [|bk0 banks']; [done|].
  simpl in Hlen. injection Hlen as Hlen.
  assert (0 < len L) as HL.
  { unfold len. destruct (decide (length L = 0%nat)) as [H0|]; [|lia].
    apply nil_length_inv in H0. by destruct Hne. }
  assert (clamp_credit credit (sorted L) = Z.min credit (len L - 1)) as Hclamp.
  { unfold clamp_credit.
    replace (len (sorted L)) with (len L) by (unfold len; by rewrite sorted_length).
    destruct (Z.gtb_spec credit (len L)); fold L in Hk; lia. }
  destruct (lookup_lt_is_Some_2 (sorted L) k) as [thr Hthr].
  { rewrite sorted_length. unfold k, len in *. lia. }
  exists thr, (false :: ((λ b, negb (len b >=? thr)) <$> cb')).
  split; [done|]. split.
  { unfold gb_compress_its. simpl length.
    rewrite py_setitem_Ok by (unfold len; rewrite length_replicate; lia).
    simpl. fold L. rewrite Hclamp.
    rewrite (py_getitem_Ok _ _ thr) by (first [lia|done]).
    simpl. rewrite mark_poor_spec by (simpl; rewrite length_replicate; lia).
    simpl. rewrite Hlen, zip_with_keep_mark_true. done. }
  split; [simpl; by rewrite length_fmap|].
  split.
  { intros [|i] b Hb; simpl in *.
    - done.
    - rewrite list_lookup_fmap, Hb. simpl. f_equal.
      destruct (Z.geb_spec (len b) thr); simpl.
      + by rewrite bool_decide_eq_false_2 by lia.
      + by rewrite bool_decide_eq_true_2 by (split; [done|lia]). }
  unfold kept_compressed, left_uncompressed. simpl drop. rewrite !drop_0.
  destruct (candidate_counts thr cb') as [-> ->].
  change (filter (λ i, 98 < i) (len <$> cb')) with L.
  pose proof (count_below_sorted (sorted L) k thr (sorted_Sorted L) Hthr) as [Hle Heq].
  rewrite filter_sorted_length in Hle, Heq.
  split; [done|]. split; [apply filter_lt_ge_length|].
  intros Hnd. apply Heq. unfold sorted. by rewrite merge_sort_Permutation.
Qed.

(** C1's witness: credit 1 and compressed lengths 10 (bank 0), 500,
    2000 and 50. *)
Lemma gb_speed_selection_witness :
  let banks := replicate 4 (zeros 16384) in
  let cb := [zeros 10; zeros 500; zeros 2000; zeros 50] in
  (length banks = length cb ∧ 0 ≤ 1 ∧ compress_size cb ≠ [] ∧
   len (compress_size cb) ≠ 1) ∧
  let L := compress_size cb in
  let k := Z.to_nat (Z.min 1 (len L - 1)) in
  ∃ thr its,
    sorted L !! k = Some thr ∧
    gb_compress_its 1 true banks cb = Ok its ∧
    length its = length cb ∧
    (∀ i b, cb !! i = Some b →
            its !! i = Some (bool_decide (i ≠ 0%nat ∧ len b < thr))) ∧
    (kept_compressed its cb ≤ k)%nat ∧
    (kept_compressed its cb + left_uncompressed its cb)%nat = length L ∧
    (NoDup L → kept_compressed its cb = k).
Proof.
  assert (compress_size [zeros 10; zeros 500; zeros 2000; zeros 50] = [500; 2000])
    as HL by (by vm_compute).
  split.
  - split; [by vm_compute|]. split; [lia|]. split; by rewrite HL.
  - apply (gb_speed_selection 1); [by vm_compute|lia|by rewrite HL|by rewrite HL].
Defined.

(** C1, as stated, fails on equal lengths: with two candidates of 100
    bytes each and the credit of 26, the claim has one candidate kept
    compressed and one left uncompressed; the code keeps none and leaves
    both uncompressed. *)
Lemma gb_speed_selection_ties :
  let cb := replicate 3 (zeros 100) in
  let L := compress_size cb in
  ∃ its,
    gb_compress_its compression_credit true (replicate 3 (zeros 16384)) cb = Ok its ∧
    L = [100; 100] ∧
    Z.min compression_credit (len L - 1) = 1 ∧
    kept_compressed its cb = 0%nat ∧
    left_uncompressed its cb = 2%nat.
Proof. exists [false; false; false]. by vm_compute. Qed.

(** ** Bank 0 *)


Lemma split_banks_nil (BANK_SIZE : Z) : split_banks BANK_SIZE [] = [] ∨ BANK_SIZE ≤ 0.
Proof.
  destruct (decide (0 < BANK_SIZE)); [left|right; lia].
  unfold split_banks, py_range_step, len. simpl.
  rewrite Z.div_small by lia. done.
Qed.

(** Bank 0 is never marked for compression. *)
Lemma gb_compress_its_head (credit : Z) (speed : bool) (banks cb : list bytes)
    (its : list bool) :
  length banks = length cb →
  gb_compress_its credit speed banks cb = Ok its →
  ∃ its', its = false :: its' ∧ length its' = pred (length cb) ∧ banks ≠ [].
Proof.
  intros Hlen. unfold gb_compress_its.
  destruct banks as [|bk0 banks']; [done|].
  destruct cb as [|b0 cb']; [done|]. simpl in Hlen. injection Hlen as Hlen.
  simpl length. rewrite py_setitem_Ok by (unfold len; rewrite length_replicate; lia).
  simpl. destruct speed.
  - destruct (py_getitem _ _) as [thr|]; simpl; [|done].
    rewrite mark_poor_spec by (simpl; rewrite length_replicate; lia).
    simpl. intros [= <-]. eexists. split; [done|]. split; [|done].
    rewrite length_zip_with, length_replicate. lia.
  - intros [= <-]. eexists. split; [done|]. split; [|done].
    by rewrite length_replicate.
Qed.



(** With the only registered codec, the 16 KiB branch raises in the
    speed-priority mode as soon as it reaches a bank left uncompressed,
    whatever the image. *)
Lemma gb_container_speed_raises (lzma : bytes → bytes) (credit : Z) (data : bytes) :
  ∃ e, gb_container (compress_lzma lzma true) credit true data = Raise e.
Proof.
  destruct (gb_container _ _ _ _) as [out|e] eqn:Hout; [|by eexists].
  exfalso. revert Hout. unfold gb_container.
  rewrite (mapM_Ok _ (λ bank, drop 13 (lzma bank))) by done. simpl.
  destruct (gb_compress_its _ _ _ _) as [its|] eqn:Hits; simpl; [|done].
  apply gb_compress_its_head in Hits as (its' & -> & _ & Hb); [|by rewrite length_fmap].
  destruct (split_banks 16384 data); done.
Qed.

(** ** Save storage of a rom *)

#[global] Instance option_flag_eq_dec : EqDecision option_flag.
Proof. solve_decision. Defined.

Lemma apply_options_save (argv : list option_flag) (a0 : args) :
  save (foldl apply_option a0 argv) = save a0 && bool_decide (OptNoSave ∉ argv).
Proof.
  revert a0. induction argv as [|o argv IH]; intros a0; cbn [foldl].
  - rewrite bool_decide_eq_true_2 by apply not_elem_of_nil.
    by rewrite andb_true_r.
  - rewrite IH.
    destruct (bool_decide (OptNoSave ∉ argv)) eqn:H1;
      destruct (bool_decide (OptNoSave ∉ o :: argv)) eqn:H2;
      [apply bool_decide_eq_true in H1|apply bool_decide_eq_true in H1
      |apply bool_decide_eq_false in H1|apply bool_decide_eq_false in H1];
      [apply bool_decide_eq_true in H2|apply bool_decide_eq_false in H2
      |apply bool_decide_eq_true in H2|apply bool_decide_eq_false in H2];
      rewrite not_elem_of_cons in H2;
      destruct o; simpl; rewrite ?andb_true_r, ?andb_false_r; try done;
      exfalso; naive_solver.
Qed.

(** [args.save] is true unless [--no-save] is on the command line. *)
Lemma parse_args_save (argv : list option_flag) :
  save (parse_args argv) = true ↔ OptNoSave ∉ argv.
Proof.
  unfold parse_args. rewrite apply_options_save. simpl.
  by rewrite bool_decide_eq_true.
Qed.

(** What [find_roms] returns, and that it leaves the disk alone. *)
Lemma find_roms_spec (T : tools) (a : args) (system_name folder extension : string)
    (defs : romdefs) (s : store) :
  ∃ files,
    find_roms T a system_name folder extension defs s =
    (match roms s !! folder with
     | Some _ =>
         Ok (strip_no_save <$>
             ((λ f, ROM_init T a system_name folder f (lower extension) defs) <$> files))
     | None => Raise FileNotFoundError
     end, s) ∧
    StronglySorted String.le files.
Proof.
  unfold find_roms. cbv [mbind D_bind get_store].
  destruct (roms s !! folder) as [dir|].
  - eexists. split; [reflexivity|].
    apply StronglySorted_merge_sort; apply _.
  - exists []. split; [done|constructor].
Qed.

(** C10.  For every rom [find_roms] returns under command line [argv]:
    [args.save] is true unless [--no-save] is given, the constructor
    sets [enable_save] to the metadata value or-ed with [args.save], so
    without [--no-save] it is true whatever the metadata says, and the
    rom ends with saves disabled exactly when its display name ends in
    [_no_save], or [--no-save] is given and the metadata does not enable
    saves. *)
Theorem save_enabled_unless_no_save (T : tools) (argv : list option_flag)
    (system_name folder extension : string) (defs : romdefs)
    (s s' : store) (found : list ROM) (r : ROM) :
  find_roms T (parse_args argv) system_name folder extension defs s = (Ok found, s') →
  r ∈ found →
  ∃ file_name,
    let r0 := ROM_init T (parse_args argv) system_name folder file_name (lower extension) defs in
    let metadata :=
      default "0"%string
        (default ∅ (rd_roms defs !! filename r0) !! "enable_save"%string) in
    r = strip_no_save r0 ∧
    (save (parse_args argv) = true ↔ OptNoSave ∉ argv) ∧
    enable_save r0 = String.eqb metadata "1" || save (parse_args argv) ∧
    (OptNoSave ∉ argv → enable_save r0 = true) ∧
    (enable_save r = false ↔
       endswith (name r0) "_no_save" = true ∨
       (OptNoSave ∈ argv ∧ metadata ≠ "1"%string)).
Proof.
  intros Hfind Hr.
  destruct (find_roms_spec T (parse_args argv) system_name folder extension defs s)
    as (files & Hspec & _).
  rewrite Hspec in Hfind. destruct (roms s !! folder); [|done].
  injection Hfind as <- <-.
  apply list_elem_of_fmap in Hr as (r0' & -> & Hr).
  apply list_elem_of_fmap in Hr as (file_name & -> & _).
  exists file_name. cbv zeta.
  set (r0 := ROM_init T (parse_args argv) system_name folder file_name (lower extension) defs).
  set (metadata := default "0"%string
         (default ∅ (rd_roms defs !! filename r0) !! "enable_save"%string)).
  assert (enable_save r0 = String.eqb metadata "1" || save (parse_args argv)) as E1
    by reflexivity.
  clearbody metadata. clearbody r0.
  pose proof (parse_args_save argv) as Hsave.
  split; [done|]. split; [done|]. split; [done|]. split.
  { intros Hn. apply Hsave in Hn. rewrite E1, Hn. by rewrite orb_true_r. }
  unfold strip_no_save.
  destruct (endswith (name r0) "_no_save") eqn:Hend; cbn [enable_save].
  - split; [by left|done].
  - rewrite E1, orb_false_iff, String.eqb_neq.
    destruct (save (parse_args argv)) eqn:Hs.
    + split; [intros [_ ?]; done|].
      intros [?|[Hin _]]; [done|]. exfalso. by apply Hsave.
    + split.
      * intros [Hm _]. right. split; [|done].
        destruct (decide (OptNoSave ∈ argv)) as [|Hn]; [done|].
        apply Hsave in Hn. congruence.
      * intros [?|[_ Hm]]; done.
Qed.

(** C10's witness: the gb folder holds [mario.gb] and
    [zelda_no_save.gb], no option is given, and the rom is the second. *)
Lemma save_enabled_unless_no_save_witness :
  let s := sample_store [("gb", [("mario.gb", zeros 1); ("zelda_no_save.gb", zeros 1)])]%string
                        [] None in
  let rom f := strip_no_save
    (ROM_init sample_tools (parse_args []) "Nintendo Gameboy" "gb" f "gb" empty_romdefs) in
  let found := [rom "mario.gb"; rom "zelda_no_save.gb"]%string in
  let r := rom "zelda_no_save.gb"%string in
  (find_roms sample_tools (parse_args []) "Nintendo Gameboy" "gb" "gb" empty_romdefs s =
     (Ok found, s) ∧ r ∈ found) ∧
  ∃ file_name,
    let r0 := ROM_init sample_tools (parse_args []) "Nintendo Gameboy" "gb" file_name
                       "gb" empty_romdefs in
    let metadata :=
      default "0"%string
        (default ∅ (rd_roms empty_romdefs !! filename r0) !! "enable_save"%string) in
    r = strip_no_save r0 ∧
    (save (parse_args []) = true ↔ OptNoSave ∉ []) ∧
    enable_save r0 = String.eqb metadata "1" || save (parse_args []) ∧
    (OptNoSave ∉ [] → enable_save r0 = true) ∧
    (enable_save r = false ↔
       endswith (name r0) "_no_save" = true ∨
       (OptNoSave ∈ [] ∧ metadata ≠ "1"%string)).
Proof.
  cbv zeta.
  assert (find_roms sample_tools (parse_args []) "Nintendo Gameboy" "gb" "gb" empty_romdefs
            (sample_store [("gb", [("mario.gb", zeros 1); ("zelda_no_save.gb", zeros 1)])]%string
                          [] None) =
          (Ok [strip_no_save (ROM_init sample_tools (parse_args []) "Nintendo Gameboy"
                                       "gb" "mario.gb" "gb" empty_romdefs);
               strip_no_save (ROM_init sample_tools (parse_args []) "Nintendo Gameboy"
                                       "gb" "zelda_no_save.gb" "gb" empty_romdefs)],
           sample_store [("gb", [("mario.gb", zeros 1); ("zelda_no_save.gb", zeros 1)])]%string
                        [] None)) as Hfind by (by vm_compute).
  split.
  - split; [exact Hfind|]. right. left.
  - eapply (save_enabled_unless_no_save sample_tools [] _ _ _ _ _ _ _ _ Hfind).
    right. left.
Defined.

(** ** Running the monads *)

Lemma D_bind_Ok {A B} (m : D A) (f : A → D B) (s s' : store) (b : B) :
  (m ≫= f) s = (Ok b, s') → ∃ a s1, m s = (Ok a, s1) ∧ f a s1 = (Ok b, s').
Proof.
  unfold mbind, D_bind. destruct (m s) as [[a|e] s1]; [eauto|done].
Qed.

Lemma M_bind_Ok {A B} (m : M A) (f : A → M B) (sl sl' : store * log) (b : B) :
  (m ≫= f) sl = (Ok b, sl') → ∃ a sl1, m sl = (Ok a, sl1) ∧ f a sl1 = (Ok b, sl').
Proof.
  unfold mbind, M_bind. destruct (m sl) as [[a|e] sl1]; [eauto|done].
Qed.

Lemma disk_Ok {A} (m : D A) (s s' : store) (l l' : log) (x : A) :
  disk m (s, l) = (Ok x, (s', l')) → m s = (Ok x, s') ∧ l' = l.
Proof.
  unfold disk. simpl. destruct (m s) as [r s1]. by intros [= -> -> ->].
Qed.

Lemma read_only_ret {A} (x : A) : read_only (mret x : D A).
Proof. by intros s. Qed.

Lemma read_only_bind {A B} (m : D A) (f : A → D B) :
  read_only m → (∀ x, read_only (f x)) → read_only (m ≫= f).
Proof.
  intros Hm Hf s. unfold mbind, D_bind. specialize (Hm s).
  destruct (m s) as [[x|e] s1]; simpl in *; subst; [apply Hf|done].
Qed.

Lemma read_only_read_rom (folder file_name : string) : read_only (read_rom folder file_name).
Proof. intros s. unfold read_rom. by destruct (rom_lookup _ _ _). Qed.

Lemma read_only_stat_size (folder file_name : string) :
  read_only (stat_size folder file_name).
Proof. intros s. unfold stat_size. by destruct (rom_lookup _ _ _). Qed.

Lemma read_only_raise {A} (e : exn) : read_only (raise e : D A).
Proof. by intros s. Qed.

Lemma read_only_lift {A} (r : result A) : read_only (lift r).
Proof. by intros s. Qed.

Lemma read_only_get_gameboy_save_size (T : tools) (a : args) (folder file_name : string) :
  read_only (get_gameboy_save_size T a folder file_name).
Proof.
  unfold get_gameboy_save_size. apply read_only_bind; [apply read_only_read_rom|].
  intros data. destruct (data !! _); [|apply read_only_raise].
  destruct (data !! _); [|apply read_only_raise].
  apply read_only_bind; [apply read_only_lift|]. intros n. apply read_only_ret.
Qed.

Lemma read_only_get_nes_save_size (T : tools) (a : args) (folder file_name : string) :
  read_only (get_nes_save_size T a folder file_name).
Proof. by intros s. Qed.


(** ** Images over the compressible size *)




(** ** Files written at the end of a run *)

Lemma write_if_changed_spec (path : string) (data : bytes) (s : store) :
  ∃ s', write_if_changed path data s = (Ok (), s') ∧
        f_data <$> outs s' !! path = Some data ∧
        (∀ q, q ≠ path → outs s' !! q = outs s !! q) ∧
        roms s' = roms s.
Proof.
  unfold write_if_changed, mbind, D_bind, get_store. case_bool_decide as Hd.
  - eexists. split; [reflexivity|]. simpl.
    split; [by rewrite lookup_insert_eq|]. split; [|done].
    intros q Hq. by rewrite lookup_insert_ne.
  - exists s. split; [done|]. split; [|done].
    destruct (decide (Some data = f_data <$> outs s !! path)) as [<-|]; done.
Qed.


Lemma cacheflash_text :
  text ("__CACHEFLASH_LENGTH__ = " ++ pretty 0 ++ ";
") = text "__CACHEFLASH_LENGTH__ = 0;
".
Proof. reflexivity. Qed.

(** The cache directive a completed [parse_finish] leaves on the disk. *)
Lemma parse_finish_cacheflash (a : args) (p : plan) (s s' : store) :
  parse_finish a p s = (Ok (), s') →
  f_data <$> outs s' !! "build/cacheflash.ld"%string =
  Some (text "__CACHEFLASH_LENGTH__ = 0;
").
Proof.
  unfold parse_finish.
  destruct (_ =? 0); [done|].
  destruct (_ >? flash_size a).
  { unfold mbind, D_bind, get_store, py_exit, raise.
    destruct (out_exists _ _); [|done].
    destruct (remove_out _ _) as [[]]; done. }
  intros H.
  apply D_bind_Ok in H as (? & s1 & _ & H).
  apply D_bind_Ok in H as (? & s2 & _ & H).
  apply D_bind_Ok in H as (? & s3 & H3 & H).
  match type of H3 with
  | write_if_changed ?q ?d ?s0 = _ =>
      destruct (write_if_changed_spec q d s0) as (s3' & E3 & Hdata & _)
  end.
  rewrite E3 in H3. simplify_eq.
  match type of H with
  | write_if_changed ?q ?d ?s0 = _ =>
      destruct (write_if_changed_spec q d s0) as (s4 & E4 & _ & Hother & _)
  end.
  rewrite E4 in H. simplify_eq.
  rewrite Hother by done. by rewrite Hdata.
Qed.

(** C5, as amended: every run that completes writes the cache directive
    [__CACHEFLASH_LENGTH__ = 0;], whatever rom sizes the Sega families
    had. *)
Theorem cacheflash_length_zero (T : tools) (a : args) (sl : store * log)
    (s' : store) (l' : log) :
  parse T a sl = (Ok (), (s', l')) →
  f_data <$> outs s' !! "build/cacheflash.ld"%string =
  Some (text "__CACHEFLASH_LENGTH__ = 0;
").
Proof.
  unfold parse. intros H.
  apply M_bind_Ok in H as (p & [s1 l1] & _ & H).
  apply disk_Ok in H as [H _]. by eapply parse_finish_cacheflash.
Qed.

(** C5's witness: a run over one Sega Master System rom of three
    bytes. *)
Lemma cacheflash_length_zero_witness :
  let sl := (sample_store [("sms", [("a.sms", zeros 3)])]%string [] None, log0) in
  let run := parse sample_tools default_args sl in
  run = (Ok (), (run.2.1, run.2.2)) ∧
  f_data <$> outs run.2.1 !! "build/cacheflash.ld"%string =
  Some (text "__CACHEFLASH_LENGTH__ = 0;
").
Proof.
  cbv zeta.
  set (sl := (sample_store [("sms", [("a.sms", zeros 3)])]%string [] None, log0)).
  assert (parse sample_tools default_args sl =
          (Ok (), ((parse sample_tools default_args sl).2.1,
                   (parse sample_tools default_args sl).2.2))) as Hrun
    by (vm_compute; reflexivity).
  split; [exact Hrun|].
  exact (cacheflash_length_zero sample_tools default_args sl _ _ Hrun).
Defined.

(** C5, as stated, fails: in the run over one Sega Master System rom of
    three bytes, the largest rom of the families that share the cache
    has three bytes, and the directive written is
    [__CACHEFLASH_LENGTH__ = 0;]. *)
Lemma cacheflash_length_not_max :
  let sl := (sample_store [("sms", [("a.sms", zeros 3)])]%string [] None, log0) in
  sega_larger_rom_size <$> (parse_systems sample_tools default_args sl).1 = Ok 3 ∧
  (parse sample_tools default_args sl).1 = Ok () ∧
  f_data <$> outs (parse sample_tools default_args sl).2.1 !! "build/cacheflash.ld"%string =
    Some (text "__CACHEFLASH_LENGTH__ = 0;
") ∧
  text "__CACHEFLASH_LENGTH__ = 0;
" ≠ text "__CACHEFLASH_LENGTH__ = 3;
".
Proof. by vm_compute. Qed.






(** ** The record of a run *)

Lemma hoare_ret {A} (P : log → Prop) (x : A) (Q : result A → log → Prop) :
  (∀ l, P l → Q (Ok x) l) → hoare P (mret x) Q.
Proof. intros H s l Hl. by apply H. Qed.

Lemma hoare_bind {A B} (P : log → Prop) (m : M A) (f : A → M B)
    (R : A → log → Prop) (Q : result B → log → Prop) :
  hoare P m (λ r l, match r with Ok x => R x l | Raise e => Q (Raise e) l end) →
  (∀ x, hoare (R x) (f x) Q) →
  hoare P (m ≫= f) Q.
Proof.
  intros Hm Hf s l Hl. specialize (Hm s l Hl).
  unfold mbind, M_bind. destruct (m (s, l)) as [[x|e] [s1 l1]]; simpl in *.
  - by apply Hf.
  - done.
Qed.

Lemma hoare_conseq {A} (P P' : log → Prop) (m : M A) (Q Q' : result A → log → Prop) :
  hoare P' m Q' → (∀ l, P l → P' l) → (∀ r l, Q' r l → Q r l) → hoare P m Q.
Proof. intros H HP HQ s l Hl. apply HQ, H, HP, Hl. Qed.

Lemma hoare_disk_val {A} (P : log → Prop) (m : D A) (Q : result A → log → Prop) :
  (∀ s r s', m s = (r, s') → ∀ l, P l → Q r l) → hoare P (disk m) Q.
Proof.
  intros H s l Hl. unfold disk. simpl.
  destruct (m s) as [r s'] eqn:Hm. simpl. by eapply H.
Qed.

Lemma hoare_disk {A} (P : log → Prop) (m : D A) (Q : result A → log → Prop) :
  (∀ r l, P l → Q r l) → hoare P (disk m) Q.
Proof. intros H. apply hoare_disk_val. intros. by apply H. Qed.

Lemma hoare_pure {A} (φ : Prop) (P : log → Prop) (m : M A)
    (Q : result A → log → Prop) :
  (φ → hoare P m Q) → hoare (λ l, P l ∧ φ) m Q.
Proof. intros H s l [Hl Hφ]. by apply H. Qed.

Lemma hoare_record (P : log → Prop) (f : log → log) (Q : result unit → log → Prop) :
  (∀ l, P l → Q (Ok ()) (f l)) → hoare P (record f) Q.
Proof. intros H s l Hl. by apply H. Qed.

Lemma hoare_for_each_M {A B} (I : B → log → Prop) (E : log → Prop)
    (body : B → A → M B) (xs : list A) (acc : B) :
  (∀ acc x, hoare (I acc) (body acc x)
              (λ r l, match r with Ok acc' => I acc' l | Raise _ => E l end)) →
  hoare (I acc) (for_each_M body acc xs)
        (λ r l, match r with Ok acc' => I acc' l | Raise _ => E l end).
Proof.
  intros Hbody. revert acc. induction xs as [|x xs IH]; intros acc; simpl.
  - by apply hoare_ret.
  - eapply hoare_bind; [apply Hbody|]. intros acc'. apply IH.
Qed.

Lemma run_inv_log_id (c : Z) (l : log) (rom : ROM) :
  run_inv c l → run_inv (c + 1) (log_id (set_rom_id rom c) l).
Proof.
  intros [[Hids Hc] Hitems]. split; [split; [|lia]|done].
  unfold assigned_ids, log_id in *. simpl. rewrite fmap_app, Hids. simpl.
  rewrite (seqZ_app 0 c 1) by lia. done.
Qed.

Lemma run_inv_log_item (c : Z) (l : log) (file : string) (it : item) :
  (∀ rom, rom ∈ item_roms it → publish rom = true) →
  run_inv c l → run_inv c (log_item file it l).
Proof.
  intros Hit [Hids Hitems]. split; [done|].
  intros file' it' rom. unfold log_item. simpl.
  rewrite elem_of_app, list_elem_of_singleton.
  intros [Hin|[= -> ->]]; [by eapply Hitems|apply Hit].
Qed.

Lemma inv_post_raise {A} (next : A → Z) (c : Z) (e : exn) (l : log) :
  run_inv c l → inv_post next (Raise e) l.
Proof. intros H. by exists c. Qed.

Lemma hoare_bind_inv {A B} (c : Z) (m : M A) (f : A → M B)
    (n1 : A → Z) (n2 : B → Z) :
  hoare (run_inv c) m (inv_post n1) →
  (∀ x, hoare (run_inv (n1 x)) (f x) (inv_post n2)) →
  hoare (run_inv c) (m ≫= f) (inv_post n2).
Proof.
  intros Hm Hf. eapply (hoare_bind _ _ _ (λ x l, run_inv (n1 x) l)); [|done].
  intros s l Hl. specialize (Hm s l Hl).
  by destruct ((m (s, l)).1).
Qed.

Lemma hoare_disk_inv {A} (c : Z) (m : D A) :
  hoare (run_inv c) (disk m) (inv_post (λ _, c)).
Proof. apply hoare_disk. intros [x|e] l Hl; [done|by exists c]. Qed.

Lemma hoare_ret_inv {A} (c : Z) (x : A) (next : A → Z) :
  next x = c → hoare (run_inv c) (mret x) (inv_post next).
Proof. intros <-. by apply hoare_ret. Qed.

Lemma hoare_assign_ids (roms : list ROM) (c : Z) :
  hoare (run_inv c) (assign_ids roms c) (inv_post snd).
Proof.
  unfold assign_ids.
  eapply hoare_conseq;
    [apply (hoare_for_each_M (λ acc l, run_inv acc.2 l) (λ l, ∃ c, run_inv c l))
    |done|by intros [[]|]].
  intros acc rom.
  eapply (hoare_bind _ _ _ (λ _ l, run_inv (acc.2 + 1) l)).
  - apply hoare_record. intros l Hl. apply (run_inv_log_id _ _ rom Hl).
  - intros []. by apply hoare_ret.
Qed.

Lemma hoare_f_write (T : tools) (c : Z) (file : string) (it : item) :
  (∀ rom, rom ∈ item_roms it → publish rom = true) →
  hoare (run_inv c) (f_write T file it) (inv_post (λ _, c)).
Proof.
  intros Hit. unfold f_write.
  eapply hoare_bind_inv; [apply hoare_disk_inv|].
  intros []. apply hoare_record. intros l Hl. by apply run_inv_log_item.
Qed.

Lemma generate_img_object_file_item (T : tools) (rom : ROM) (w h : Z)
    (s s' : store) (it : item) :
  generate_img_object_file T rom w h s = (Ok (Some it), s') → it = ItImage rom w h.
Proof.
  unfold generate_img_object_file. intros H.
  apply D_bind_Ok in H as (s0 & s1 & _ & H).
  apply D_bind_Ok in H as (? & s2 & _ & H).
  apply D_bind_Ok in H as (s3 & s4 & _ & H).
  destruct (rom_lookup _ _ _); [|unfold mret, D_ret in H; by simplify_eq].
  apply D_bind_Ok in H as (obj & s5 & _ & H).
  apply D_bind_Ok in H as ([] & s6 & _ & H).
  apply D_bind_Ok in H as (s7 & s8 & _ & H).
  apply D_bind_Ok in H as (archive & s9 & _ & H).
  apply D_bind_Ok in H as ([] & s10 & _ & H).
  unfold mret, D_ret in H. by simplify_eq.
Qed.

Lemma generate_object_file_item (T : tools) (rom : ROM) (system_name : string)
    (s s' : store) (it : item) :
  generate_object_file T rom system_name s = (Ok it, s') → it = ItObject rom.
Proof.
  unfold generate_object_file. intros H.
  apply D_bind_Ok in H as (s0 & s1 & _ & H).
  apply D_bind_Ok in H as (obj & s2 & _ & H).
  apply D_bind_Ok in H as ([] & s3 & _ & H).
  apply D_bind_Ok in H as (s4 & s5 & _ & H).
  apply D_bind_Ok in H as (archive & s6 & _ & H).
  apply D_bind_Ok in H as ([] & s7 & _ & H).
  unfold mret, D_ret in H. by simplify_eq.
Qed.

Lemma hoare_emit_rom (T : tools) (a : args) (c : Z)
    (file system_name folder save_prefix : string) (cheat : option string)
    (w h : Z) (t : totals) (ir : Z * ROM) :
  hoare (run_inv c)
        (emit_rom T a file system_name folder save_prefix cheat w h t ir)
        (inv_post (λ _, c)).
Proof.
  destruct ir as [i rom]. unfold emit_rom.
  destruct (publish rom) eqn:Hpub; simpl negb; cbv iota; [|by apply hoare_ret_inv].
  assert (∀ r, r ∈ [rom] → publish r = true) as Hrom
    by (by intros r ->%list_elem_of_singleton).
  eapply hoare_bind_inv; [apply hoare_disk_inv|]. intros save_sz.
  eapply hoare_bind_inv; [apply hoare_disk_inv|]. intros size.
  eapply hoare_bind_inv; [apply hoare_disk_inv|]. intros img_size.
  eapply (hoare_bind _ _ _ (λ obj l, run_inv c l ∧ obj = ItObject rom)).
  { apply hoare_disk_val. intros s [obj|e] s' Hm l Hl; [|by exists c].
    split; [done|]. by eapply generate_object_file_item. }
  intros obj. apply hoare_pure. intros ->.
  eapply hoare_bind_inv; [by apply hoare_f_write|]. intros [].
  eapply (hoare_bind_inv c _ _ (λ _, c)).
  { destruct (negb (coverflow a =? 0)); [|by apply hoare_ret_inv].
    eapply (hoare_bind _ _ _
              (λ img l, run_inv c l ∧ (∀ it, img = Some it → it = ItImage rom w h))).
    - apply hoare_disk_val. intros s [img|e] s' Hm l Hl; [|by exists c].
      split; [done|]. intros it ->. by eapply generate_img_object_file_item.
    - intros [it|]; [|apply hoare_ret; by intros l [Hl _]].
      apply hoare_pure. intros Hit. rewrite (Hit it eq_refl).
      by apply hoare_f_write. }
  intros []. eapply (hoare_bind_inv c _ _ (λ _, c)).
  { destruct (enable_save rom); [|by apply hoare_ret_inv].
    apply hoare_f_write. by intros r Hr%elem_of_nil. }
  intros []. eapply (hoare_bind_inv c _ _ (λ _, c)).
  { destruct cheat as [p|]; [|by apply hoare_ret_inv].
    destruct (String.eqb p ""); [by apply hoare_ret_inv|by apply hoare_f_write]. }
  intros []. by apply hoare_ret_inv.
Qed.

Lemma for_each_inv {A B} (I : B → Prop) (body : B → A → D B) (xs : list A)
    (acc acc' : B) (s s' : store) :
  (∀ acc x s acc' s', I acc → body acc x s = (Ok acc', s') → I acc') →
  I acc → for_each body acc xs s = (Ok acc', s') → I acc'.
Proof.
  intros Hbody. revert acc s. induction xs as [|x xs IH]; intros acc s Hacc; simpl.
  - by intros [= <- _].
  - intros H. apply D_bind_Ok in H as (acc1 & s1 & H1 & H). eauto.
Qed.

Lemma generate_rom_entries_published (T : tools) (name : string) (roms : list ROM)
    (s s' : store) (it : item) :
  generate_rom_entries T name roms s = (Ok it, s') →
  ∀ rom, rom ∈ item_roms it → publish rom = true.
Proof.
  unfold generate_rom_entries. intros H.
  apply D_bind_Ok in H as (acc & s1 & H & Hret). injection Hret as <- _.
  simpl. intros rom (row & -> & Hrow)%list_elem_of_fmap. revert row Hrow.
  apply Forall_forall.
  eapply (for_each_inv (λ acc : list rom_entry * Z,
                          Forall (λ row, publish (re_rom row) = true) acc.1)) in H;
    [exact H| |by constructor].
  clear. intros [body pubcount] [i rom] s acc' s' Hacc. cbn [fst].
  destruct (publish rom) eqn:Hpub; cbn [negb]; cbv iota.
  - intros H. apply D_bind_Ok in H as (size & s1 & _ & H).
    apply D_bind_Ok in H as (img_size & s2 & _ & H).
    apply D_bind_Ok in H as (mapper & s3 & _ & H).
    apply D_bind_Ok in H as (game_config & s4 & _ & H). injection H as <- _.
    simpl. apply Forall_app. split; [done|]. by apply Forall_singleton.
  - by intros [= <- _].
Qed.

Lemma hoare_exit {A} (c code : Z) (next : A → Z) :
  hoare (run_inv c) (disk (py_exit code)) (inv_post next).
Proof.
  apply hoare_disk_val. intros s r s' [= <- _] l Hl. by exists c.
Qed.

Lemma hoare_disk_keep {A} (c : Z) (m : D A) (next : A → Z) :
  (∀ x, next x = c) → hoare (run_inv c) (disk m) (inv_post next).
Proof.
  intros Hn. apply hoare_disk. intros [x|e] l Hl; [|by exists c].
  unfold inv_post. by rewrite Hn.
Qed.

(** A call of [generate_system] keeps the invariant of the run and
    returns the next identifier. *)
Lemma hoare_generate_system (T : tools) (a : args)
    (file system_name variable_name folder : string) (extensions : list string)
    (save_prefix : string) (defs : romdefs) (cheat : option string) (c : Z)
    (compress : option string) (speed : bool) :
  hoare (run_inv c)
        (generate_system T a file system_name variable_name folder extensions
                         save_prefix defs cheat c compress speed)
        (inv_post current_id_of).
Proof.
  unfold generate_system.
  eapply hoare_bind_inv; [apply hoare_disk_inv|]. intros s0. cbv beta zeta.
  eapply hoare_bind_inv; [apply hoare_disk_inv|]. intros [roms roms_uncompressed].
  cbv beta.
  eapply hoare_bind_inv; [apply hoare_assign_ids|]. intros [roms' c'].
  cbn [snd].
  destruct (_ >? 18600); [apply hoare_exit|].
  eapply hoare_bind_inv; [apply hoare_disk_inv|]. intros [].
  eapply hoare_bind_inv;
    [apply hoare_f_write; by intros r Hr%elem_of_nil|]. intros [].
  eapply (hoare_bind_inv c' _ _ (λ _, c')).
  { eapply hoare_conseq;
      [apply (hoare_for_each_M (λ _ l, run_inv c' l) (λ l, ∃ c, run_inv c l))
      |done|by intros [?|?]].
    intros t ir. apply hoare_emit_rom. }
  intros t.
  eapply (hoare_bind _ _ _
            (λ it l, run_inv c' l ∧ (∀ rom, rom ∈ item_roms it → publish rom = true))).
  { apply hoare_disk_val. intros s [it|e] s' Hm l Hl; [|by exists c'].
    split; [done|]. by eapply generate_rom_entries_published. }
  intros it. apply hoare_pure. intros Hit.
  eapply hoare_bind_inv; [by apply hoare_f_write|]. intros [].
  eapply hoare_bind_inv;
    [apply hoare_f_write; by intros r Hr%elem_of_nil|]. intros [].
  eapply hoare_bind_inv; [apply hoare_disk_inv|]. intros larger.
  by apply hoare_ret_inv.
Qed.

Lemma hoare_generate_system_at (T : tools) (a : args)
    (file system_name variable_name folder : string) (extensions : list string)
    (save_prefix : string) (defs : romdefs) (cheat : option string) (c c' : Z)
    (compress : option string) (speed : bool) :
  c' = c →
  hoare (run_inv c)
        (generate_system T a file system_name variable_name folder extensions
                         save_prefix defs cheat c' compress speed)
        (inv_post current_id_of).
Proof. intros ->. apply hoare_generate_system. Qed.

Lemma hoare_let {A B} (P : log → Prop) (e : A) (body : A → M B)
    (Q : result B → log → Prop) :
  (∀ p, p = e → hoare P (body p) Q) → hoare P (let p := e in body p) Q.
Proof. intros H. by apply H. Qed.

(** The statements after a call leave [current_id] as the call
    returned it. *)
Lemma p_current_id_set (r : Z * Z * Z * Z * Z * Z) (p : plan) :
  p_current_id (set_current_id r p) = current_id_of r.
Proof. by destruct r as [[[[[? ?] ?] ?] ?] ?]. Qed.

Lemma p_current_id_add_save_rom (r : Z * Z * Z * Z * Z * Z) (p : plan) :
  p_current_id (add_save_rom r p) = p_current_id p.
Proof. by destruct r as [[[[[? ?] ?] ?] ?] ?]. Qed.

Lemma p_current_id_add_img (r : Z * Z * Z * Z * Z * Z) (p : plan) :
  p_current_id (add_img r p) = p_current_id p.
Proof. by destruct r as [[[[[? ?] ?] ?] ?] ?]. Qed.

Lemma p_current_id_add_define (e : string) (r : Z * Z * Z * Z * Z * Z) (p : plan) :
  p_current_id (add_define e r p) = p_current_id p.
Proof. by destruct r as [[[[[? ?] ?] ?] ?] ?]. Qed.

Lemma p_current_id_max_save (r : Z * Z * Z * Z * Z * Z) (p : plan) :
  p_current_id (max_save r p) = p_current_id p.
Proof. by destruct r as [[[[[? ?] ?] ?] ?] ?]. Qed.

Lemma p_current_id_max_sega (r : Z * Z * Z * Z * Z * Z) (p : plan) :
  p_current_id (max_sega r p) = p_current_id p.
Proof. by destruct r as [[[[[? ?] ?] ?] ?] ?]. Qed.

Ltac plan_id :=
  rewrite ?p_current_id_max_save, ?p_current_id_add_define, ?p_current_id_add_img,
    ?p_current_id_add_save_rom, ?p_current_id_max_sega, ?p_current_id_set;
  reflexivity.

(** One call of [generate_system] in [parse]: the identifier it is given
    is the one the previous call returned. *)
Ltac call_family :=
  eapply hoare_bind_inv;
    [apply hoare_generate_system_at; plan_id|];
  let r := fresh "r" in intros r; cbv beta.

Ltac ret_plan :=
  apply hoare_ret_inv; plan_id.

Lemma hoare_parse_systems (T : tools) (a : args) :
  hoare (run_inv 0) (parse_systems T a) (inv_post p_current_id).
Proof.
  unfold parse_systems.
  eapply hoare_bind_inv; [apply hoare_disk_inv|]. intros s0. cbv beta.
  call_family.
  eapply hoare_bind_inv; [apply hoare_disk_inv|]. intros []. cbv beta.
  call_family.
  eapply (hoare_bind_inv _ _ _ p_current_id).
  { destruct (_ >? 0); call_family; ret_plan. }
  intros p. cbv beta.
  do 8 call_family.
  eapply (hoare_bind_inv _ _ _ p_current_id).
  { destruct (_ >? 0); [|call_family; ret_plan].
    eapply hoare_bind_inv; [apply hoare_disk_inv|].
    intros [|]; [call_family; ret_plan|apply hoare_exit]. }
  intros p'. cbv beta.
  do 3 call_family. ret_plan.
Qed.

Lemma hoare_parse (T : tools) (a : args) :
  hoare (run_inv 0) (parse T a) (λ _ l, ∃ c, run_inv c l).
Proof.
  unfold parse.
  eapply (hoare_bind _ _ _ (λ p l, run_inv (p_current_id p) l)).
  - intros s l Hl. pose proof (hoare_parse_systems T a s l Hl) as H.
    by destruct ((parse_systems T a (s, l)).1).
  - intros p. apply hoare_disk. intros r l Hl. by exists (p_current_id p).
Qed.

(** Lines 1032-1034 on their own: every rom of the list, whatever its
    [publish] flag, takes the next identifier, in the order of the
    list. *)
Lemma for_each_assign (roms done : list ROM) (c : Z) (s : store) (l : log) :
  for_each_M (λ (acc : list ROM * Z) rom,
      let rom := set_rom_id rom acc.2 in
      _ ← record (log_id rom);
      mret (acc.1 ++ [rom], acc.2 + 1))
    (done, c) roms (s, l) =
  (Ok (done ++ imap (λ i rom, set_rom_id rom (c + Z.of_nat i)) roms, c + len roms),
   (s, Log (ids l ++ imap (λ i rom, set_rom_id rom (c + Z.of_nat i)) roms) (items l))).
Proof.
  revert done c l. induction roms as [|rom roms IH]; intros done c l.
  - simpl. unfold len. simpl. rewrite !app_nil_r, Z.add_0_r. by destruct l.
  - cbn [for_each_M]. unfold mbind at 1, M_bind at 1.
    cbn [fst snd]. unfold mbind at 1, M_bind at 1. unfold record at 1.
    cbn [fst snd]. unfold mret at 1, M_ret at 1.
    rewrite IH. unfold log_id. cbn [ids items imap].
    rewrite Z.add_0_r, <- !app_assoc. cbn [app].
    rewrite (imap_ext (λ i rom0, set_rom_id rom0 (c + 1 + Z.of_nat i))
                      ((λ i rom0, set_rom_id rom0 (c + Z.of_nat i)) ∘ S) roms).
    + do 3 f_equal. unfold len. simpl. lia.
    + intros i x _. simpl. f_equal. lia.
Qed.

(** ** The order of the families *)

Lemma numbers_only_ret (folder : string) {A} (x : A) : numbers_only folder (mret x : M A).
Proof. intros s l. exists []. by rewrite app_nil_r. Qed.

Lemma numbers_only_bind_val (folder : string) {A B} (R : A → Prop)
    (m : M A) (f : A → M B) :
  (∀ sl x sl', m sl = (Ok x, sl') → R x) →
  numbers_only folder m → (∀ x, R x → numbers_only folder (f x)) →
  numbers_only folder (m ≫= f).
Proof.
  intros HR Hm Hf s l. unfold mbind, M_bind.
  destruct (Hm s l) as (X1 & H1 & HX1).
  destruct (m (s, l)) as [[x|e] [s1 l1]] eqn:Hrun; cbn [fst snd] in *.
  - destruct (Hf x (HR _ _ _ Hrun) s1 l1) as (X2 & H2 & HX2).
    exists (X1 ++ X2). rewrite H2, H1, app_assoc. split; [done|]. by apply Forall_app.
  - by exists X1.
Qed.

Lemma numbers_only_bind (folder : string) {A B} (m : M A) (f : A → M B) :
  numbers_only folder m → (∀ x, numbers_only folder (f x)) →
  numbers_only folder (m ≫= f).
Proof. intros Hm Hf. apply (numbers_only_bind_val folder (λ _, True)); auto. Qed.

Lemma numbers_only_disk (folder : string) {A} (m : D A) : numbers_only folder (disk m).
Proof.
  intros s l. exists []. unfold disk. cbn [fst snd].
  destruct (m s) as [r s']. cbn [snd]. by rewrite app_nil_r.
Qed.

Lemma numbers_only_f_write (T : tools) (folder file : string) (it : item) :
  numbers_only folder (f_write T file it).
Proof.
  unfold f_write. apply numbers_only_bind; [apply numbers_only_disk|].
  intros [] s l. exists []. unfold record, log_item. cbn [fst snd ids].
  by rewrite app_nil_r.
Qed.

Lemma numbers_only_for_each_M (folder : string) {A B} (body : B → A → M B) (acc : B)
    (xs : list A) :
  (∀ acc x, numbers_only folder (body acc x)) →
  numbers_only folder (for_each_M body acc xs).
Proof.
  intros Hbody. revert acc. induction xs as [|x xs IH]; intros acc; simpl.
  - apply numbers_only_ret.
  - apply numbers_only_bind; [apply Hbody|]. intros acc'. apply IH.
Qed.

Lemma numbers_only_emit_rom (T : tools) (a : args) (folder' : string)
    (file system_name folder save_prefix : string) (cheat : option string)
    (w h : Z) (t : totals) (ir : Z * ROM) :
  numbers_only folder' (emit_rom T a file system_name folder save_prefix cheat w h t ir).
Proof.
  destruct ir as [i rom]. unfold emit_rom.
  destruct (negb (publish rom)); [apply numbers_only_ret|].
  apply numbers_only_bind; [apply numbers_only_disk|]. intros save_sz.
  apply numbers_only_bind; [apply numbers_only_disk|]. intros size.
  apply numbers_only_bind; [apply numbers_only_disk|]. intros img_size.
  apply numbers_only_bind; [apply numbers_only_disk|]. intros obj.
  apply numbers_only_bind; [apply numbers_only_f_write|]. intros [].
  apply numbers_only_bind.
  { destruct (negb _); [|apply numbers_only_ret].
    apply numbers_only_bind; [apply numbers_only_disk|].
    intros [it|]; [apply numbers_only_f_write|apply numbers_only_ret]. }
  intros []. apply numbers_only_bind.
  { destruct (enable_save rom); [apply numbers_only_f_write|apply numbers_only_ret]. }
  intros []. apply numbers_only_bind; [|intros; apply numbers_only_ret].
  destruct cheat as [p|]; [|apply numbers_only_ret].
  destruct (String.eqb p ""); [apply numbers_only_ret|apply numbers_only_f_write].
Qed.

Lemma rom_folder_strip_no_save (r : ROM) : rom_folder (strip_no_save r) = rom_folder r.
Proof. unfold strip_no_save. by destruct (endswith _ _). Qed.

Lemma find_roms_folder (T : tools) (a : args) (system_name folder extension : string)
    (defs : romdefs) (s s' : store) (found : list ROM) :
  find_roms T a system_name folder extension defs s = (Ok found, s') →
  Forall (λ r, rom_folder r = folder) found.
Proof.
  destruct (find_roms_spec T a system_name folder extension defs s) as (files & -> & _).
  destruct (roms s !! folder); [|done]. intros [= <- _].
  apply Forall_fmap, Forall_fmap, Forall_forall. intros f _. cbn.
  by rewrite rom_folder_strip_no_save.
Qed.

Lemma find_roms_of_folder (T : tools) (a : args) (system_name folder : string)
    (extensions : list string) (defs : romdefs) (s s' : store) (found : list ROM) :
  find_roms_of T a system_name folder extensions defs s = (Ok found, s') →
  Forall (λ r, rom_folder r = folder) found.
Proof.
  unfold find_roms_of.
  apply (for_each_inv (λ acc, Forall (λ r, rom_folder r = folder) acc)); [|done].
  intros acc e s1 acc' s1' Hacc H.
  apply D_bind_Ok in H as (found1 & s2 & Hfind & H). injection H as <- _.
  apply Forall_app. split; [done|]. by eapply find_roms_folder.
Qed.

Lemma find_cdk_disks_folder (T : tools) (a : args) (system_name folder : string)
    (defs : romdefs) (s s' : store) (found : list ROM) :
  find_cdk_disks T a system_name folder defs s = (Ok found, s') →
  Forall (λ r, rom_folder r = folder) found.
Proof.
  unfold find_cdk_disks. intros H.
  apply D_bind_Ok in H as (disks & s1 & Hfind & H). injection H as <- _.
  apply find_roms_folder in Hfind. apply Forall_fmap.
  eapply Forall_impl; [exact Hfind|]. intros r Hr. cbn.
  by rewrite rom_folder_strip_no_save.
Qed.

Lemma find_compressed_roms_folder (T : tools) (a : args) (system_name folder : string)
    (extensions : list string) (defs : romdefs) (compress : option string)
    (s s' : store) (found : list ROM) :
  find_compressed_roms T a system_name folder extensions defs compress s = (Ok found, s') →
  Forall (λ r, rom_folder r = folder) found.
Proof.
  unfold find_compressed_roms. destruct compress as [c|]; [|by intros [= <- _]].
  destruct (String.eqb c ""); [by intros [= <- _]|]. apply find_roms_of_folder.
Qed.

Lemma Forall_filter_keep {A} (P Q : A → Prop) `{!∀ x, Decision (Q x)} (l : list A) :
  Forall P l → Forall P (filter Q l).
Proof.
  rewrite !Forall_forall. intros HP x Hx. apply list_elem_of_filter in Hx as [_ Hx].
  by apply HP.
Qed.

(** Every rom of a family's list lies in the family's folder. *)
Lemma collect_roms_folder (T : tools) (a : args) (system_name variable_name folder : string)
    (extensions : list string) (defs : romdefs) (compress : option string) (speed : bool)
    (s s' : store) (rr : list ROM * list ROM) :
  collect_roms T a system_name variable_name folder extensions defs compress speed s =
    (Ok rr, s') →
  Forall (λ r, rom_folder r = folder) rr.1.
Proof.
  unfold collect_roms. intros H.
  apply D_bind_Ok in H as (roms_raw & s1 & Hraw & H).
  apply find_roms_of_folder in Hraw.
  apply D_bind_Ok in H as (cdk0 & s2 & Hcdk0 & H).
  apply find_cdk_disks_folder in Hcdk0.
  apply D_bind_Ok in H as (cdk & s3 & Hcdk & H).
  assert (Forall (λ r, rom_folder r = folder) cdk) as Hcdk'.
  { destruct (bool_decide _); [|by injection Hcdk as <- _].
    apply D_bind_Ok in Hcdk as ([] & s4 & _ & Hcdk).
    by eapply find_cdk_disks_folder. }
  apply D_bind_Ok in H as (packed0 & s5 & Hpacked0 & H).
  apply find_compressed_roms_folder in Hpacked0.
  apply D_bind_Ok in H as (packed & s6 & Hpacked & H).
  assert (Forall (λ r, rom_folder r = folder) packed) as Hpacked'.
  { destruct (_ && _); [|by injection Hpacked as <- _].
    apply D_bind_Ok in Hpacked as ([] & s7 & _ & Hpacked).
    by eapply find_compressed_roms_folder. }
  injection H as <- _. cbn [fst]. unfold merge_roms.
  apply Forall_app. split; [done|].
  apply Forall_filter_keep, Forall_filter_keep, Forall_app. split; [|done].
  by apply Forall_filter_keep.
Qed.

Lemma numbers_only_assign_ids (folder : string) (roms0 : list ROM) (c : Z) :
  Forall (λ r, rom_folder r = folder) roms0 →
  numbers_only folder (assign_ids roms0 c).
Proof.
  intros Hroms s l. unfold assign_ids. rewrite for_each_assign. cbn [fst snd ids].
  eexists. split; [done|].
  apply Forall_forall. intros r Hr. apply elem_of_lookup_imap in Hr as (i & r0 & -> & Hi).
  rewrite Forall_forall in Hroms. apply (Hroms r0). by eapply list_elem_of_lookup_2.
Qed.

(** A call of [generate_system] numbers roms of its folder only. *)
Lemma numbers_only_generate_system (T : tools) (a : args)
    (file system_name variable_name folder : string) (extensions : list string)
    (save_prefix : string) (defs : romdefs) (cheat : option string) (c : Z)
    (compress : option string) (speed : bool) :
  numbers_only folder
    (generate_system T a file system_name variable_name folder extensions
                     save_prefix defs cheat c compress speed).
Proof.
  unfold generate_system.
  apply numbers_only_bind; [apply numbers_only_disk|]. intros s0. cbv beta zeta.
  apply (numbers_only_bind_val folder
           (λ rr : list ROM * list ROM, Forall (λ r, rom_folder r = folder) rr.1)).
  { intros [s l] rr [s' l'] H. apply disk_Ok in H as [H _].
    by eapply collect_roms_folder. }
  { apply numbers_only_disk. }
  intros [roms0 roms_uncompressed] Hroms. cbn [fst] in Hroms. cbv beta.
  apply numbers_only_bind; [by apply numbers_only_assign_ids|]. intros [roms' c'].
  destruct (_ >? 18600); [apply numbers_only_disk|].
  apply numbers_only_bind; [apply numbers_only_disk|]. intros [].
  apply numbers_only_bind; [apply numbers_only_f_write|]. intros [].
  apply numbers_only_bind.
  { apply numbers_only_for_each_M. intros t ir. apply numbers_only_emit_rom. }
  intros t. apply numbers_only_bind; [apply numbers_only_disk|]. intros it.
  apply numbers_only_bind; [apply numbers_only_f_write|]. intros [].
  apply numbers_only_bind; [apply numbers_only_f_write|]. intros [].
  apply numbers_only_bind; [apply numbers_only_disk|]. intros larger.
  apply numbers_only_ret.
Qed.

Lemma families_in_order_app (k k' : nat) (l : log) (numbered : list ROM) (l' : log) :
  (k ≤ k')%nat →
  families_in_order k l →
  ids l' = ids l ++ numbered →
  Forall (λ r, family_rank (rom_folder r) = k') numbered →
  families_in_order k' l'.
Proof.
  intros Hk [Hsorted Hle] Hids Hnew. unfold families_in_order. rewrite Hids.
  assert (StronglySorted (λ r1 r2, (family_rank (rom_folder r1) ≤
                                    family_rank (rom_folder r2))%nat) numbered) as Hs.
  { clear Hids. induction Hnew as [|r rs Hr Hrs IH]; constructor; [done|].
    eapply Forall_impl; [exact Hrs|]. intros r' Hr'. cbv beta in *. lia. }
  split.
  - apply StronglySorted_app_2; [|done|done].
    intros r1 r2 H1 H2.
    rewrite Forall_forall in Hle, Hnew.
    specialize (Hle r1 H1). specialize (Hnew r2 H2). cbv beta in *. lia.
  - apply Forall_app. split.
    + eapply Forall_impl; [exact Hle|]. intros r Hr. cbv beta in *. lia.
    + eapply Forall_impl; [exact Hnew|]. intros r Hr. cbv beta in *. lia.
Qed.

Lemma families_in_order_mono (k k' : nat) (l : log) :
  (k ≤ k')%nat → families_in_order k l → families_in_order k' l.
Proof.
  intros Hk [Hsorted Hle]. split; [done|].
  eapply Forall_impl; [exact Hle|]. intros r Hr. cbv beta in *. lia.
Qed.

Lemma hoare_generate_system_order (T : tools) (a : args) (k k' : nat)
    (file system_name variable_name folder : string) (extensions : list string)
    (save_prefix : string) (defs : romdefs) (cheat : option string) (c : Z)
    (compress : option string) (speed : bool) :
  family_rank folder = k' → (k ≤ k')%nat →
  hoare (families_in_order k)
        (generate_system T a file system_name variable_name folder extensions
                         save_prefix defs cheat c compress speed)
        (λ _, families_in_order k').
Proof.
  intros Hrank Hk s l Hl.
  destruct (numbers_only_generate_system T a file system_name variable_name folder
              extensions save_prefix defs cheat c compress speed s l)
    as (numbered & Hids & Hnew).
  eapply families_in_order_app; [exact Hk|exact Hl|exact Hids|].
  eapply Forall_impl; [exact Hnew|]. intros r ->. exact Hrank.
Qed.

Lemma hoare_bind_order {A B} (k k' : nat) (m : M A) (f : A → M B) :
  hoare (families_in_order k) m (λ _, families_in_order k') →
  (k' ≤ 14)%nat →
  (∀ x, hoare (families_in_order k') (f x) (λ _, families_in_order 14)) →
  hoare (families_in_order k) (m ≫= f) (λ _, families_in_order 14).
Proof.
  intros Hm Hk Hf. eapply (hoare_bind _ _ _ (λ _, families_in_order k')); [|done].
  intros s l Hl. specialize (Hm s l Hl).
  destruct ((m (s, l)).1); [done|]. by eapply families_in_order_mono.
Qed.

Lemma hoare_disk_order {A} (k : nat) (m : D A) :
  hoare (families_in_order k) (disk m) (λ _, families_in_order k).
Proof. by apply hoare_disk. Qed.

Lemma hoare_ret_order {A} (k : nat) (x : A) :
  (k ≤ 14)%nat → hoare (families_in_order k) (mret x) (λ _, families_in_order 14).
Proof. intros Hk. apply hoare_ret. intros l. by apply families_in_order_mono. Qed.

Lemma hoare_bind_same {A B} (k k' : nat) (m : M A) (f : A → M B) :
  hoare (families_in_order k) m (λ _, families_in_order k') →
  (∀ x, hoare (families_in_order k') (f x) (λ _, families_in_order k')) →
  hoare (families_in_order k) (m ≫= f) (λ _, families_in_order k').
Proof.
  intros Hm Hf. eapply (hoare_bind _ _ _ (λ _, families_in_order k')); [|done].
  intros s l Hl. specialize (Hm s l Hl). by destruct ((m (s, l)).1).
Qed.

Lemma hoare_order_mono {A} (k k' k'' : nat) (m : M A) :
  (k' ≤ k'')%nat →
  hoare (families_in_order k) m (λ _, families_in_order k') →
  hoare (families_in_order k) m (λ _, families_in_order k'').
Proof.
  intros Hk Hm s l Hl. eapply families_in_order_mono; [exact Hk|]. by apply Hm.
Qed.

Ltac call_family_order :=
  eapply hoare_bind_order;
    [apply hoare_generate_system_order; [vm_compute; reflexivity|lia]|lia|];
  let r := fresh "r" in intros r; cbv beta.

Ltac call_family_ret :=
  eapply hoare_bind_same;
    [apply hoare_generate_system_order; [vm_compute; reflexivity|lia]
    |intros; by apply hoare_ret].

Lemma hoare_parse_systems_order (T : tools) (a : args) :
  hoare (families_in_order 0) (parse_systems T a) (λ _, families_in_order 14).
Proof.
  unfold parse_systems.
  eapply hoare_bind_order; [apply hoare_disk_order|lia|]. intros s0. cbv beta.
  call_family_order.
  eapply hoare_bind_order; [apply hoare_disk_order|lia|]. intros []. cbv beta.
  call_family_order.
  eapply (hoare_bind_order _ 2); [|lia|].
  { destruct (_ >? 0); call_family_ret. }
  intros p. cbv beta.
  do 8 call_family_order.
  eapply (hoare_bind_order _ 11); [|lia|].
  { destruct (_ >? 0); [|call_family_ret].
    eapply hoare_bind_same;
      [eapply hoare_order_mono; [|apply hoare_disk_order]; lia|].
    intros [|]; [|apply hoare_disk_order].
    eapply hoare_bind_same; [|intros; by apply hoare_ret].
    apply hoare_generate_system_order; [vm_compute; reflexivity|lia]. }
  intros p'. cbv beta.
  do 3 call_family_order. by apply hoare_ret_order.
Qed.

Lemma hoare_parse_order (T : tools) (a : args) :
  hoare (families_in_order 0) (parse T a) (λ _, families_in_order 14).
Proof.
  unfold parse. eapply hoare_bind_order; [apply hoare_parse_systems_order|lia|].
  intros p. apply hoare_disk_order.
Qed.

(** C4, as amended.  Over a whole run of [parse], from any disk, with
    any command line and any external tools, and whether the run
    completes or exits early: the identifiers handed out are exactly
    0, 1, 2, ... in the order of assignment; the roms are numbered
    family by family, the families in the fixed order of [parse] (the
    order of [family_folders]); and every object declaration, cover
    image, cheat table and descriptor-table row written concerns a
    published rom.  The numbering itself makes no test of [publish]: in
    each family [assign_ids] gives every rom of the family's list the
    next identifier, in the order of the list. *)
Theorem identifiers_contiguous (T : tools) (a : args) (s : store) :
  let l := (parse T a (s, log0)).2.2 in
  (assigned_ids l = seqZ 0 (len (ids l)) ∧ items_published l) ∧
  StronglySorted (λ r1 r2, (family_rank (rom_folder r1) ≤
                            family_rank (rom_folder r2))%nat) (ids l) ∧
  ∀ roms c s0 l0,
    let numbered := imap (λ i rom, set_rom_id rom (c + Z.of_nat i)) roms in
    assign_ids roms c (s0, l0) =
    (Ok (numbered, c + len roms), (s0, Log (ids l0 ++ numbered) (items l0))).
Proof.
  split.
  - assert (run_inv 0 log0) as H0.
    { split; [by split|]. by intros file it rom Hin%elem_of_nil. }
    destruct (hoare_parse T a s log0 H0) as (c & [Hids Hc] & Hpub).
    split; [|exact Hpub].
    rewrite Hids. f_equal. unfold len.
    rewrite <- (length_fmap rom_id (ids _)). fold (assigned_ids (parse T a (s, log0)).2.2).
    rewrite Hids, length_seqZ. lia.
  - split; [|intros roms c s0 l0; apply (for_each_assign roms [] c s0 l0)].
    apply (hoare_parse_order T a s log0). split; constructor.
Qed.

(** C4, as stated, fails where it says that an unpublished image takes
    no identifier, and where it says that the images of a family are
    taken in alphabetical order: in this run, which completes, [a.gbc]
    is not published and takes identifier 1, after [b.gb], because the
    extension [gb] is searched before [gbc]; no item is written for
    [a.gbc], and the next family starts at 2. *)
Lemma unpublished_rom_takes_identifier :
  let run := parse sample_tools default_args (unpublished_store, log0) in
  run.1 = Ok () ∧
  (λ r, (rom_file r, publish r, rom_id r)) <$> ids run.2.2 =
  [("b.gb", true, 0); ("a.gbc", false, 1); ("c.nes", true, 2)]%string.
Proof. vm_compute. by split. Qed.

(** ** The compression step on one rom *)

Lemma registry_dot_lzma (T : tools) (a : args) :
  registry T a !! ".lzma"%string =
  Some (compress_lzma (lzma_alone T) (compress_gb_speed a)).
Proof. unfold registry, COMPRESSIONS. apply lookup_insert_eq. Qed.

Lemma in_registry_spec (T : tools) (a : args) (method : string) :
  in_registry T a method = true ↔ method = "lzma"%string ∨ method = ".lzma"%string.
Proof.
  unfold in_registry, registry, COMPRESSIONS. rewrite bool_decide_eq_true. split.
  - intros [c Hc].
    apply lookup_insert_Some in Hc as [[<- _]|[_ Hc]]; [by right|].
    apply lookup_insert_Some in Hc as [[<- _]|[_ Hc]]; [by left|].
    by rewrite lookup_empty in Hc.
  - intros [-> | ->]; eexists.
    + rewrite lookup_insert_ne by done. apply lookup_insert_eq.
    + apply lookup_insert_eq.
Qed.

(** A published rom and a registered method: what is left of
    [_compress_rom] is the read of the rom and the branch of its
    family, with the codec and the output name the method selects. *)
Lemma _compress_rom_registered (T : tools) (a : args) (variable_name method : string)
    (rom : ROM) (speed : bool) (s : store) :
  publish rom = true → in_registry T a method = true →
  _compress_rom T a variable_name rom speed (Some method) s =
  (data ← read_rom (rom_folder rom) (rom_file rom);
   match select_branch variable_name with
   | BrCapped cap =>
       size ← rom_size rom;
       if size >? cap then mret ()
       else
         compressed_data ←
           lift (compress_lzma (lzma_alone T) (compress_gb_speed a) data LevelNone);
         write_rom (rom_folder rom) (rom_file rom ++ ".lzma") compressed_data
   | BrSms =>
       output_data ←
         lift (sms_container module_pack
                 (compress_lzma (lzma_alone T) (compress_gb_speed a)) data);
       write_rom (rom_folder rom) (rom_file rom ++ ".lzma") output_data
   | BrGb =>
       output_data ←
         lift (gb_container (compress_lzma (lzma_alone T) (compress_gb_speed a))
                            compression_credit speed data);
       write_rom (rom_folder rom) (rom_file rom ++ ".lzma") output_data
   | BrNone => mret ()
   end) s.
Proof.
  intros Hpub Hreg. unfold _compress_rom. rewrite Hpub. cbn [negb from_option id default].
  rewrite Hreg. cbn [negb].
  apply in_registry_spec in Hreg as [-> | ->]; cbn [startswith String.prefix];
    change ("." ++ "lzma")%string with ".lzma"%string;
    rewrite registry_dot_lzma; reflexivity.
Qed.

Lemma write_rom_frame (folder file_name : string) (data : bytes) (s : store) :
  outs (write_rom folder file_name data s).2 = outs s ∧
  roms_json (write_rom folder file_name data s).2 = roms_json s ∧
  jsons (write_rom folder file_name data s).2 = jsons s ∧
  ∀ folder' file_name',
    (folder', file_name') ≠ (folder, file_name) →
    rom_lookup folder' file_name' (write_rom folder file_name data s).2 =
    rom_lookup folder' file_name' s.
Proof.
  unfold write_rom. destruct (roms s !! folder) as [dir|] eqn:Hdir; [|done].
  split; [done|]. split; [done|]. split; [done|].
  intros folder' file_name' Hne. unfold rom_lookup. cbn [snd tick set_roms roms].
  destruct (decide (folder' = folder)) as [->|Hf].
  - rewrite lookup_insert_eq, Hdir. cbn [mbind option_bind].
    rewrite lookup_insert_ne; [done|]. by intros <-.
  - by rewrite lookup_insert_ne.
Qed.

Lemma write_rom_lookup (folder file_name : string) (data : bytes) (s : store) :
  is_Some (roms s !! folder) →
  ∃ s', write_rom folder file_name data s = (Ok (), s') ∧
        f_data <$> rom_lookup folder file_name s' = Some data.
Proof.
  intros [dir Hdir]. unfold write_rom. rewrite Hdir. eexists. split; [done|].
  unfold rom_lookup. cbn [tick set_roms roms].
  rewrite lookup_insert_eq. cbn [mbind option_bind]. by rewrite lookup_insert_eq.
Qed.

Lemma string_app_ne (s t : string) : t ≠ ""%string → (s ++ t)%string ≠ s.
Proof.
  intros Ht. induction s as [|c s IH]; [done|].
  intros [= H]. by apply IH.
Qed.

(** ** Bank 0 of the files written *)



(** ** The sentinel in a run *)

(** What decides whether the 16 KiB branch reaches its reassembly: the
    choice of the banks to keep compressed. *)
Lemma gb_container_speed_NotImplementedError (lzma : bytes → bytes) (credit : Z)
    (data : bytes) (its : list bool) :
  gb_compress_its credit true (split_banks 16384 data)
    ((λ bank, drop 13 (lzma bank)) <$> split_banks 16384 data) = Ok its →
  gb_container (compress_lzma lzma true) credit true data = Raise NotImplementedError.
Proof.
  intros Hits. unfold gb_container.
  rewrite (mapM_Ok _ (λ bank, drop 13 (lzma bank))) by done. cbn [mbind result_bind].
  rewrite Hits. cbn [mbind result_bind].
  apply gb_compress_its_head in Hits as (its' & -> & _ & Hb); [|by rewrite length_fmap].
  destruct (split_banks 16384 data) as [|bank banks]; done.
Qed.

(** C6: the code where the claim fails.  With [--compress_gb_speed]
    the sentinel call raises [NotImplementedError] instead of returning
    the bank, whatever the bank; the 16 KiB branch stores bank 0 through
    the sentinel, so with that flag it raises as soon as the banks to
    keep compressed are chosen, and a run with [--compress lzma
    --compress_gb_speed] on a Game Boy rom of two banks stops there. *)
Theorem sentinel_raises_with_speed_flag :
  (∀ (lzma : bytes → bytes) (data : bytes),
     compress_lzma lzma true data DONT_COMPRESS = Raise NotImplementedError) ∧
  (∀ (lzma : bytes → bytes) (credit : Z) (data : bytes) (its : list bool),
     gb_compress_its credit true (split_banks 16384 data)
       ((λ bank, drop 13 (lzma bank)) <$> split_banks 16384 data) = Ok its →
     gb_container (compress_lzma lzma true) credit true data =
       Raise NotImplementedError) ∧
  (parse sample_tools lzma_speed_args
     (sample_store [("gb", [("a.gb", zeros 16484)])]%string [] None, log0)).1 =
    Raise NotImplementedError ∧
  (parse sample_tools lzma_args
     (sample_store [("gb", [("a.gb", zeros 16484)])]%string [] None, log0)).1 = Ok ().
Proof.
  split; [done|]. split; [apply gb_container_speed_NotImplementedError|].
  split; vm_compute; reflexivity.
Qed.

(** * Further properties *)

(** ** Splitting an image into banks *)

Lemma split_banks_unfold (BANK_SIZE : Z) (data : bytes) :
  0 < BANK_SIZE → data ≠ [] →
  split_banks BANK_SIZE data =
  take (Z.to_nat BANK_SIZE) data :: split_banks BANK_SIZE (drop (Z.to_nat BANK_SIZE) data).
Proof.
  intros HB Hd. unfold split_banks, py_range_step.
  assert (0 < len data) as Hl.
  { unfold len. destruct data; [done|]. simpl. lia. }
  assert (len (drop (Z.to_nat BANK_SIZE) data) = Z.max 0 (len data - BANK_SIZE)) as Hdrop.
  { unfold len. rewrite length_drop. lia. }
  assert ((len data + BANK_SIZE - 1) / BANK_SIZE =
          (len (drop (Z.to_nat BANK_SIZE) data) + BANK_SIZE - 1) / BANK_SIZE + 1) as Hq.
  { rewrite Hdrop. destruct (Z.le_gt_cases (len data) BANK_SIZE).
    - rewrite Z.max_l by lia.
      replace (len data + BANK_SIZE - 1) with (len data - 1 + 1 * BANK_SIZE) by lia.
      rewrite Z.div_add by lia. rewrite !Z.div_small by lia. done.
    - rewrite Z.max_r by lia.
      replace (len data + BANK_SIZE - 1)
        with (len data - BANK_SIZE + BANK_SIZE - 1 + 1 * BANK_SIZE) by lia.
      rewrite Z.div_add by lia. done. }
  rewrite Hq.
  assert (0 ≤ (len (drop (Z.to_nat BANK_SIZE) data) + BANK_SIZE - 1) / BANK_SIZE) as Hnn.
  { apply Z.div_pos; [|lia]. pose proof (len_nonneg (drop (Z.to_nat BANK_SIZE) data)). lia. }
  rewrite Z2Nat.inj_add by lia.
  change (Z.to_nat 1) with 1%nat. rewrite Nat.add_1_r. cbn [seq]. rewrite !fmap_cons.
  f_equal.
  - unfold py_slice. replace (Z.of_nat 0 * BANK_SIZE) with 0 by lia.
    by replace (0 + BANK_SIZE - 0) with BANK_SIZE by lia.
  - rewrite <- fmap_S_seq, <- !list_fmap_compose. apply list_fmap_ext.
    intros i k _. simpl. unfold py_slice. rewrite drop_drop. f_equal; [lia|].
    f_equal. lia.
Qed.

(** Lines 836 and 856, the list comprehension that cuts an image into
    banks: the banks put end to end give the image back, no bank is
    empty or longer than the bank size, every bank but the last is a
    full bank, and there are as many banks as the size of the image
    divided by the bank size, rounded up. *)
Theorem split_banks_partition (BANK_SIZE : Z) (data : bytes) :
  0 < BANK_SIZE →
  concat (split_banks BANK_SIZE data) = data ∧
  Forall (λ bank, 0 < len bank ≤ BANK_SIZE) (split_banks BANK_SIZE data) ∧
  (∀ (i : nat) bank,
     split_banks BANK_SIZE data !! i = Some bank →
     (S i < length (split_banks BANK_SIZE data))%nat → len bank = BANK_SIZE) ∧
  len (split_banks BANK_SIZE data) = (len data + BANK_SIZE - 1) / BANK_SIZE.
Proof.
  intros HB.
  assert (len (split_banks BANK_SIZE data) = (len data + BANK_SIZE - 1) / BANK_SIZE)
    as Hcount.
  { unfold split_banks, py_range_step, len at 1.
    rewrite !length_fmap, length_seq. pose proof (len_nonneg data).
    rewrite Z2Nat.id; [done|]. apply Z.div_pos; lia. }
  split; [|split; [|split; [|exact Hcount]]]; clear Hcount.
  - remember (length data) as n eqn:Hn. revert data Hn.
    induction (lt_wf n) as [n _ IH]. intros data ->.
    destruct data as [|b data]; [by destruct (split_banks_nil BANK_SIZE) as [->|]; [|lia]|].
    rewrite split_banks_unfold by done. cbn [concat].
    rewrite (IH (length (drop (Z.to_nat BANK_SIZE) (b :: data)))); [apply take_drop| |done].
    rewrite length_drop. simpl. lia.
  - remember (length data) as n eqn:Hn. revert data Hn.
    induction (lt_wf n) as [n _ IH]. intros data ->.
    destruct data as [|b data].
    { destruct (split_banks_nil BANK_SIZE) as [->|]; [constructor|lia]. }
    rewrite split_banks_unfold by done. constructor.
    + unfold len. rewrite length_take. simpl length. lia.
    + apply (IH (length (drop (Z.to_nat BANK_SIZE) (b :: data)))); [|done].
      rewrite length_drop. simpl. lia.
  - remember (length data) as n eqn:Hn. revert data Hn.
    induction (lt_wf n) as [n _ IH]. intros data -> i bank.
    destruct data as [|b data].
    { destruct (split_banks_nil BANK_SIZE) as [->|]; [done|lia]. }
    rewrite split_banks_unfold by done.
    destruct i as [|i]; cbn [lookup list_lookup length].
    + intros [= <-] Hlt.
      destruct (drop (Z.to_nat BANK_SIZE) (b :: data)) as [|b' rest] eqn:Hdrop.
      { destruct (split_banks_nil BANK_SIZE) as [Hnil|]; [|lia].
        rewrite Hnil in Hlt. simpl in Hlt. lia. }
      assert (length (drop (Z.to_nat BANK_SIZE) (b :: data)) ≠ 0%nat) as Hne
        by (by rewrite Hdrop).
      rewrite length_drop in Hne. unfold len. rewrite length_take. lia.
    + intros Hi Hlt.
      eapply (IH (length (drop (Z.to_nat BANK_SIZE) (b :: data)))); [|done|exact Hi|lia].
      rewrite length_drop. simpl. lia.
Qed.

Lemma split_banks_partition_witness :
  let data := ["a"; "b"; "c"]%byte in
  0 < 2 ∧
  concat (split_banks 2 data) = data ∧
  Forall (λ bank, 0 < len bank ≤ 2) (split_banks 2 data) ∧
  (∀ (i : nat) bank,
     split_banks 2 data !! i = Some bank →
     (S i < length (split_banks 2 data))%nat → len bank = 2) ∧
  len (split_banks 2 data) = (len data + 2 - 1) / 2.
Proof.
  split; [reflexivity|]. apply (split_banks_partition 2 ["a"; "b"; "c"]%byte). reflexivity.
Defined.

(** ** What the compression step writes and leaves alone *)

(** Lines 767-776.  [_compress_rom] on a published rom accepts the
    methods [lzma] and [.lzma] and no other: with any other method, and
    with the method left out, which stands for [lz4], it raises
    [ValueError] before it reads the rom, and the disk is as it was. *)
Theorem _compress_rom_unknown_method (T : tools) (a : args) (variable_name : string)
    (rom : ROM) (speed : bool) (compress : option string) (s : store) :
  publish rom = true →
  compress ≠ Some "lzma"%string → compress ≠ Some ".lzma"%string →
  _compress_rom T a variable_name rom speed compress s = (Raise ValueError, s).
Proof.
  intros Hpub H1 H2. unfold _compress_rom. rewrite Hpub. cbn [negb].
  assert (in_registry T a (default "lz4"%string compress) = false) as Hreg.
  { apply not_true_is_false. rewrite in_registry_spec.
    destruct compress as [m|]; cbn [default from_option id]; [|by intros [|]].
    intros [-> | ->]; done. }
  by rewrite Hreg.
Qed.

Lemma _compress_rom_unknown_method_witness :
  let rom := ROM_init sample_tools default_args "Game & Watch" "gw" "ball.gw" "gw" empty_romdefs in
  let s := sample_store [("gw", [("ball.gw", zeros 3)])]%string [] None in
  (publish rom = true ∧ None ≠ Some "lzma"%string ∧ None ≠ Some ".lzma"%string) ∧
  _compress_rom sample_tools default_args "gw_system" rom false None s =
  (Raise ValueError, s).
Proof.
  cbv zeta. split; [split; [reflexivity|split; discriminate]|].
  apply _compress_rom_unknown_method; [reflexivity|discriminate|discriminate].
Defined.

Lemma _compress_rom_keeps_others (T : tools) (a : args) (variable_name : string)
    (rom : ROM) (speed : bool) (compress : option string) (s : store) :
  outs (_compress_rom T a variable_name rom speed compress s).2 = outs s ∧
  roms_json (_compress_rom T a variable_name rom speed compress s).2 = roms_json s ∧
  jsons (_compress_rom T a variable_name rom speed compress s).2 = jsons s ∧
  ∀ folder file_name,
    (folder, file_name) ≠ (rom_folder rom, (rom_file rom ++ ".lzma")%string) →
    rom_lookup folder file_name (_compress_rom T a variable_name rom speed compress s).2 =
    rom_lookup folder file_name s.
Proof.
  destruct (publish rom) eqn:Hpub; [|unfold _compress_rom; by rewrite Hpub].
  destruct (in_registry T a (default "lz4"%string compress)) eqn:Hreg;
    [|unfold _compress_rom; by rewrite Hpub, Hreg].
  destruct compress as [method|];
    [|apply in_registry_spec in Hreg as [Hr|Hr]; discriminate Hr].
  cbn [default from_option id] in Hreg.
  rewrite _compress_rom_registered by done.
  unfold mbind, mret, D_bind, D_ret, read_rom, rom_size, stat_size, lift.
  destruct (rom_lookup (rom_folder rom) (rom_file rom) s) as [f|] eqn:Hf; [|done].
  destruct (select_branch variable_name) as [cap| | |]; cbv beta iota; [| | |done].
  - rewrite Hf. destruct (len (f_data f) >? cap); [done|].
    cbn [compress_lzma]. apply write_rom_frame.
  - destruct (sms_container _ _ _); [apply write_rom_frame|done].
  - destruct (gb_container _ _ _ _); [apply write_rom_frame|done].
Qed.

Lemma _compress_rom_keeps_raw (T : tools) (a : args) (variable_name : string)
    (rom : ROM) (speed : bool) (compress : option string) (s : store) :
  rom_lookup (rom_folder rom) (rom_file rom)
             (_compress_rom T a variable_name rom speed compress s).2 =
  rom_lookup (rom_folder rom) (rom_file rom) s.
Proof.
  apply _compress_rom_keeps_others.
  intros [= H]. symmetry in H. by apply string_app_ne in H.
Qed.

(** Lines 767-903.  Whatever the family, the method and the rom,
    [_compress_rom] leaves alone every file but [<rom>.lzma] in the
    rom's folder, which is the only file it may create or overwrite: the
    rom itself, the other roms, the other folders and the files outside
    [roms/] are as they were, also when it raises. *)
Theorem _compress_rom_frame (T : tools) (a : args) (variable_name : string)
    (rom : ROM) (speed : bool) (compress : option string) (s : store) :
  let s' := (_compress_rom T a variable_name rom speed compress s).2 in
  outs s' = outs s ∧ roms_json s' = roms_json s ∧ jsons s' = jsons s ∧
  rom_lookup (rom_folder rom) (rom_file rom) s' =
    rom_lookup (rom_folder rom) (rom_file rom) s ∧
  ∀ folder file_name,
    (folder, file_name) ≠ (rom_folder rom, (rom_file rom ++ ".lzma")%string) →
    rom_lookup folder file_name s' = rom_lookup folder file_name s.
Proof.
  cbv zeta.
  destruct (_compress_rom_keeps_others T a variable_name rom speed compress s)
    as (H1 & H2 & H3 & H4).
  split; [done|]. split; [done|]. split; [done|]. split; [|done].
  apply _compress_rom_keeps_raw.
Qed.

(** Lines 783-832, the reverse of the skip.  A published rom of a family
    with a compressible-size cap whose file is no larger than the cap:
    [_compress_rom] returns normally, [<rom>.lzma] then holds the
    encoder's output for the rom's bytes without its first 13 bytes,
    and the rom itself is still there. *)
Theorem _compress_rom_within_cap (T : tools) (a : args) (variable_name method : string)
    (cap : Z) (rom : ROM) (speed : bool) (s : store) (f : file) :
  publish rom = true →
  in_registry T a method = true →
  select_branch variable_name = BrCapped cap →
  rom_lookup (rom_folder rom) (rom_file rom) s = Some f →
  len (f_data f) ≤ cap →
  ∃ s', _compress_rom T a variable_name rom speed (Some method) s = (Ok (), s') ∧
        f_data <$> rom_lookup (rom_folder rom) (rom_file rom ++ ".lzma") s' =
          Some (drop 13 (lzma_alone T (f_data f))) ∧
        rom_lookup (rom_folder rom) (rom_file rom) s' = Some f.
Proof.
  intros Hpub Hreg Hbr Hf Hcap.
  pose proof (_compress_rom_keeps_raw T a variable_name rom speed (Some method) s)
    as Hraw.
  rewrite Hf in Hraw. revert Hraw.
  rewrite _compress_rom_registered by done.
  unfold mbind, D_bind, read_rom, rom_size, stat_size, lift. rewrite Hf, Hbr, Hf.
  destruct (Z.gtb_spec (len (f_data f)) cap); [lia|]. cbn [compress_lzma].
  destruct (write_rom_lookup (rom_folder rom) (rom_file rom ++ ".lzma")
              (drop 13 (lzma_alone T (f_data f))) s) as (s' & -> & Hs').
  { unfold rom_lookup in Hf. destruct (roms s !! rom_folder rom); [by eexists|done]. }
  intros Hraw. by exists s'.
Qed.

Lemma _compress_rom_within_cap_witness :
  let s := sample_store [("col", [("small.col", zeros 3)])]%string [] None in
  let rom := ROM_init sample_tools lzma_args "Colecovision" "col" "small.col" "col" empty_romdefs in
  let f := File (zeros 3) 0 in
  (publish rom = true ∧
   in_registry sample_tools lzma_args "lzma" = true ∧
   select_branch "col_system" = BrCapped MAX_COMPRESSED_SG_COL_SIZE ∧
   rom_lookup (rom_folder rom) (rom_file rom) s = Some f ∧
   len (f_data f) ≤ MAX_COMPRESSED_SG_COL_SIZE) ∧
  ∃ s', _compress_rom sample_tools lzma_args "col_system" rom false (Some "lzma"%string) s =
          (Ok (), s') ∧
        f_data <$> rom_lookup (rom_folder rom) (rom_file rom ++ ".lzma") s' =
          Some (drop 13 (lzma_alone sample_tools (f_data f))) ∧
        rom_lookup (rom_folder rom) (rom_file rom) s' = Some f.
Proof.
  cbv zeta.
  assert (publish (ROM_init sample_tools lzma_args "Colecovision" "col" "small.col"
                            "col" empty_romdefs) = true) as H1 by (by vm_compute).
  assert (in_registry sample_tools lzma_args "lzma" = true) as H2 by (by vm_compute).
  assert (select_branch "col_system" = BrCapped MAX_COMPRESSED_SG_COL_SIZE) as H3
    by (by vm_compute).
  assert (rom_lookup "col" "small.col"
            (sample_store [("col", [("small.col", zeros 3)])]%string [] None) =
          Some (File (zeros 3) 0)) as H4 by (by vm_compute).
  assert (len (f_data (File (zeros 3) 0)) ≤ MAX_COMPRESSED_SG_COL_SIZE) as H5
    by (by vm_compute).
  split; [split; [exact H1|split; [exact H2|split; [exact H3|split; [exact H4|exact H5]]]]|].
  exact (_compress_rom_within_cap sample_tools lzma_args "col_system" "lzma"
           MAX_COMPRESSED_SG_COL_SIZE _ false _ _ H1 H2 H3 H4 H5).
Defined.

(** Lines 855-863.  A rom file of no bytes in the 16 KiB family: the
    image has no bank, [compress_its] is the empty list, and the
    assignment [compress_its[0] = False] raises [IndexError], with or
    without the speed flag and whatever the codec does; so the
    compression step on a published, empty Game Boy rom raises and
    writes nothing. *)
Theorem empty_gb_rom_raises_IndexError (T : tools) (a : args)
    (variable_name method : string) (rom : ROM) (speed : bool) (s : store) (f : file) :
  publish rom = true →
  in_registry T a method = true →
  select_branch variable_name = BrGb →
  rom_lookup (rom_folder rom) (rom_file rom) s = Some f →
  f_data f = [] →
  (∀ (compress : codec) credit,
     gb_container compress credit speed [] = Raise IndexError) ∧
  _compress_rom T a variable_name rom speed (Some method) s = (Raise IndexError, s).
Proof.
  intros Hpub Hreg Hbr Hf Hdata.
  assert (∀ (compress : codec) credit,
            gb_container compress credit speed [] = Raise IndexError) as Hgb
    by (intros compress credit; reflexivity).
  split; [exact Hgb|].
  rewrite _compress_rom_registered by done.
  unfold mbind, D_bind, read_rom, lift. rewrite Hf, Hbr, Hdata, Hgb. done.
Qed.

Lemma empty_gb_rom_raises_IndexError_witness :
  let s := sample_store [("gb", [("empty.gb", [])])]%string [] None in
  let rom := ROM_init sample_tools lzma_args "Nintendo Gameboy" "gb" "empty.gb" "gb" empty_romdefs in
  let f := File [] 0 in
  (publish rom = true ∧
   in_registry sample_tools lzma_args "lzma" = true ∧
   select_branch "gb_system" = BrGb ∧
   rom_lookup (rom_folder rom) (rom_file rom) s = Some f ∧
   f_data f = []) ∧
  (∀ (compress : codec) credit,
     gb_container compress credit false [] = Raise IndexError) ∧
  _compress_rom sample_tools lzma_args "gb_system" rom false (Some "lzma"%string) s =
    (Raise IndexError, s).
Proof.
  cbv zeta.
  assert (publish (ROM_init sample_tools lzma_args "Nintendo Gameboy" "gb" "empty.gb"
                            "gb" empty_romdefs) = true) as H1 by (by vm_compute).
  assert (in_registry sample_tools lzma_args "lzma" = true) as H2 by (by vm_compute).
  assert (select_branch "gb_system" = BrGb) as H3 by (by vm_compute).
  assert (rom_lookup "gb" "empty.gb"
            (sample_store [("gb", [("empty.gb", [])])]%string [] None) =
          Some (File [] 0)) as H4 by (by vm_compute).
  split; [split; [exact H1|split; [exact H2|split; [exact H3|split; [exact H4|reflexivity]]]]|].
  exact (empty_gb_rom_raises_IndexError sample_tools lzma_args "gb_system" "lzma"
           _ false _ _ H1 H2 H3 H4 eq_refl).
Defined.

(** ** Save sizes of the Game Boy family *)

Lemma Z_of_byte_range (b : byte) : 0 ≤ Z_of_byte b < 256.
Proof.
  unfold Z_of_byte. pose proof (Byte.to_N_bounded b) as H. lia.
Qed.

(** Lines 723-755.  When the file read holds the cartridge header, at
    least [0x14A] bytes, and its RAM-size byte at [0x149] is below 6,
    [get_gameboy_save_size] returns a size between 28672 and 184320
    that is a multiple of 4096, so that the rounding up to 4 KiB in
    [generate_system] leaves it as it is; the disk is not touched. *)
Theorem get_gameboy_save_size_aligned (T : tools) (a : args) (folder file_name : string)
    (s : store) (f : file) (ram : byte) :
  rom_lookup folder (uncompressed_file T a file_name) s = Some f →
  f_data f !! 0x149%nat = Some ram →
  Z_of_byte ram < 6 →
  ∃ n, get_gameboy_save_size T a folder file_name s = (Ok n, s) ∧
       28672 ≤ n ≤ 184320 ∧
       (n + 4 * 1024 - 1) / (4 * 1024) * (4 * 1024) = n.
Proof.
  intros Hf Hram Hlt. unfold get_gameboy_save_size, mbind, D_bind, read_rom.
  rewrite Hf. cbv beta iota.
  destruct (f_data f !! 323%nat) as [cgb|] eqn:Hcgb.
  2: { apply lookup_ge_None in Hcgb. apply lookup_lt_Some in Hram. lia. }
  rewrite Hram. unfold lift, mret, D_ret.
  pose proof (Z_of_byte_range ram) as Hr.
  assert (∃ k, py_getitem [1; 1; 1; 4; 16; 8] (Z_of_byte ram) = Ok k ∧
               (k = 1 ∨ k = 4 ∨ k = 16 ∨ k = 8)) as (k & -> & Hk).
  { assert (Z_of_byte ram = 0 ∨ Z_of_byte ram = 1 ∨ Z_of_byte ram = 2 ∨
            Z_of_byte ram = 3 ∨ Z_of_byte ram = 4 ∨ Z_of_byte ram = 5) as Hc by lia.
    destruct Hc as [->|[->|[->|[->|[->| ->]]]]]; eexists; (split; [reflexivity|lia]). }
  eexists. split; [reflexivity|].
  destruct (negb _ || _);
    destruct Hk as [->|[->|[->| ->]]]; (split; [lia|reflexivity]).
Qed.

Lemma get_gameboy_save_size_aligned_witness :
  let s := sample_store [("gb", [("a.gb", zeros 400)])]%string [] None in
  let f := File (zeros 400) 0 in
  (rom_lookup "gb" (uncompressed_file sample_tools default_args "a.gb") s = Some f ∧
   f_data f !! 0x149%nat = Some "000"%byte ∧
   Z_of_byte "000" < 6) ∧
  ∃ n, get_gameboy_save_size sample_tools default_args "gb" "a.gb" s = (Ok n, s) ∧
       28672 ≤ n ≤ 184320 ∧
       (n + 4 * 1024 - 1) / (4 * 1024) * (4 * 1024) = n.
Proof.
  cbv zeta.
  assert (rom_lookup "gb" (uncompressed_file sample_tools default_args "a.gb")
            (sample_store [("gb", [("a.gb", zeros 400)])]%string [] None) =
          Some (File (zeros 400) 0)) as H1 by (by vm_compute).
  assert (f_data (File (zeros 400) 0) !! 0x149%nat = Some "000"%byte) as H2
    by (by vm_compute).
  assert (Z_of_byte "000" < 6) as H3 by (by vm_compute).
  split; [split; [exact H1|split; [exact H2|exact H3]]|].
  exact (get_gameboy_save_size_aligned sample_tools default_args "gb" "a.gb" _ _ _ H1 H2 H3).
Defined.

(** Lines 723-755, the ways [get_gameboy_save_size] fails, none of
    which touches the disk: the file to read is missing
    ([FileNotFoundError]); it stops before the header byte at [0x149],
    so that [ord] gets an empty read ([TypeError]); or its RAM-size
    byte is 6 or more, past the end of the six-entry table
    ([IndexError]). *)
Theorem get_gameboy_save_size_errors (T : tools) (a : args) (folder file_name : string)
    (s : store) :
  let r := get_gameboy_save_size T a folder file_name s in
  r.2 = s ∧
  (rom_lookup folder (uncompressed_file T a file_name) s = None →
   r.1 = Raise FileNotFoundError) ∧
  (∀ f, rom_lookup folder (uncompressed_file T a file_name) s = Some f →
        len (f_data f) ≤ 0x149 → r.1 = Raise TypeError) ∧
  (∀ f ram, rom_lookup folder (uncompressed_file T a file_name) s = Some f →
            f_data f !! 0x149%nat = Some ram → 6 ≤ Z_of_byte ram →
            r.1 = Raise IndexError).
Proof.
  cbv zeta. split; [apply read_only_get_gameboy_save_size|].
  unfold get_gameboy_save_size, mbind, D_bind, read_rom.
  split; [by intros ->|]. split.
  - intros f -> Hlen. cbv beta iota.
    destruct (f_data f !! 323%nat) as [cgb|] eqn:Hcgb; [|done].
    destruct (f_data f !! 329%nat) as [ram|] eqn:Hram; [|done].
    apply lookup_lt_Some in Hram. unfold len in Hlen. lia.
  - intros f ram -> Hram Hge. cbv beta iota.
    destruct (f_data f !! 323%nat) as [cgb|] eqn:Hcgb.
    2: { apply lookup_ge_None in Hcgb. apply lookup_lt_Some in Hram. lia. }
    rewrite Hram. unfold lift.
    rewrite py_getitem_out_of_range; [done|]. right. unfold len. simpl. lia.
Qed.

(** ** Names of compressed counterparts *)

Lemma rfind_dot_app (f e : string) :
  rfind_dot e = Some 0%nat → rfind_dot (f ++ e) = Some (String.length f).
Proof.
  intros He. induction f as [|c f IH]; [done|].
  simpl. by rewrite IH.
Qed.

Lemma string_length_app (f e : string) :
  String.length (f ++ e) = (String.length f + String.length e)%nat.
Proof. induction f as [|c f IH]; [done|]. simpl. by rewrite IH. Qed.

Lemma substring_0_length (e : string) : String.substring 0 (String.length e) e = e.
Proof. induction e as [|c e IH]; [done|]. simpl. by rewrite IH. Qed.

Lemma substring_app_skip (f e : string) (m : nat) :
  String.substring (String.length f) m (f ++ e) = String.substring 0 m e.
Proof. induction f as [|c f IH]; [done|]. simpl. exact IH. Qed.

Lemma substring_app_take (f e : string) :
  String.substring 0 (String.length f) (f ++ e) = f.
Proof.
  induction f as [|c f IH]; [by destruct e|]. simpl. by rewrite IH.
Qed.

(** A name followed by an extension with one dot, its first character. *)
Lemma path_suffix_app (f e : string) :
  f ≠ ""%string → rfind_dot e = Some 0%nat → (1 < String.length e)%nat →
  path_suffix (f ++ e) = e ∧ path_stem (f ++ e) = f.
Proof.
  intros Hf He Hlen.
  assert (path_suffix (f ++ e) = e) as Hs.
  { unfold path_suffix. rewrite rfind_dot_app by done. rewrite string_length_app.
    destruct f as [|c f]; [done|]. cbn [String.length].
    replace (Nat.ltb 0 (S (String.length f))) with true by done.
    replace (Nat.ltb (S (String.length f)) (S (String.length f) + String.length e - 1))
      with true by (symmetry; apply Nat.ltb_lt; lia).
    cbn [andb].
    replace (S (String.length f) + String.length e - S (String.length f))%nat
      with (String.length e) by lia.
    rewrite (substring_app_skip (String c f) e). apply substring_0_length. }
  split; [exact Hs|].
  unfold path_stem, strip_suffix. rewrite Hs, string_length_app.
  replace (String.length f + String.length e - String.length e)%nat
    with (String.length f) by lia.
  apply substring_app_take.
Qed.

(** What [PurePath.suffix] returns is empty or starts with a dot. *)
Lemma rfind_dot_substring (f : string) (i : nat) :
  rfind_dot f = Some i →
  ∃ t, String.substring i (String.length f - i) f = String "."%char t.
Proof.
  revert i. induction f as [|c f IH]; intros i; [done|].
  cbn [rfind_dot String.length].
  destruct (rfind_dot f) as [j|].
  - intros [= <-]. cbn [Nat.sub String.substring]. by apply IH.
  - destruct (Ascii.eqb_spec c "."%char) as [->|]; [|done].
    intros [= <-]. cbn [Nat.sub String.substring]. eauto.
Qed.

Lemma path_suffix_dot (f : string) :
  path_suffix f = ""%string ∨ ∃ t, path_suffix f = String "."%char t.
Proof.
  unfold path_suffix. destruct (rfind_dot f) as [i|] eqn:Hi; [|by left].
  destruct (_ && _); [|by left]. right. by apply rfind_dot_substring.
Qed.

Lemma suffix_in_registry (T : tools) (a : args) (f : string) :
  in_registry T a (path_suffix f) = bool_decide (path_suffix f = ".lzma"%string).
Proof.
  destruct (in_registry T a (path_suffix f)) eqn:Hreg.
  - apply in_registry_spec in Hreg as [Hs|Hs].
    + destruct (path_suffix_dot f) as [H|[t H]]; rewrite H in Hs; done.
    + by rewrite bool_decide_eq_true_2.
  - symmetry. apply bool_decide_eq_false_2. intros Hs.
    rewrite Hs in Hreg. apply not_true_iff_false in Hreg. apply Hreg.
    apply in_registry_spec. by right.
Qed.

Lemma rev_app_length (s1 s2 : string) :
  String.length (String.rev_app s1 s2) = (String.length s1 + String.length s2)%nat.
Proof.
  revert s2. induction s1 as [|c s1 IH]; intros s2; [done|].
  cbn [String.rev_app String.length]. rewrite IH. cbn [String.length]. lia.
Qed.

Lemma prefix_length (p s : string) :
  String.prefix p s = true → (String.length p ≤ String.length s)%nat.
Proof.
  revert s. induction p as [|c p IH]; intros [|d s]; cbn; try done; try lia.
  destruct (Ascii.ascii_dec c d); [|done]. intros H%IH. lia.
Qed.

Lemma substring_0_length_eq (n : nat) (s : string) :
  (n ≤ String.length s)%nat → String.length (String.substring 0 n s) = n.
Proof.
  revert s. induction n as [|n IH]; intros [|c s]; cbn; try done; try lia.
  intros H. rewrite IH; lia.
Qed.

(** A name that ends with a suffix that is not empty is longer than
    the name without it. *)
Lemma strip_suffix_shorter (s suffix : string) :
  suffix ≠ ""%string → endswith s suffix = true → strip_suffix s suffix ≠ s.
Proof.
  intros Hne Hend Heq. apply prefix_length in Hend.
  unfold String.rev in Hend. rewrite !rev_app_length in Hend. cbn [String.length] in Hend.
  assert (String.length (strip_suffix s suffix) =
          (String.length s - String.length suffix)%nat) as Hlen.
  { unfold strip_suffix. apply substring_0_length_eq. lia. }
  rewrite Heq in Hlen. destruct suffix; [done|]. cbn [String.length] in *. lia.
Qed.

(** Lines 266-270, 538-542, 974-978, 981-985, 1005-1007 and 1027-1030.
    A file [f] and the file [f.lzma] or [f.cdk] beside it give rom
    objects with the same [filename], hence the same metadata entry and
    [publish].  For [f.lzma] the display name and [enable_save] agree
    too, so the raw rom is recognised as having a compressed
    counterpart and the family's list holds the counterpart alone.  A
    [.cdk] disk has the suffix [_no_save] taken off its name once more
    than the raw rom: the two agree, and the list holds the disk alone,
    when the raw rom's name does not end in [_no_save] any more;
    otherwise the names differ and the list holds both. *)
Theorem counterpart_same_name (T : tools) (a : args)
    (system folder f e extension extension' : string) (defs : romdefs) :
  f ≠ ""%string →
  path_suffix f ≠ ".lzma"%string → path_suffix f ≠ ".cdk"%string →
  e = ".lzma"%string ∨ e = ".cdk"%string →
  let raw := strip_no_save (ROM_init T a system folder f extension defs) in
  let found := strip_no_save (ROM_init T a system folder (f ++ e) extension' defs) in
  let disk := strip_no_save found in
  (filename found = filename raw ∧ name found = name raw ∧
   publish found = publish raw ∧ enable_save found = enable_save raw ∧
   rom_file found = (f ++ e)%string) ∧
  (e = ".lzma"%string →
   contains_rom_by_name raw [found] = true ∧ merge_roms [found] [raw] = [found]) ∧
  (e = ".cdk"%string →
   filename disk = filename raw ∧ publish disk = publish raw ∧
   rom_file disk = (f ++ e)%string ∧
   (endswith (name raw) "_no_save" = false →
    name disk = name raw ∧ enable_save disk = enable_save raw ∧
    filter (λ r, contains_rom_by_name r [disk] = false) [raw] ++ [disk] = [disk]) ∧
   (endswith (name raw) "_no_save" = true →
    name disk ≠ name raw ∧ enable_save disk = false ∧
    filter (λ r, contains_rom_by_name r [disk] = false) [raw] ++ [disk] = [raw; disk])).
Proof.
  intros Hf Hl Hc He. cbv zeta.
  assert (path_suffix (f ++ e) = e ∧ path_stem (f ++ e) = f) as [Hse Hst].
  { destruct He as [-> | ->]; (apply path_suffix_app; [done|reflexivity|simpl; lia]). }
  assert (∃ fn pub es nm op oi op' oi',
            ROM_init T a system folder f extension defs =
              MkROM 0 folder f fn pub es system nm op oi ∧
            ROM_init T a system folder (f ++ e) extension' defs =
              MkROM 0 folder (f ++ e) fn pub es system nm op' oi') as
    (fn & pub & es & nm & op & oi & op' & oi' & -> & ->).
  { unfold ROM_init. rewrite Hse, Hst. rewrite !suffix_in_registry.
    rewrite (bool_decide_eq_false_2 _ Hl).
    replace (String.eqb (path_suffix f) ".cdk") with false
      by (symmetry; by apply String.eqb_neq).
    replace (in_registry T a e || String.eqb e ".cdk") with true.
    2: { destruct He as [-> | ->]; [|by rewrite orb_true_r].
         symmetry. apply orb_true_iff. left. apply in_registry_spec. by right. }
    cbn [orb]. by do 8 eexists. }
  assert (∃ es' nm',
            strip_no_save (MkROM 0 folder f fn pub es system nm op oi) =
              MkROM 0 folder f fn pub es' system nm' op oi ∧
            strip_no_save (MkROM 0 folder (f ++ e) fn pub es system nm op' oi') =
              MkROM 0 folder (f ++ e) fn pub es' system nm' op' oi') as
    (es' & nm' & -> & ->).
  { unfold strip_no_save. cbn [name rom_id rom_folder rom_file filename publish
                                enable_save system_name obj_path obj_img].
    destruct (endswith nm "_no_save"); by do 2 eexists. }
  unfold merge_roms, contains_rom_by_name, strip_no_save.
  cbn [filename name publish enable_save rom_file rom_id rom_folder system_name
       obj_path obj_img].
  split; [done|]. split.
  { intros _. split; [cbn [existsb]; by rewrite String.eqb_refl|].
    rewrite filter_cons_False; [done|].
    cbv beta. cbn [existsb name]. by rewrite String.eqb_refl. }
  intros _. destruct (endswith nm' "_no_save") eqn:Hend;
    cbn [filename name publish enable_save rom_file rom_id rom_folder system_name
         obj_path obj_img].
  - split; [done|]. split; [done|]. split; [done|]. split; [done|]. intros _.
    assert (strip_suffix nm' "_no_save" ≠ nm') as Hne
      by (by apply strip_suffix_shorter).
    split; [done|]. split; [done|].
    apply String.eqb_neq in Hne. rewrite filter_cons_True; [done|].
    cbv beta. cbn [existsb name]. by rewrite Hne.
  - split; [done|]. split; [done|]. split; [done|]. split; [|done]. intros _.
    split; [done|]. split; [done|].
    rewrite filter_cons_False; [done|].
    cbv beta. cbn [existsb name]. by rewrite String.eqb_refl.
Qed.

Lemma counterpart_same_name_witness :
  let raw := strip_no_save
    (ROM_init sample_tools lzma_args "Nintendo Gameboy" "gb" "tetris.gb" "gb" empty_romdefs) in
  let found := strip_no_save
    (ROM_init sample_tools lzma_args "Nintendo Gameboy" "gb" ("tetris.gb" ++ ".lzma")
              "gb.lzma" empty_romdefs) in
  let disk := strip_no_save found in
  ("tetris.gb" ≠ "" ∧ path_suffix "tetris.gb" ≠ ".lzma" ∧ path_suffix "tetris.gb" ≠ ".cdk" ∧
   (".lzma" = ".lzma" ∨ ".lzma" = ".cdk"))%string ∧
  (filename found = filename raw ∧ name found = name raw ∧
   publish found = publish raw ∧ enable_save found = enable_save raw ∧
   rom_file found = ("tetris.gb" ++ ".lzma")%string) ∧
  (".lzma" = ".lzma"%string →
   contains_rom_by_name raw [found] = true ∧ merge_roms [found] [raw] = [found]) ∧
  (".lzma" = ".cdk"%string →
   filename disk = filename raw ∧ publish disk = publish raw ∧
   rom_file disk = ("tetris.gb" ++ ".lzma")%string ∧
   (endswith (name raw) "_no_save" = false →
    name disk = name raw ∧ enable_save disk = enable_save raw ∧
    filter (λ r, contains_rom_by_name r [disk] = false) [raw] ++ [disk] = [disk]) ∧
   (endswith (name raw) "_no_save" = true →
    name disk ≠ name raw ∧ enable_save disk = false ∧
    filter (λ r, contains_rom_by_name r [disk] = false) [raw] ++ [disk] = [raw; disk])).
Proof.
  cbv zeta.
  split; [split; [discriminate|split; [discriminate|split; [discriminate|by left]]]|].
  apply (counterpart_same_name sample_tools lzma_args "Nintendo Gameboy" "gb" "tetris.gb"
           ".lzma" "gb" "gb.lzma" empty_romdefs);
    [discriminate|discriminate|discriminate|by left].
Defined.

(** Lines 727-728 and 760-761.  The save size of a compressed rom
    [f.lzma] is computed from the raw file [f], not from the compressed
    one: the two calls read the same file, and when the raw file is no
    longer there the Game Boy call raises [FileNotFoundError] although
    the compressed rom exists. *)
Theorem save_size_reads_raw_file (T : tools) (a : args) (folder f : string) (s : store) :
  f ≠ ""%string → path_suffix f ≠ ".lzma"%string →
  uncompressed_file T a (f ++ ".lzma") = f ∧
  get_gameboy_save_size T a folder (f ++ ".lzma") s =
    get_gameboy_save_size T a folder f s ∧
  get_nes_save_size T a folder (f ++ ".lzma") s = get_nes_save_size T a folder f s ∧
  (rom_lookup folder f s = None →
   get_gameboy_save_size T a folder (f ++ ".lzma") s = (Raise FileNotFoundError, s)).
Proof.
  intros Hf Hl.
  destruct (path_suffix_app f ".lzma" Hf eq_refl) as [Hse Hst]; [simpl; lia|].
  assert (uncompressed_file T a (f ++ ".lzma") = f) as Hu.
  { unfold uncompressed_file. rewrite suffix_in_registry, Hse, Hst. done. }
  assert (uncompressed_file T a f = f) as Hu'.
  { unfold uncompressed_file. rewrite suffix_in_registry.
    by rewrite (bool_decide_eq_false_2 _ Hl). }
  split; [exact Hu|].
  unfold get_gameboy_save_size, get_nes_save_size. rewrite Hu, Hu'.
  split; [done|]. split; [done|].
  intros Hnone. unfold mbind, D_bind, read_rom. by rewrite Hnone.
Qed.

Lemma save_size_reads_raw_file_witness :
  let s := sample_store [("gb", [("a.gb.lzma", zeros 3)])]%string [] None in
  ("a.gb" ≠ "" ∧ path_suffix "a.gb" ≠ ".lzma")%string ∧
  uncompressed_file sample_tools lzma_args ("a.gb" ++ ".lzma") = "a.gb"%string ∧
  get_gameboy_save_size sample_tools lzma_args "gb" ("a.gb" ++ ".lzma") s =
    get_gameboy_save_size sample_tools lzma_args "gb" "a.gb" s ∧
  get_nes_save_size sample_tools lzma_args "gb" ("a.gb" ++ ".lzma") s =
    get_nes_save_size sample_tools lzma_args "gb" "a.gb" s ∧
  (rom_lookup "gb" "a.gb" s = None →
   get_gameboy_save_size sample_tools lzma_args "gb" ("a.gb" ++ ".lzma") s =
     (Raise FileNotFoundError, s)).
Proof.
  cbv zeta. split; [split; discriminate|].
  apply (save_size_reads_raw_file sample_tools lzma_args "gb" "a.gb"); discriminate.
Defined.

(** ** The list of roms of a family *)

Lemma contains_rom_by_name_spec (rom : ROM) (roms : list ROM) :
  contains_rom_by_name rom roms = true ↔ ∃ r, r ∈ roms ∧ name r = name rom.
Proof.
  unfold contains_rom_by_name. rewrite existsb_exists. split.
  - intros (r & Hin & Heq). exists r. split; [by apply list_elem_of_In|].
    by apply String.eqb_eq.
  - intros (r & Hin & Heq). exists r. split; [by apply list_elem_of_In|].
    by apply String.eqb_eq.
Qed.

(** Lines 981-985 and 1027-1030.  The list a family works on starts
    with the compressed roms as found, followed by raw roms only; it
    holds nothing but roms that were found; every rom found, compressed
    or raw, has its display name in the list; and no raw rom in it
    shares its display name with a compressed rom. *)
Theorem merge_roms_by_name (roms_compressed roms_raw : list ROM) :
  let roms := merge_roms roms_compressed roms_raw in
  take (length roms_compressed) roms = roms_compressed ∧
  (∀ r, r ∈ drop (length roms_compressed) roms →
        r ∈ roms_raw ∧ ∀ c, c ∈ roms_compressed → name c ≠ name r) ∧
  (∀ r, r ∈ roms_compressed ∨ r ∈ roms_raw → ∃ r', r' ∈ roms ∧ name r' = name r).
Proof.
  cbv zeta. unfold merge_roms. split; [by rewrite take_app_length|].
  rewrite drop_app_length. split.
  - intros r [Hc Hr]%list_elem_of_filter. split; [done|].
    intros c Hin Heq. apply not_true_iff_false in Hc. apply Hc.
    apply contains_rom_by_name_spec. eauto.
  - intros r [Hr|Hr].
    + exists r. split; [|done]. apply elem_of_app. by left.
    + destruct (contains_rom_by_name r roms_compressed) eqn:Hc.
      * apply contains_rom_by_name_spec in Hc as (r' & Hin & Heq).
        exists r'. split; [|done]. apply elem_of_app. by left.
      * exists r. split; [|done]. apply elem_of_app. right.
        by apply list_elem_of_filter.
Qed.


(** ** The descriptor table of a family *)

(** What a step may change: the one generated file that the mapper
    program of the NES family writes. *)
Lemma rom_mapper_spec (T : tools) (rom : ROM) (s s' : store) (mapper : Z) :
  rom_mapper T rom s = (Ok mapper, s') →
  roms s' = roms s ∧
  (∀ q, q ≠ "build/mappers.h"%string → outs s' !! q = outs s !! q) ∧
  (system_name rom ≠ "Nintendo Entertainment System"%string → s' = s) ∧
  (system_name rom ≠ "MSX"%string →
   system_name rom ≠ "Nintendo Entertainment System"%string → mapper = 0).
Proof.
  unfold rom_mapper. intros H.
  apply D_bind_Ok in H as (m0 & s0 & H0 & H).
  assert (s0 = s ∧ (system_name rom ≠ "MSX"%string → m0 = 0)) as [-> Hm0].
  { destruct (String.eqb_spec (system_name rom) "MSX").
    - apply D_bind_Ok in H0 as (s1 & s2 & [= <- <-] & H0).
      unfold lift in H0. by injection H0 as _ <-.
    - by injection H0 as <- <-. }
  destruct (String.eqb_spec (system_name rom) "Nintendo Entertainment System") as [Hn|Hn].
  - apply D_bind_Ok in H as (s1 & s2 & [= <- <-] & H).
    apply D_bind_Ok in H as (out & s3 & Hout & H).
    unfold lift in Hout. injection Hout as _ <-.
    apply D_bind_Ok in H as ([] & s4 & Hw & H). injection H as _ <-.
    destruct (out.2) as [h|].
    + unfold write_out in Hw. injection Hw as <-.
      cbn [tick set_outs roms outs]. split; [done|].
      split; [|done]. intros q Hq. by rewrite lookup_insert_ne.
    + injection Hw as <-. done.
  - injection H as <- <-. split; [done|]. split; [done|]. split; [done|].
    intros Hmsx _. by apply Hm0.
Qed.

Lemma rom_game_config_spec (T : tools) (rom : ROM) (s s' : store) (game_config : Z) :
  rom_game_config T rom s = (Ok game_config, s') →
  s' = s ∧ (system_name rom ≠ "MSX"%string → game_config = 0xff).
Proof.
  unfold rom_game_config. intros H.
  destruct (String.eqb_spec (system_name rom) "MSX").
  - apply D_bind_Ok in H as (s1 & s2 & [= <- <-] & H).
    apply D_bind_Ok in H as (out & s3 & Hout & H).
    unfold lift in Hout. injection Hout as _ <-.
    apply D_bind_Ok in H as (x0 & s4 & Hx0 & H).
    unfold lift in Hx0. injection Hx0 as _ <-.
    apply D_bind_Ok in H as (x1 & s5 & Hx1 & H).
    unfold lift in Hx1. injection Hx1 as _ <-.
    by injection H as _ <-.
  - by injection H as <- <-.
Qed.

Lemma rom_size_same_roms (rom : ROM) (s s1 : store) (size : Z) :
  roms s1 = roms s → rom_size rom s1 = (Ok size, s1) → rom_size rom s = (Ok size, s).
Proof.
  unfold rom_size, stat_size, rom_lookup. intros ->.
  destruct (roms s !! rom_folder rom ≫= _); intros [=]; by subst.
Qed.

Lemma rom_img_size_same_roms (rom : ROM) (s s1 : store) (size : Z) :
  roms s1 = roms s →
  rom_img_size rom s1 = (Ok size, s1) → rom_img_size rom s = (Ok size, s).
Proof.
  unfold rom_img_size, rom_lookup. intros ->.
  destruct (roms s !! rom_folder rom ≫= _); intros [=]; by subst.
Qed.

(** What a row of the table says of its rom, on a disk [s]. *)
Lemma rom_entries_loop (T : tools) (roms0 : list ROM) (k : nat) (body : list rom_entry)
    (pubcount : Z) (s s' : store) (rows : list rom_entry) (c : Z) :
  for_each (λ (acc : list rom_entry * Z) (ir : Z * ROM),
      let '(body, pubcount) := acc in
      let '(i, rom) := ir in
      if negb (publish rom) then mret acc
      else
        size ← rom_size rom;
        img_size ← rom_img_size rom;
        mapper ← rom_mapper T rom;
        game_config ← rom_game_config T rom;
        mret (body ++ [RomEntry rom i size img_size mapper game_config], pubcount + 1))
    (body, pubcount) (imap (λ i x, (Z.of_nat (k + i), x)) roms0) s = (Ok (rows, c), s') →
  (roms s' = roms s ∧
   (∀ q, q ≠ "build/mappers.h"%string → outs s' !! q = outs s !! q) ∧
   (Forall (λ r, publish r = true →
                 system_name r ≠ "Nintendo Entertainment System"%string) roms0 →
    s' = s)) ∧
  ∃ new, rows = body ++ new ∧ c = pubcount + len new ∧
         re_rom <$> new = filter (λ r, publish r = true) roms0 ∧
         Forall (λ row, ∃ i : nat,
                   re_index row = Z.of_nat (k + i) ∧ roms0 !! i = Some (re_rom row) ∧
                   rom_size (re_rom row) s = (Ok (re_size row), s) ∧
                   rom_img_size (re_rom row) s = (Ok (re_img_size row), s) ∧
                   (system_name (re_rom row) ≠ "MSX"%string →
                    re_game_config row = 0xff ∧
                    (system_name (re_rom row) ≠ "Nintendo Entertainment System"%string →
                     re_mapper row = 0))) new.
Proof.
  revert k body pubcount s. induction roms0 as [|rom roms0 IH]; intros k body pubcount s.
  - simpl. intros [= <- <- <-]. split; [done|]. exists []. rewrite app_nil_r.
    split; [done|]. split; [unfold len; simpl; lia|]. split; [done|constructor].
  - rewrite imap_cons. cbn [for_each]. intros H.
    apply D_bind_Ok in H as ([body1 c1] & s1 & Hstep & H).
    rewrite (imap_ext _ (λ i x, (Z.of_nat (S k + i), x))) in H
      by (intros i x _; simpl; do 2 f_equal; lia).
    apply IH in H as ((Hr' & Ho' & Hs') & new & -> & -> & Hroms & Hrows).
    assert (roms s1 = roms s →
            ∀ row, (∃ i : nat, re_index row = Z.of_nat (S k + i) ∧
                      roms0 !! i = Some (re_rom row) ∧
                      rom_size (re_rom row) s1 = (Ok (re_size row), s1) ∧
                      rom_img_size (re_rom row) s1 = (Ok (re_img_size row), s1) ∧
                      (system_name (re_rom row) ≠ "MSX"%string →
                       re_game_config row = 0xff ∧
                       (system_name (re_rom row) ≠
                          "Nintendo Entertainment System"%string →
                        re_mapper row = 0))) →
                   ∃ i : nat, re_index row = Z.of_nat (k + i) ∧
                      (rom :: roms0) !! i = Some (re_rom row) ∧
                      rom_size (re_rom row) s = (Ok (re_size row), s) ∧
                      rom_img_size (re_rom row) s = (Ok (re_img_size row), s) ∧
                      (system_name (re_rom row) ≠ "MSX"%string →
                       re_game_config row = 0xff ∧
                       (system_name (re_rom row) ≠
                          "Nintendo Entertainment System"%string →
                        re_mapper row = 0))) as Hshift.
    { intros Heq row (i & Hi & Hl & Hsz & Him & Hcfg). exists (S i).
      split; [rewrite Hi; f_equal; lia|]. split; [done|].
      split; [by eapply rom_size_same_roms|].
      split; [by eapply rom_img_size_same_roms|done]. }
    destruct (publish rom) eqn:Hpub; cbn [negb] in Hstep.
    + apply D_bind_Ok in Hstep as (size & s2 & Hsize & Hstep).
      apply D_bind_Ok in Hstep as (img_size & s3 & Himg & Hstep).
      apply D_bind_Ok in Hstep as (mapper & s4 & Hmap & Hstep).
      apply D_bind_Ok in Hstep as (game_config & s5 & Hcfg & Hstep).
      injection Hstep as <- <- <-.
      assert (s2 = s) as ->.
      { pose proof (read_only_stat_size (rom_folder rom) (rom_file rom) s) as Hro.
        unfold rom_size in Hsize. by rewrite Hsize in Hro. }
      assert (s3 = s) as ->.
      { unfold rom_img_size in Himg. destruct (rom_lookup _ _ _); by injection Himg. }
      apply rom_mapper_spec in Hmap as (Hr4 & Ho4 & Hs4 & Hm4).
      apply rom_game_config_spec in Hcfg as (-> & Hg).
      split.
      { split; [congruence|]. split.
        - intros q Hq. rewrite Ho' by done. by apply Ho4.
        - intros Hall. apply Forall_cons in Hall as [Hrom Hall].
          rewrite (Hs' Hall). apply Hs4. by apply Hrom. }
      exists (RomEntry rom (Z.of_nat (k + 0)) size img_size mapper game_config :: new).
      split; [by rewrite <- app_assoc|].
      split; [unfold len; simpl length; lia|].
      split.
      * cbn [fmap list_fmap re_rom]. rewrite filter_cons_True by done.
        f_equal. exact Hroms.
      * constructor; [|eapply Forall_impl; [exact Hrows|by apply Hshift]].
        exists 0%nat. cbn [re_index re_rom re_size re_img_size re_game_config re_mapper].
        split; [done|]. split; [done|]. split; [done|]. split; [done|].
        intros Hmsx. split; [by apply Hg|]. intros Hnes. by apply Hm4.
    + injection Hstep as <- <- <-.
      split.
      { split; [done|]. split; [done|]. intros Hall.
        apply Forall_cons in Hall as [_ Hall]. by apply Hs'. }
      exists new.
      split; [done|]. split; [done|]. split.
      * rewrite filter_cons_False; [done|]. by rewrite Hpub.
      * eapply Forall_impl; [exact Hrows|by apply Hshift].
Qed.

(** Lines 493-513 and 546-593.  When [generate_rom_entries] returns,
    the table has one row per published rom, in the order of the list,
    with [rom_count] the number of rows; each row carries the position
    of its rom in the whole list, counting the unpublished roms too, and
    the sizes the rom's file and cover image have on the disk; outside
    the MSX family its controls are [0xff], and outside the MSX and NES
    families its mapper is 0.  The roms are left as they were, and so is
    every other file but [build/mappers.h], which the mapper program of
    the NES family may write; without a published NES rom the disk is as
    it was. *)
Theorem generate_rom_entries_rows (T : tools) (name : string) (roms0 : list ROM)
    (s s' : store) (it : item) :
  generate_rom_entries T name roms0 s = (Ok it, s') →
  (roms s' = roms s ∧
   (∀ q, q ≠ "build/mappers.h"%string → outs s' !! q = outs s !! q) ∧
   (Forall (λ r, publish r = true →
                 system_name r ≠ "Nintendo Entertainment System"%string) roms0 →
    s' = s)) ∧
  ∃ rows,
    it = ItEntries name rows (len rows) ∧
    re_rom <$> rows = filter (λ r, publish r = true) roms0 ∧
    Forall (λ row, ∃ i : nat,
              re_index row = Z.of_nat i ∧ roms0 !! i = Some (re_rom row) ∧
              rom_size (re_rom row) s = (Ok (re_size row), s) ∧
              rom_img_size (re_rom row) s = (Ok (re_img_size row), s) ∧
              (system_name (re_rom row) ≠ "MSX"%string →
               re_game_config row = 0xff ∧
               (system_name (re_rom row) ≠ "Nintendo Entertainment System"%string →
                re_mapper row = 0))) rows.
Proof.
  unfold generate_rom_entries. intros H.
  apply D_bind_Ok in H as ([rows c] & s1 & H & Hret). injection Hret as <- <-.
  unfold enumerate in H.
  apply (rom_entries_loop T roms0 0 [] 0 s s1 rows c) in H
    as (Hs & new & -> & -> & Hroms & Hrows).
  split; [done|]. exists new. cbn [fst snd app]. split; [done|]. by split.
Qed.

Lemma generate_rom_entries_rows_witness :
  let s := sample_store [("gw", [("a.gw", zeros 3); ("b.gw", zeros 5)])]%string [] None in
  let r0 := MkROM 0 "gw" "a.gw" "a" false true "Game & Watch" "a"
                  "build/roms/a_gw.o" "build/roms/a_img_gw.o" in
  let r1 := MkROM 1 "gw" "b.gw" "b" true true "Game & Watch" "b"
                  "build/roms/b_gw.o" "build/roms/b_img_gw.o" in
  let it := ItEntries "gw_roms" [RomEntry r1 1 5 0 0 255] 1 in
  generate_rom_entries sample_tools "gw_roms" [r0; r1] s = (Ok it, s) ∧
  (roms s = roms s ∧
   (∀ q, q ≠ "build/mappers.h"%string → outs s !! q = outs s !! q) ∧
   (Forall (λ r, publish r = true →
                 system_name r ≠ "Nintendo Entertainment System"%string) [r0; r1] →
    s = s)) ∧
  ∃ rows,
    it = ItEntries "gw_roms" rows (len rows) ∧
    re_rom <$> rows = filter (λ r, publish r = true) [r0; r1] ∧
    Forall (λ row, ∃ i : nat,
              re_index row = Z.of_nat i ∧ [r0; r1] !! i = Some (re_rom row) ∧
              rom_size (re_rom row) s = (Ok (re_size row), s) ∧
              rom_img_size (re_rom row) s = (Ok (re_img_size row), s) ∧
              (system_name (re_rom row) ≠ "MSX"%string →
               re_game_config row = 0xff ∧
               (system_name (re_rom row) ≠ "Nintendo Entertainment System"%string →
                re_mapper row = 0))) rows.
Proof.
  cbv zeta.
  assert (generate_rom_entries sample_tools "gw_roms"
            [MkROM 0 "gw" "a.gw" "a" false true "Game & Watch" "a"
                   "build/roms/a_gw.o" "build/roms/a_img_gw.o";
             MkROM 1 "gw" "b.gw" "b" true true "Game & Watch" "b"
                   "build/roms/b_gw.o" "build/roms/b_img_gw.o"]
            (sample_store [("gw", [("a.gw", zeros 3); ("b.gw", zeros 5)])]%string [] None) =
          (Ok (ItEntries "gw_roms"
                 [RomEntry (MkROM 1 "gw" "b.gw" "b" true true "Game & Watch" "b"
                                  "build/roms/b_gw.o" "build/roms/b_img_gw.o")
                           1 5 0 0 255] 1),
           sample_store [("gw", [("a.gw", zeros 3); ("b.gw", zeros 5)])]%string [] None))
    as H by (by vm_compute).
  split; [exact H|].
  exact (generate_rom_entries_rows _ _ _ _ _ _ H).
Defined.

(** ** What a family run does before it opens its table *)

Lemma keeps_outs_read_only {A} (m : D A) : read_only m → keeps_outs m.
Proof. intros H s. by rewrite H. Qed.

Lemma keeps_outs_ret {A} (x : A) : keeps_outs (mret x : D A).
Proof. by intros s. Qed.

Lemma keeps_outs_bind {A B} (m : D A) (f : A → D B) :
  keeps_outs m → (∀ x, keeps_outs (f x)) → keeps_outs (m ≫= f).
Proof.
  intros Hm Hf s. unfold mbind, D_bind. specialize (Hm s).
  destruct (m s) as [[x|e] s1]; simpl in *; [|done].
  by rewrite Hf.
Qed.

Lemma keeps_outs_for_each {A B} (body : B → A → D B) (acc : B) (l : list A) :
  (∀ acc x, keeps_outs (body acc x)) → keeps_outs (for_each body acc l).
Proof.
  intros Hbody. revert acc. induction l as [|x l IH]; intros acc; simpl.
  - apply keeps_outs_ret.
  - apply keeps_outs_bind; [apply Hbody|]. intros acc'. apply IH.
Qed.

Lemma read_only_find_roms (T : tools) (a : args) (system_name folder extension : string)
    (defs : romdefs) :
  read_only (find_roms T a system_name folder extension defs).
Proof.
  intros s. destruct (find_roms_spec T a system_name folder extension defs s)
    as (files & -> & _). by destruct (roms s !! folder).
Qed.

Lemma read_only_for_each {A B} (body : B → A → D B) (acc : B) (l : list A) :
  (∀ acc x, read_only (body acc x)) → read_only (for_each body acc l).
Proof.
  intros Hbody. revert acc. induction l as [|x l IH]; intros acc; simpl.
  - apply read_only_ret.
  - apply read_only_bind; [apply Hbody|]. intros acc'. apply IH.
Qed.

Lemma read_only_find_roms_of (T : tools) (a : args) (system_name folder : string)
    (extensions : list string) (defs : romdefs) :
  read_only (find_roms_of T a system_name folder extensions defs).
Proof.
  apply read_only_for_each. intros acc e.
  apply read_only_bind; [apply read_only_find_roms|]. intros. apply read_only_ret.
Qed.

Lemma read_only_find_cdk_disks (T : tools) (a : args) (system_name folder : string)
    (defs : romdefs) :
  read_only (find_cdk_disks T a system_name folder defs).
Proof.
  apply read_only_bind; [apply read_only_find_roms|]. intros. apply read_only_ret.
Qed.

Lemma read_only_find_compressed_roms (T : tools) (a : args) (system_name folder : string)
    (extensions : list string) (defs : romdefs) (compress : option string) :
  read_only (find_compressed_roms T a system_name folder extensions defs compress).
Proof.
  unfold find_compressed_roms. destruct compress as [c|]; [|apply read_only_ret].
  destruct (String.eqb c ""); [apply read_only_ret|apply read_only_find_roms_of].
Qed.

Lemma keeps_outs__convert_dsk (T : tools) (variable_name : string) (dsk : ROM)
    (compress : option string) :
  keeps_outs (_convert_dsk T variable_name dsk compress).
Proof.
  unfold _convert_dsk. destruct (negb (publish dsk)); [apply keeps_outs_ret|].
  assert (∀ tool, keeps_outs (λ s : store,
            match roms s !! rom_folder dsk with
            | None => (Raise CalledProcessError, s)
            | Some dir =>
                match dsk2lzma T tool (rom_file dsk) (default "none"%string compress) dir with
                | Ok dir' => (Ok (), set_roms (<[rom_folder dsk := dir']> (roms s)) s)
                | Raise e => (Raise e, s)
                end
            end)) as Hrun.
  { intros tool s. destruct (roms s !! rom_folder dsk); [|done].
    by destruct (dsk2lzma _ _ _ _ _). }
  apply keeps_outs_bind.
  - destruct (contains variable_name "msx_system"); [apply Hrun|apply keeps_outs_ret].
  - intros []. destruct (contains variable_name "amstrad_system");
      [apply Hrun|apply keeps_outs_ret].
Qed.

Lemma keeps_outs_collect_roms (T : tools) (a : args)
    (system_name variable_name folder : string) (extensions : list string)
    (defs : romdefs) (compress : option string) (speed : bool) :
  keeps_outs (collect_roms T a system_name variable_name folder extensions defs
                           compress speed).
Proof.
  unfold collect_roms.
  apply keeps_outs_bind; [apply keeps_outs_read_only, read_only_find_roms_of|].
  intros roms_raw.
  apply keeps_outs_bind; [apply keeps_outs_read_only, read_only_find_cdk_disks|].
  intros cdk_disks. apply keeps_outs_bind.
  { destruct (bool_decide _); [|apply keeps_outs_ret].
    apply keeps_outs_bind.
    - apply keeps_outs_for_each. intros. apply keeps_outs__convert_dsk.
    - intros. apply keeps_outs_read_only, read_only_find_cdk_disks. }
  intros cdk_disks'.
  apply keeps_outs_bind; [apply keeps_outs_read_only, read_only_find_compressed_roms|].
  intros roms_compressed. apply keeps_outs_bind; [|intros; apply keeps_outs_ret].
  destruct (_ && _); [|apply keeps_outs_ret].
  apply keeps_outs_bind.
  - apply keeps_outs_for_each. intros acc r s. apply _compress_rom_keeps_others.
  - intros. apply keeps_outs_read_only, read_only_find_compressed_roms.
Qed.

Lemma generate_system_overflow (T : tools) (a : args)
    (file system variable_name folder : string) (extensions : list string)
    (save_prefix : string) (defs : romdefs) (cheat_codes_prefix : option string)
    (current_id : Z) (compress : option string) (speed : bool) (s : store) (l : log) :
  let defs' := default defs (jsons s !! folder) in
  let w := default 128 (rd_cover_width defs') in
  let h := default 96 (rd_cover_height defs') in
  let cover_width := if w >? 180 then 180 else if w <? 64 then 64 else w in
  let cover_height := if h >? 136 then 136 else if h <? 64 then 64 else h in
  18600 < cover_width * cover_height →
  generate_system T a file system variable_name folder extensions save_prefix
                  defs cheat_codes_prefix current_id compress speed (s, l) =
  match collect_roms T a system variable_name folder extensions defs' compress speed s with
  | (Ok rr, s1) =>
      (Raise (SystemExit (-1)),
       (s1, Log (ids l ++ imap (λ i rom, set_rom_id rom (current_id + Z.of_nat i)) rr.1)
                (items l)))
  | (Raise e, s1) => (Raise e, (s1, l))
  end.
Proof.
  cbv zeta. intros Hover. unfold generate_system.
  unfold mbind at 1, M_bind at 1. unfold disk at 1, get_store. cbn [fst snd].
  unfold mbind at 1, M_bind at 1. unfold disk at 1. cbn [fst snd].
  destruct (collect_roms _ _ _ _ _ _ _ _ _ s) as [[[roms roms_uncompressed]|e] s1];
    [|done].
  unfold mbind at 1, M_bind at 1. unfold assign_ids. rewrite for_each_assign.
  apply Z.gtb_lt in Hover. rewrite Hover. done.
Qed.

(** Lines 1047-1059.  When the clamped cover size exceeds 18600 pixels
    (a cover of 180 by 136 does), [generate_system] never returns: it
    exits with status -1 once the roms are collected and numbered, or
    raises earlier while collecting them.  Either way no file outside
    [roms/] is created or changed, the table file included, and nothing
    is emitted. *)
Theorem cover_overflow_exits (T : tools) (a : args)
    (file system variable_name folder : string) (extensions : list string)
    (save_prefix : string) (defs : romdefs) (cheat_codes_prefix : option string)
    (current_id : Z) (compress : option string) (speed : bool) (s : store) (l : log) :
  let defs' := default defs (jsons s !! folder) in
  let w := default 128 (rd_cover_width defs') in
  let h := default 96 (rd_cover_height defs') in
  let cover_width := if w >? 180 then 180 else if w <? 64 then 64 else w in
  let cover_height := if h >? 136 then 136 else if h <? 64 then 64 else h in
  18600 < cover_width * cover_height →
  let run := generate_system T a file system variable_name folder extensions save_prefix
                             defs cheat_codes_prefix current_id compress speed (s, l) in
  (∃ e, run.1 = Raise e) ∧
  (∀ rr s1,
     collect_roms T a system variable_name folder extensions defs' compress speed s =
       (Ok rr, s1) →
     run.1 = Raise (SystemExit (-1))) ∧
  outs run.2.1 = outs s ∧ items run.2.2 = items l.
Proof.
  cbv zeta. intros Hover.
  rewrite (generate_system_overflow T a file system variable_name folder extensions
             save_prefix defs cheat_codes_prefix current_id compress speed s l Hover).
  pose proof (keeps_outs_collect_roms T a system variable_name folder extensions
                (default defs (jsons s !! folder)) compress speed s) as Houts.
  destruct (collect_roms _ _ _ _ _ _ _ _ _ s) as [[rr|e] s1];
    cbn [fst snd items] in *.
  - split; [by eexists|]. by split.
  - split; [by eexists|]. split; [by intros rr s2 [=]|]. by split.
Qed.

Lemma cover_overflow_exits_witness :
  let defs := RomDefs ∅ (Some 180) (Some 136) in
  let s := sample_store [("gw", [("ball.gw", zeros 3)])]%string [] None in
  let run := generate_system sample_tools default_args "Core/Src/retro-go/gw_roms.c"
               "Game & Watch" "gw_system" "gw" ["gw"]%string "SAVE_GW_" defs None 0
               None false (s, log0) in
  (let defs' := default defs (jsons s !! "gw"%string) in
   let w := default 128 (rd_cover_width defs') in
   let h := default 96 (rd_cover_height defs') in
   let cover_width := if w >? 180 then 180 else if w <? 64 then 64 else w in
   let cover_height := if h >? 136 then 136 else if h <? 64 then 64 else h in
   18600 < cover_width * cover_height) ∧
  (∃ e, run.1 = Raise e) ∧
  (∀ rr s1,
     collect_roms sample_tools default_args "Game & Watch" "gw_system" "gw" ["gw"]%string
                  (default defs (jsons s !! "gw"%string)) None false s = (Ok rr, s1) →
     run.1 = Raise (SystemExit (-1))) ∧
  outs run.2.1 = outs s ∧ items run.2.2 = items log0.
Proof.
  cbv zeta. split; [reflexivity|].
  apply (cover_overflow_exits sample_tools default_args "Core/Src/retro-go/gw_roms.c"
           "Game & Watch" "gw_system" "gw" ["gw"]%string "SAVE_GW_"
           (RomDefs ∅ (Some 180) (Some 136)) None 0 None false
           (sample_store [("gw", [("ball.gw", zeros 3)])]%string [] None) log0).
  reflexivity.
Defined.

(** ** The totals of a family *)

Lemma for_each_M_inv {A B} (I : B → Prop) (body : B → A → M B) (xs : list A)
    (acc acc' : B) (sl sl' : store * log) :
  (∀ acc x sl acc' sl', I acc → body acc x sl = (Ok acc', sl') → I acc') →
  I acc → for_each_M body acc xs sl = (Ok acc', sl') → I acc'.
Proof.
  intros Hbody. revert acc sl. induction xs as [|x xs IH]; intros acc sl Hacc; simpl.
  - by intros [= <- _].
  - intros H. apply M_bind_Ok in H as (acc1 & sl1 & H1 & H). eauto.
Qed.

Lemma rom_size_nonneg (rom : ROM) (s s' : store) (size : Z) :
  rom_size rom s = (Ok size, s') → 0 ≤ size.
Proof.
  unfold rom_size, stat_size. destruct (rom_lookup _ _ _); [|done].
  intros [= <- _]. apply len_nonneg.
Qed.

Lemma rom_img_size_nonneg (rom : ROM) (s s' : store) (size : Z) :
  rom_img_size rom s = (Ok size, s') → 0 ≤ size.
Proof.
  unfold rom_img_size. destruct (rom_lookup _ _ _); intros [= <- _]; [apply len_nonneg|done].
Qed.

(** What the main loop keeps true of its totals. *)
Lemma emit_rom_totals (T : tools) (a : args)
    (file system folder save_prefix : string) (cheat : option string) (w h : Z)
    (t t' : totals) (ir : Z * ROM) (sl sl' : store * log) :
  ((4096 | system_save_size t) ∧ (4096 | total_save_size t) ∧
   0 ≤ total_rom_size t ∧ 0 ≤ total_img_size t ∧
   (coverflow a = 0 → total_img_size t = 0)) →
  emit_rom T a file system folder save_prefix cheat w h t ir sl = (Ok t', sl') →
  (4096 | system_save_size t') ∧ (4096 | total_save_size t') ∧
  0 ≤ total_rom_size t' ∧ 0 ≤ total_img_size t' ∧
  (coverflow a = 0 → total_img_size t' = 0).
Proof.
  intros (Hsys & Htot & Hrom & Himg & Hcov). destruct ir as [i rom]. unfold emit_rom.
  destruct (publish rom); cbn [negb]; [|by intros [= <- _]].
  intros H.
  apply M_bind_Ok in H as (save_sz & [s1 l1] & _ & H).
  apply M_bind_Ok in H as (size & [s2 l2] & Hsize & H).
  apply disk_Ok in Hsize as [Hsize%rom_size_nonneg _].
  apply M_bind_Ok in H as (img_size & [s3 l3] & Himgsz & H).
  apply disk_Ok in Himgsz as [Himgsz _].
  repeat (apply M_bind_Ok in H as (? & ? & _ & H)).
  injection H as <- _.
  cbn [system_save_size total_save_size total_rom_size total_img_size].
  assert ((4096 | (save_sz + 4 * 1024 - 1) / (4 * 1024) * (4 * 1024))) as Hdiv
    by (exists ((save_sz + 4 * 1024 - 1) / (4 * 1024)); lia).
  split; [by destruct (_ && _)|].
  split; [destruct (enable_save rom); [by apply Z.divide_add_r|done]|].
  split; [lia|].
  destruct (Z.eqb_spec (coverflow a) 0) as [Hc|Hc]; cbn [negb] in Himgsz.
  - injection Himgsz as <- _. split; [lia|]. intros _. rewrite (Hcov Hc). lia.
  - apply rom_img_size_nonneg in Himgsz. split; [lia|done].
Qed.

(** Lines 1036-1119.  The totals a completed [generate_system] returns:
    the family's largest save size and its save total are multiples of
    4096, the rom and image totals and the largest Sega rom size are
    not negative, and without [--coverflow] the image total is 0. *)
Theorem save_totals_aligned (T : tools) (a : args)
    (file system variable_name folder : string) (extensions : list string)
    (save_prefix : string) (defs : romdefs) (cheat_codes_prefix : option string)
    (current_id : Z) (compress : option string) (speed : bool)
    (sl sl' : store * log)
    (system_save total_save total_rom total_img current_id' larger_rom : Z) :
  generate_system T a file system variable_name folder extensions save_prefix
                  defs cheat_codes_prefix current_id compress speed sl =
    (Ok (system_save, total_save, total_rom, total_img, current_id', larger_rom), sl') →
  (4096 | system_save) ∧ (4096 | total_save) ∧
  0 ≤ total_rom ∧ 0 ≤ total_img ∧ 0 ≤ larger_rom ∧
  (coverflow a = 0 → total_img = 0).
Proof.
  unfold generate_system. intros H.
  apply M_bind_Ok in H as (s0 & sl0 & _ & H).
  apply M_bind_Ok in H as ([roms roms_uncompressed] & sl1 & _ & H).
  apply M_bind_Ok in H as ([roms' cid] & sl2 & _ & H).
  destruct (_ >? 18600).
  { by destruct sl2, sl'. }
  apply M_bind_Ok in H as ([] & sl3 & _ & H).
  apply M_bind_Ok in H as ([] & sl4 & _ & H).
  apply M_bind_Ok in H as (t & sl5 & Ht & H).
  apply M_bind_Ok in H as (rom_entries & sl6 & _ & H).
  apply M_bind_Ok in H as ([] & sl7 & _ & H).
  apply M_bind_Ok in H as ([] & sl8 & _ & H).
  apply M_bind_Ok in H as (larger & [s9 l9] & Hlarger & H).
  injection H as <- <- <- <- _ <- _.
  destruct sl8 as [s8 l8]. apply disk_Ok in Hlarger as [Hlarger _].
  assert (0 ≤ larger) as Hl.
  { unfold larger_rom_size_of in Hlarger.
    eapply (for_each_inv (λ acc : Z, 0 ≤ acc)) in Hlarger; [exact Hlarger| |done].
    clear. intros acc r s acc' s' Hacc.
    destruct (bool_decide _); [|by intros [= <- _]].
    intros H. apply D_bind_Ok in H as (size & s1 & _ & H). injection H as <- _.
    destruct (acc <? size) eqn:Hlt; [|done]. apply Z.ltb_lt in Hlt. lia. }
  eapply (for_each_M_inv
            (λ t, (4096 | system_save_size t) ∧ (4096 | total_save_size t) ∧
                  0 ≤ total_rom_size t ∧ 0 ≤ total_img_size t ∧
                  (coverflow a = 0 → total_img_size t = 0))) in Ht.
  - destruct Ht as (H1 & H2 & H3 & H4 & H5). done.
  - intros acc x sl9 acc' sl9' Hacc Hemit. by eapply emit_rom_totals.
  - cbn. repeat split; try done; apply Z.divide_0_r.
Qed.

Lemma save_totals_aligned_witness :
  let sl := (sample_store [("gw", [("ball.gw", zeros 3)])]%string [] None, log0) in
  ∃ sl',
    generate_system sample_tools default_args "Core/Src/retro-go/gw_roms.c"
      "Game & Watch" "gw_system" "gw" ["gw"]%string "SAVE_GW_" empty_romdefs
      None 0 None false sl = (Ok (4096, 4096, 3, 0, 1, 0), sl') ∧
    (4096 | 4096) ∧ (4096 | 4096) ∧ 0 ≤ 3 ∧ 0 ≤ 0 ∧ 0 ≤ 0 ∧
    (coverflow default_args = 0 → 0 = 0).
Proof.
  cbv zeta.
  assert ((generate_system sample_tools default_args "Core/Src/retro-go/gw_roms.c"
             "Game & Watch" "gw_system" "gw" ["gw"]%string "SAVE_GW_" empty_romdefs
             None 0 None false
             (sample_store [("gw", [("ball.gw", zeros 3)])]%string [] None, log0)).1 =
          Ok (4096, 4096, 3, 0, 1, 0)) as H1 by (vm_compute; reflexivity).
  destruct (generate_system sample_tools default_args "Core/Src/retro-go/gw_roms.c"
             "Game & Watch" "gw_system" "gw" ["gw"]%string "SAVE_GW_" empty_romdefs
             None 0 None false
             (sample_store [("gw", [("ball.gw", zeros 3)])]%string [] None, log0))
    as [r sl'] eqn:H.
  cbn [fst] in H1. subst r. exists sl'. split; [reflexivity|].
  exact (save_totals_aligned _ _ _ _ _ _ _ _ _ _ _ _ _ _ _ _ _ _ _ _ _ H).
Defined.

(** ** Cheat codes *)

Lemma replace_both_cons (c : Z) (s : ustr) :
  let both s :=
    replace_char double_quote [backslash; double_quote]
      (replace_char backslash [backslash; backslash; backslash; backslash] s) in
  both (c :: s) =
  if c =? backslash
  then backslash :: backslash :: backslash :: backslash :: both s
  else if c =? double_quote then backslash :: double_quote :: both s
  else c :: both s.
Proof.
  cbv zeta. cbn [replace_char].
  destruct (Z.eqb_spec c backslash) as [->|Hb]; [reflexivity|].
  cbn [replace_char]. by destruct (c =? double_quote).
Qed.

Lemma escaped_replace (s : ustr) :
  escaped (replace_char double_quote [backslash; double_quote]
             (replace_char backslash [backslash; backslash; backslash; backslash] s)).
Proof.
  induction s as [|c s IH]; [constructor|]. rewrite replace_both_cons.
  destruct (Z.eqb_spec c backslash) as [->|Hb]; [by apply escaped_backslash|].
  destruct (Z.eqb_spec c double_quote) as [->|Hq]; [by apply escaped_quote|].
  by apply escaped_plain.
Qed.

Lemma escaped_c_scan (s : ustr) : escaped s → c_scan false s = Some false.
Proof.
  induction 1 as [|c s Hb Hq _ IH|s _ IH|s _ IH]; [done| | |].
  - cbn [c_scan]. apply Z.eqb_neq in Hb, Hq. by rewrite Hb, Hq.
  - exact IH.
  - exact IH.
Qed.

(** The backslash and the double quote are no whitespace, whatever the
    tables above ASCII hold. *)
Lemma py_isspace_backslash (U : unicode) : py_isspace U backslash = false.
Proof. reflexivity. Qed.

Lemma py_isspace_double_quote (U : unicode) : py_isspace U double_quote = false.
Proof. reflexivity. Qed.

Lemma escaped_lstrip (U : unicode) (s : ustr) : escaped s → escaped (lstrip U s).
Proof.
  induction 1 as [|c s Hb Hq Hs IH|s Hs _|s Hs _]; [constructor| | |].
  - cbn [lstrip]. destruct (py_isspace U c); [exact IH|by constructor].
  - by apply escaped_backslash.
  - by apply escaped_quote.
Qed.

Lemma rstrip_cons (U : unicode) (c : Z) (s : ustr) :
  py_isspace U c = false → rstrip U (c :: s) = c :: rstrip U s.
Proof. intros Hc. cbn [rstrip]. rewrite Hc. by destruct (rstrip U s). Qed.

Lemma escaped_rstrip (U : unicode) (s : ustr) : escaped s → escaped (rstrip U s).
Proof.
  induction 1 as [|c s Hb Hq Hs IH|s Hs IH|s Hs IH]; [constructor| | |].
  - cbn [rstrip]. destruct (rstrip U s) as [|c' r] eqn:Hr.
    + destruct (py_isspace U c); by constructor.
    + by constructor.
  - rewrite !rstrip_cons by apply py_isspace_backslash. by apply escaped_backslash.
  - rewrite rstrip_cons by apply py_isspace_backslash.
    rewrite rstrip_cons by apply py_isspace_double_quote. by apply escaped_quote.
Qed.

Lemma shorten_desc_escaped (U : unicode) (desc : ustr) : escaped (shorten_desc U desc).
Proof. apply escaped_rstrip, escaped_lstrip, escaped_replace. Qed.

Lemma lstrip_length (U : unicode) (s : ustr) : (length (lstrip U s) ≤ length s)%nat.
Proof.
  induction s as [|c s IH]; [done|]. cbn [lstrip].
  destruct (py_isspace U c); simpl; lia.
Qed.

Lemma rstrip_length (U : unicode) (s : ustr) : (length (rstrip U s) ≤ length s)%nat.
Proof.
  induction s as [|c s IH]; [done|]. cbn [rstrip].
  destruct (rstrip U s); [destruct (py_isspace U c)|]; simpl in *; lia.
Qed.

Lemma replace_length (s : ustr) :
  (length
     (replace_char double_quote [backslash; double_quote]
        (replace_char backslash [backslash; backslash; backslash; backslash] s)) ≤
   4 * length s)%nat.
Proof.
  induction s as [|c s IH]; [done|]. rewrite replace_both_cons.
  destruct (c =? backslash); [|destruct (c =? double_quote)];
    cbn [length]; lia.
Qed.

Lemma shorten_desc_length (U : unicode) (desc : ustr) :
  (length (shorten_desc U desc) ≤ 160)%nat.
Proof.
  unfold shorten_desc, strip.
  etrans; [apply rstrip_length|]. etrans; [apply lstrip_length|].
  etrans; [apply replace_length|].
  rewrite length_take. lia.
Qed.

(** Lines 383-388 and 709.  Whatever characters a description holds,
    and whatever the interpreter takes for whitespace above ASCII, the
    characters written between double quotes for it are the body of one
    C string literal: no double quote ends the literal early and no
    backslash is left waiting at its end; and they are at most 160. *)
Theorem shorten_desc_literal (U : unicode) (desc : ustr) :
  c_literal_body (shorten_desc U desc) ∧
  (length (shorten_desc U desc) ≤ 160)%nat.
Proof.
  split; [apply escaped_c_scan, shorten_desc_escaped|apply shorten_desc_length].
Qed.

(** Characters of ASCII. *)
Lemma lstrip_Forall (U : unicode) (P : Z → Prop) (s : ustr) :
  Forall P s → Forall P (lstrip U s).
Proof.
  induction 1 as [|c s Hc Hs IH]; [done|]. cbn [lstrip].
  destruct (py_isspace U c); [done|by constructor].
Qed.

Lemma rstrip_Forall (U : unicode) (P : Z → Prop) (s : ustr) :
  Forall P s → Forall P (rstrip U s).
Proof.
  induction 1 as [|c s Hc Hs IH]; [done|]. cbn [rstrip].
  destruct (rstrip U s);
    [destruct (py_isspace U c); [constructor|by constructor]|by constructor].
Qed.

Lemma split_comma_Forall (P : Z → Prop) (s : ustr) :
  Forall P s → Forall P (split_comma s).1.
Proof.
  induction 1 as [|c s Hc Hs IH]; [done|]. cbn [split_comma].
  destruct (c =? comma); [done|].
  destruct (split_comma s) as [head tail]. by constructor.
Qed.

Lemma remove_whitespace_Forall (U : unicode) (P : Z → Prop) (s : ustr) :
  Forall P s → Forall (λ c, P c ∧ py_isspace U c = false) (remove_whitespace U s).
Proof.
  induction 1 as [|c s Hc Hs IH]; [done|]. cbn [remove_whitespace].
  destruct (py_isspace U c) eqn:Hsp; [done|by constructor].
Qed.

Lemma upper_ascii (U : unicode) (s : ustr) :
  Forall (λ c, 0 ≤ c < 128 ∧ py_isspace U c = false) s →
  length (upper U s) = length s ∧
  Forall (λ c, 0 ≤ c < 128 ∧ py_isspace U c = false ∧ ¬ 97 ≤ c ≤ 122) (upper U s).
Proof.
  induction 1 as [|c s [Hc Hsp] Hs [IHl IH]]; [done|]. cbn [upper].
  unfold upper_char. destruct (Z.ltb_spec c 128); [|lia].
  destruct (Z.leb_spec 97 c); destruct (Z.leb_spec c 122); cbn [andb app length];
    (split; [by rewrite IHl|]); constructor; try done.
  - split; [lia|]. split; [|lia]. unfold py_isspace.
    destruct (Z.ltb_spec (c - 32) 128); [|lia].
    apply orb_false_iff. split; apply andb_false_iff; right; apply Z.leb_gt; lia.
  - split; [done|]. split; [done|]. lia.
  - split; [done|]. split; [done|]. lia.
  - split; [done|]. split; [done|]. lia.
Qed.

Lemma gg_line_normal (U : unicode) (line code : ustr) (desc : option ustr) :
  gg_line U line = Some (code, desc) →
  (∀ d, desc = Some d → c_literal_body d ∧ (length d ≤ 160)%nat) ∧
  (Forall (λ c, 0 ≤ c < 128) line →
   code ≠ [] ∧
   Forall (λ c, 0 ≤ c < 128 ∧ py_isspace U c = false ∧ ¬ 97 ≤ c ≤ 122) code).
Proof.
  unfold gg_line. destruct (bool_decide (strip U line = [])); [done|].
  destruct (split_comma (strip U line)) as [head tail] eqn:Hsplit.
  destruct (bool_decide_reflect (remove_whitespace U head = [])) as [|Hne]; [done|].
  intros [= <- <-]. split.
  - intros d. destruct tail as [t|]; [|done]. intros [= <-].
    split; [apply escaped_c_scan, shorten_desc_escaped|apply shorten_desc_length].
  - intros Hascii.
    assert (Forall (λ c, 0 ≤ c < 128) head) as Hhead.
    { replace head with (split_comma (strip U line)).1 by (by rewrite Hsplit).
      apply split_comma_Forall, rstrip_Forall, lstrip_Forall, Hascii. }
    apply (remove_whitespace_Forall U) in Hhead.
    apply upper_ascii in Hhead as [Hlen Hup]. split; [|done].
    intros Hnil. rewrite Hnil in Hlen. cbn [length] in Hlen.
    destruct (remove_whitespace U head); done.
Qed.

(** Lines 363-398.  The cheat codes read from a [.ggcodes] file: at
    most 16 of them, in the order of the file, and each description is
    the body of one C string literal of at most 160 characters.  A code
    that comes from a line of ASCII characters is not empty and holds
    ASCII characters that are neither whitespace nor small letters. *)
Theorem gg_codes_normal (U : unicode) (lines : list ustr) :
  len (gg_codes U lines) ≤ MAX_CHEAT_CODES ∧
  gg_codes U lines = take (Z.to_nat MAX_CHEAT_CODES) (omap (gg_line U) lines) ∧
  Forall (λ cd : ustr * option ustr,
            ∀ d, cd.2 = Some d → c_literal_body d ∧ (length d ≤ 160)%nat)
         (gg_codes U lines) ∧
  (Forall (Forall (λ c, 0 ≤ c < 128)) lines →
   Forall (λ cd : ustr * option ustr,
             cd.1 ≠ [] ∧
             Forall (λ c, 0 ≤ c < 128 ∧ py_isspace U c = false ∧ ¬ 97 ≤ c ≤ 122) cd.1)
          (gg_codes U lines)).
Proof.
  assert (gg_codes U lines = take (Z.to_nat MAX_CHEAT_CODES) (omap (gg_line U) lines))
    as Heq.
  { unfold gg_codes.
    destruct (Z.gtb_spec (len (omap (gg_line U) lines)) MAX_CHEAT_CODES); [done|].
    symmetry. apply take_ge. unfold len in *. lia. }
  split; [|split; [exact Heq|split]].
  - rewrite Heq. unfold len. rewrite length_take. unfold MAX_CHEAT_CODES. lia.
  - rewrite Heq. apply Forall_take. apply Forall_forall.
    intros [code desc] Hin. apply list_elem_of_omap in Hin as (line & _ & Hline).
    cbn [fst snd]. by eapply gg_line_normal.
  - intros Hascii. rewrite Heq. apply Forall_take. apply Forall_forall.
    intros [code desc] Hin. apply list_elem_of_omap in Hin as (line & Hl & Hline).
    cbn [fst snd]. eapply gg_line_normal; [exact Hline|].
    rewrite Forall_forall in Hascii. by apply Hascii.
Qed.

(** Lines 416-420.  The length given to a cheat of the comma format of
    a [.mcf] file is 1 or 2, never 4: the test for values above
    [0xffff] comes after the test for values above [0xff] in the same
    chain, so a value above [0xffff] gets length 2. *)
Theorem mcf_length_never_4 (value : Z) :
  (mcf_length value = 1 ∨ mcf_length value = 2) ∧
  (value ≤ 0xff → mcf_length value = 1) ∧
  (0xff < value → mcf_length value = 2).
Proof.
  unfold mcf_length. destruct (Z.gtb_spec value 255).
  - split; [by right|]. split; [lia|done].
  - destruct (Z.gtb_spec value 65535); [lia|].
    split; [by left|]. split; [done|lia].
Qed.

Example gg_codes_sample :
  gg_codes sample_unicode
    (ustr_of_string <$> ["  ab cd , Infinite lives  "; "   "; "zz9"]%string) =
  [(ustr_of_string "ABCD", Some (ustr_of_string "Infinite lives"));
   (ustr_of_string "ZZ9", None)].
Proof. reflexivity. Qed.

(** ** Cover images *)

(** The two programs that follow a rom or a cover image: the object
    copier writes [path], the archiver then writes [build/roms.a]. *)
Lemma object_steps (T : tools) (reverse update : bool) (input : option bytes)
    (path : string) {A} (x : A) (s : store) :
  let run :=
    (obj ← lift (objcopy T reverse input);
     _ ← write_out path obj;
     s ← get_store;
     archive ← lift (ar T update (f_data <$> outs s !! "build/roms.a"%string) path obj);
     _ ← write_out "build/roms.a" archive;
     mret x) s in
  roms run.2 = roms s ∧
  (∀ q, is_Some (outs s !! q) → is_Some (outs run.2 !! q)) ∧
  (∀ q, q ≠ path → q ≠ "build/roms.a"%string → outs run.2 !! q = outs s !! q) ∧
  (∀ y s', run = (Ok y, s') →
     y = x ∧
     ∃ obj archive,
       objcopy T reverse input = Ok obj ∧
       ar T update (if decide (path = "build/roms.a"%string) then Some obj
                    else f_data <$> outs s !! "build/roms.a"%string) path obj =
         Ok archive ∧
       f_data <$> outs s' !! "build/roms.a"%string = Some archive ∧
       (path ≠ "build/roms.a"%string → f_data <$> outs s' !! path = Some obj)).
Proof.
  cbv zeta. unfold mbind, D_bind, lift, write_out, get_store, mret, D_ret.
  destruct (objcopy T reverse input) as [obj|e]; cbv beta iota.
  2: { split; [done|]. split; [done|]. split; [done|]. by intros y s' [=]. }
  cbn [tick set_outs outs roms].
  assert (f_data <$> <[path:=File obj (clock s)]> (outs s) !! "build/roms.a"%string =
          if decide (path = "build/roms.a"%string) then Some obj
          else f_data <$> outs s !! "build/roms.a"%string) as ->.
  { destruct (decide _) as [->|Hne]; [by rewrite lookup_insert_eq|].
    by rewrite lookup_insert_ne. }
  destruct (ar T update _ path obj) as [archive|e] eqn:Har; cbv beta iota;
    cbn [fst snd tick set_outs outs roms clock].
  - split; [done|]. split.
    { intros q Hq. apply lookup_insert_is_Some'. right.
      apply lookup_insert_is_Some'. by right. }
    split.
    { intros q Hq1 Hq2. by rewrite !lookup_insert_ne. }
    intros y s' [= <- <-]. split; [done|]. exists obj, archive.
    cbn [outs tick set_outs]. split; [done|]. split; [done|].
    rewrite lookup_insert_eq. split; [done|]. intros Hne.
    rewrite lookup_insert_ne by done. by rewrite lookup_insert_eq.
  - split; [done|]. split.
    { intros q Hq. apply lookup_insert_is_Some'. by right. }
    split; [|by intros y s' [=]].
    intros q Hq1 Hq2. by rewrite lookup_insert_ne.
Qed.

Lemma generate_img_object_file_unfold (T : tools) (rom : ROM) (w h : Z) (s : store) :
  generate_img_object_file T rom w h s =
  let pictures := (λ e, (filename rom ++ e)%string) <$>
    [".png"; ".PNG"; ".Png"; ".jpg"; ".JPG"; ".Jpg";
     ".jpeg"; ".JPEG"; ".Jpeg"; ".bmp"; ".BMP"; ".Bmp"]%string in
  let written :=
    match list_find (λ img, is_Some (rom_lookup (rom_folder rom) img s)) pictures with
    | Some (_, img) =>
        src ← read_rom (rom_folder rom) img;
        cover ← lift (covart T src w h);
        write_rom (rom_folder rom) (img_file rom) cover
    | None => mret ()
    end s in
  match written with
  | (Ok _, s1) =>
      match rom_lookup (rom_folder rom) (img_file rom) s1 with
      | Some f =>
          (obj ← lift (objcopy T false (Some (f_data f)));
           _ ← write_out (obj_img rom) obj;
           s ← get_store;
           archive ← lift (ar T true (f_data <$> outs s !! "build/roms.a"%string)
                              (obj_img rom) obj);
           _ ← write_out "build/roms.a" archive;
           mret (Some (ItImage rom w h))) s1
      | None => (Ok None, s1)
      end
  | (Raise e, s1) => (Raise e, s1)
  end.
Proof.
  cbv zeta. unfold generate_img_object_file.
  unfold mbind at 1, D_bind at 1, get_store at 1. cbv beta iota.
  unfold mbind at 1, D_bind at 1.
  match goal with
  | |- (let (_, _) := ?written in _) = _ => destruct written as [[[]|e] s1]
  end; [|done].
  unfold mbind at 1, D_bind at 1, get_store at 1. cbv beta iota.
  by destruct (rom_lookup (rom_folder rom) (img_file rom) s1).
Qed.

(** Lines 645-700.  Where the cover image of a rom comes from, and
    what is made of it.  The pictures beside the rom are tried in the
    order [.png], [.PNG], [.Png], [.jpg], [.JPG], [.Jpg], [.jpeg],
    [.JPEG], [.Jpeg], [.bmp], [.BMP], [.Bmp]; the first that exists is
    converted and the result written to [<filename>.img], replacing what
    was there, and no other file under [roms/] changes, whatever the
    programs run afterwards do.  With no picture the files under
    [roms/] stay as they are, and without an [.img] file left by an
    earlier run there is no artwork ([None] stands for
    [NoArtworkError]) and the whole disk is as it was.  When the call
    returns artwork, the [.img] file was there, the object copier made
    the rom's image object from it, and the archiver, called with
    [-cru], made [build/roms.a] from the archive and that object; no
    file is removed, and no other file outside [roms/] changes. *)
Theorem cover_image_source (T : tools) (rom : ROM) (w h : Z) (s : store) :
  let pictures := (λ e, (filename rom ++ e)%string) <$>
    [".png"; ".PNG"; ".Png"; ".jpg"; ".JPG"; ".Jpg";
     ".jpeg"; ".JPEG"; ".Jpeg"; ".bmp"; ".BMP"; ".Bmp"]%string in
  let run := generate_img_object_file T rom w h s in
  ((∀ img, img ∈ pictures → rom_lookup (rom_folder rom) img s = None) →
   roms run.2 = roms s ∧
   (rom_lookup (rom_folder rom) (img_file rom) s = None → run = (Ok None, s))) ∧
  (∀ (i : nat) img pic cover,
     pictures !! i = Some img →
     rom_lookup (rom_folder rom) img s = Some pic →
     (∀ (j : nat) img', (j < i)%nat → pictures !! j = Some img' →
                        rom_lookup (rom_folder rom) img' s = None) →
     covart T (f_data pic) w h = Ok cover →
     f_data <$> rom_lookup (rom_folder rom) (img_file rom) run.2 = Some cover ∧
     ∀ folder file_name,
       (folder, file_name) ≠ (rom_folder rom, img_file rom) →
       rom_lookup folder file_name run.2 = rom_lookup folder file_name s) ∧
  (∀ q, is_Some (outs s !! q) → is_Some (outs run.2 !! q)) ∧
  (∀ q, q ≠ obj_img rom → q ≠ "build/roms.a"%string → outs run.2 !! q = outs s !! q) ∧
  (∀ it, run.1 = Ok (Some it) →
     it = ItImage rom w h ∧
     ∃ f obj archive,
       rom_lookup (rom_folder rom) (img_file rom) run.2 = Some f ∧
       objcopy T false (Some (f_data f)) = Ok obj ∧
       ar T true (if decide (obj_img rom = "build/roms.a"%string) then Some obj
                  else f_data <$> outs s !! "build/roms.a"%string) (obj_img rom) obj =
         Ok archive ∧
       f_data <$> outs run.2 !! "build/roms.a"%string = Some archive ∧
       (obj_img rom ≠ "build/roms.a"%string →
        f_data <$> outs run.2 !! obj_img rom = Some obj)).
Proof.
  cbv zeta. rewrite generate_img_object_file_unfold. cbv zeta.
  set (pictures := (λ e, (filename rom ++ e)%string) <$> _).
  match goal with
  | |- context [let (_, _) := ?w in _] => set (written := w)
  end.
  assert (∃ r s1, written = (r, s1) ∧ outs s1 = outs s ∧
            ((∀ img, img ∈ pictures → rom_lookup (rom_folder rom) img s = None) →
             r = Ok () ∧ s1 = s) ∧
            (∀ (i : nat) img pic cover,
               pictures !! i = Some img →
               rom_lookup (rom_folder rom) img s = Some pic →
               (∀ (j : nat) img', (j < i)%nat → pictures !! j = Some img' →
                                  rom_lookup (rom_folder rom) img' s = None) →
               covart T (f_data pic) w h = Ok cover →
               r = Ok () ∧
               f_data <$> rom_lookup (rom_folder rom) (img_file rom) s1 = Some cover ∧
               ∀ folder file_name,
                 (folder, file_name) ≠ (rom_folder rom, img_file rom) →
                 rom_lookup folder file_name s1 = rom_lookup folder file_name s))
    as (r & s1 & -> & Houts & Hnone & Hsome).
  { subst written.
    destruct (list_find (λ img, is_Some (rom_lookup (rom_folder rom) img s)) pictures)
      as [[i0 img0]|] eqn:Hfind.
    - apply list_find_Some in Hfind as (Hi0 & [pic0 Hpic0] & Hfirst0).
      unfold mbind, D_bind, read_rom, lift. rewrite Hpic0. cbv beta iota.
      destruct (covart T (f_data pic0) w h) as [cover0|e] eqn:Hcov; cbv beta iota.
      + pose proof (write_rom_frame (rom_folder rom) (img_file rom) cover0 s)
          as (Hwo & _ & _ & Hframe).
        destruct (write_rom_lookup (rom_folder rom) (img_file rom) cover0 s)
          as (s1 & Hw & Hs1).
        { unfold rom_lookup in Hpic0.
          destruct (roms s !! rom_folder rom); [by eexists|done]. }
        rewrite Hw in Hwo, Hframe |- *. cbn [snd] in Hwo, Hframe.
        exists (Ok ()), s1. split; [done|]. split; [done|]. split.
        * intros Hn. rewrite (Hn img0) in Hpic0; [done|].
          by eapply list_elem_of_lookup_2.
        * intros i img pic cover Hi Hpic Hfirst Hcover.
          assert (i = i0) as ->.
          { destruct (Nat.lt_trichotomy i i0) as [Hlt|[->|Hlt]]; [|done|].
            - exfalso. apply (Hfirst0 i img Hi Hlt). by eexists.
            - rewrite (Hfirst i0 img0 Hlt Hi0) in Hpic0. done. }
          assert (img = img0) as -> by congruence.
          assert (pic = pic0) as -> by congruence.
          assert (cover = cover0) as -> by congruence.
          done.
      + exists (Raise e), s. split; [done|]. split; [done|]. split.
        * intros Hn. rewrite (Hn img0) in Hpic0; [done|].
          by eapply list_elem_of_lookup_2.
        * intros i img pic cover Hi Hpic Hfirst Hcover. exfalso.
          assert (i = i0) as ->.
          { destruct (Nat.lt_trichotomy i i0) as [Hlt|[->|Hlt]]; [|done|].
            - exfalso. apply (Hfirst0 i img Hi Hlt). by eexists.
            - rewrite (Hfirst i0 img0 Hlt Hi0) in Hpic0. done. }
          assert (img = img0) as -> by congruence.
          assert (pic = pic0) as -> by congruence. congruence.
    - exists (Ok ()), s. split; [done|]. split; [done|]. split; [done|].
      intros i img pic cover Hi Hpic Hfirst Hcover. exfalso.
      apply list_find_None in Hfind. rewrite Forall_forall in Hfind.
      apply (Hfind img); [by eapply list_elem_of_lookup_2|by eexists]. }
  destruct r as [[]|e]; cbv beta iota.
  2: { cbn [fst snd]. rewrite Houts.
       split; [intros Hn; by destruct (Hnone Hn)|].
       split; [intros i img pic cover Hi Hpic Hfirst Hcover;
               by destruct (Hsome i img pic cover Hi Hpic Hfirst Hcover)|].
       split; [done|]. split; [done|]. by intros it [=]. }
  destruct (rom_lookup (rom_folder rom) (img_file rom) s1) as [f|] eqn:Hf.
  - pose proof (object_steps T false true (Some (f_data f)) (obj_img rom)
                  (Some (ItImage rom w h)) s1) as Hsteps.
    cbv zeta in Hsteps.
    match type of Hsteps with
    | roms (?r).2 = _ ∧ _ => set (run := r) in *
    end.
    destruct Hsteps as (Hroms & Hgrow & Hframe & Hret).
    assert (∀ folder file_name,
              rom_lookup folder file_name run.2 = rom_lookup folder file_name s1) as Hlook.
    { intros folder file_name. unfold rom_lookup. by rewrite Hroms. }
    split.
    { intros Hn. destruct (Hnone Hn) as [_ ->]. split; [done|].
      intros Hno. by rewrite Hno in Hf. }
    split.
    { intros i img pic cover Hi Hpic Hfirst Hcover.
      destruct (Hsome i img pic cover Hi Hpic Hfirst Hcover) as (_ & Hc & Hfr).
      rewrite Hlook, Hf. split; [done|]. intros folder file_name Hne.
      rewrite Hlook. by apply Hfr. }
    split; [intros q Hq; apply Hgrow; by rewrite Houts|].
    split; [intros q Hq1 Hq2; rewrite Hframe by done; by rewrite Houts|].
    intros it Hit. destruct run as [y s2] eqn:Hrun. cbn [fst snd] in *. subst y.
    destruct (Hret _ _ eq_refl) as ([= <-] & obj & archive & Hobj & Har & Ha & Ho).
    split; [done|]. exists f, obj, archive. rewrite Hlook, <- Houts. done.
  - unfold mret, D_ret. cbn [fst snd].
    split.
    { intros Hn. destruct (Hnone Hn) as [_ ->]. done. }
    split.
    { intros i img pic cover Hi Hpic Hfirst Hcover.
      destruct (Hsome i img pic cover Hi Hpic Hfirst Hcover) as (_ & Hc & Hfr).
      done. }
    split; [by rewrite Houts|]. split; [by rewrite Houts|]. by intros it [=].
Qed.

(** ** The table file of a family *)

Lemma keeps_file_ret (path : string) {A} (x : A) : keeps_file path (mret x : M A).
Proof. by intros s l. Qed.

Lemma keeps_file_bind (path : string) {A B} (m : M A) (f : A → M B) :
  keeps_file path m → (∀ x, keeps_file path (f x)) → keeps_file path (m ≫= f).
Proof.
  intros Hm Hf s l Hs. unfold mbind, M_bind. specialize (Hm s l Hs).
  destruct (m (s, l)) as [[x|e] [s1 l1]]; cbn [fst snd] in *; [|done].
  by apply Hf.
Qed.

Lemma keeps_file_disk (path : string) {A} (m : D A) :
  keeps_outs m → keeps_file path (disk m).
Proof.
  intros Hm s l Hs. unfold disk. cbn [fst snd]. specialize (Hm s).
  destruct (m s) as [r s1]. cbn [fst snd] in *. by rewrite Hm.
Qed.

Lemma keeps_file_record (path : string) (f : log → log) : keeps_file path (record f).
Proof. by intros s l. Qed.

Lemma keeps_file_for_each_M (path : string) {A B} (body : B → A → M B) (acc : B)
    (xs : list A) :
  (∀ acc x, keeps_file path (body acc x)) → keeps_file path (for_each_M body acc xs).
Proof.
  intros Hbody. revert acc. induction xs as [|x xs IH]; intros acc; simpl.
  - apply keeps_file_ret.
  - apply keeps_file_bind; [apply Hbody|]. intros acc'. apply IH.
Qed.

Lemma keeps_file_f_write (T : tools) (path file : string) (it : item) :
  keeps_file path (f_write T file it).
Proof.
  unfold f_write. apply keeps_file_bind; [|intros; apply keeps_file_record].
  intros s l Hs. unfold disk, append_out. cbn [fst snd].
  destruct (outs s !! file) as [f|]; [|done]. cbn [fst snd tick set_outs outs].
  apply lookup_insert_is_Some'. by right.
Qed.

Lemma read_only_get_store : read_only get_store.
Proof. by intros s. Qed.

Lemma grows_outs_keeps {A} (m : D A) : keeps_outs m → grows_outs m.
Proof. intros Hm s q Hq. by rewrite Hm. Qed.

Lemma grows_outs_bind {A B} (m : D A) (f : A → D B) :
  grows_outs m → (∀ x, grows_outs (f x)) → grows_outs (m ≫= f).
Proof.
  intros Hm Hf s q Hq. unfold mbind, D_bind. specialize (Hm s q Hq).
  destruct (m s) as [[x|e] s1]; cbn [snd] in *; [|done]. by apply Hf.
Qed.

Lemma grows_outs_for_each {A B} (body : B → A → D B) (acc : B) (l : list A) :
  (∀ acc x, grows_outs (body acc x)) → grows_outs (for_each body acc l).
Proof.
  intros Hbody. revert acc. induction l as [|x l IH]; intros acc; simpl.
  - by intros s q Hq.
  - apply grows_outs_bind; [apply Hbody|]. intros acc'. apply IH.
Qed.

Lemma grows_outs_write_out (path : string) (data : bytes) :
  grows_outs (write_out path data).
Proof.
  intros s q Hq. unfold write_out. cbn [snd tick set_outs outs].
  apply lookup_insert_is_Some'. by right.
Qed.

Lemma keeps_file_grows (path : string) {A} (m : D A) :
  grows_outs m → keeps_file path (disk m).
Proof.
  intros Hm s l Hs. unfold disk. cbn [fst snd]. specialize (Hm s path Hs).
  by destruct (m s) as [r s1].
Qed.

Lemma grows_outs_generate_object_file (T : tools) (rom : ROM) (system : string) :
  grows_outs (generate_object_file T rom system).
Proof.
  intros s q Hq. unfold generate_object_file.
  unfold mbind at 1, D_bind at 1, get_store at 1. cbv beta iota.
  by apply object_steps.
Qed.

Lemma grows_outs_generate_img_object_file (T : tools) (rom : ROM) (w h : Z) :
  grows_outs (generate_img_object_file T rom w h).
Proof.
  unfold generate_img_object_file.
  apply grows_outs_bind;
    [apply grows_outs_keeps, keeps_outs_read_only, read_only_get_store|].
  intros s0. apply grows_outs_bind.
  { apply grows_outs_keeps. destruct (list_find _ _) as [[i img]|]; [|apply keeps_outs_ret].
    apply keeps_outs_bind; [apply keeps_outs_read_only, read_only_read_rom|].
    intros src. apply keeps_outs_bind; [apply keeps_outs_read_only, read_only_lift|].
    intros cover s. apply write_rom_frame. }
  intros []. apply grows_outs_bind;
    [apply grows_outs_keeps, keeps_outs_read_only, read_only_get_store|].
  intros s1. destruct (rom_lookup _ _ _) as [f|];
    [|apply grows_outs_keeps, keeps_outs_ret].
  intros s q Hq. by apply object_steps.
Qed.

Lemma read_only_rom_img_size (rom : ROM) : read_only (rom_img_size rom).
Proof. intros s. unfold rom_img_size. by destruct (rom_lookup _ _ _). Qed.

Lemma keeps_file_emit_rom (T : tools) (a : args) (path : string)
    (file system folder save_prefix : string) (cheat : option string) (w h : Z)
    (t : totals) (ir : Z * ROM) :
  keeps_file path (emit_rom T a file system folder save_prefix cheat w h t ir).
Proof.
  destruct ir as [i rom]. unfold emit_rom.
  destruct (negb (publish rom)); [apply keeps_file_ret|].
  apply keeps_file_bind.
  { apply keeps_file_disk, keeps_outs_read_only.
    destruct (String.eqb folder "gb"); [apply read_only_get_gameboy_save_size|].
    destruct (_ && _); [apply read_only_get_nes_save_size|apply read_only_ret]. }
  intros save_sz. apply keeps_file_bind.
  { apply keeps_file_disk, keeps_outs_read_only, read_only_stat_size. }
  intros size. apply keeps_file_bind.
  { apply keeps_file_disk, keeps_outs_read_only.
    destruct (negb _); [apply read_only_rom_img_size|apply read_only_ret]. }
  intros img_size. apply keeps_file_bind;
    [apply keeps_file_grows, grows_outs_generate_object_file|].
  intros obj. apply keeps_file_bind; [apply keeps_file_f_write|]. intros [].
  apply keeps_file_bind.
  { destruct (negb _); [|apply keeps_file_ret].
    apply keeps_file_bind;
      [apply keeps_file_grows, grows_outs_generate_img_object_file|].
    intros [it|]; [apply keeps_file_f_write|apply keeps_file_ret]. }
  intros []. apply keeps_file_bind.
  { destruct (enable_save rom); [apply keeps_file_f_write|apply keeps_file_ret]. }
  intros []. apply keeps_file_bind; [|intros; apply keeps_file_ret].
  destruct cheat as [p|]; [|apply keeps_file_ret].
  destruct (String.eqb p ""); [apply keeps_file_ret|apply keeps_file_f_write].
Qed.

Lemma grows_outs_read_only {A} (m : D A) : read_only m → grows_outs m.
Proof. intros Hm. by apply grows_outs_keeps, keeps_outs_read_only. Qed.

Lemma grows_outs_rom_mapper (T : tools) (rom : ROM) : grows_outs (rom_mapper T rom).
Proof.
  unfold rom_mapper. apply grows_outs_bind.
  { destruct (String.eqb _ _); [|apply grows_outs_read_only, read_only_ret].
    apply grows_outs_bind; [apply grows_outs_read_only, read_only_get_store|].
    intros s. apply grows_outs_read_only, read_only_lift. }
  intros mapper. destruct (String.eqb _ _); [|apply grows_outs_read_only, read_only_ret].
  apply grows_outs_bind; [apply grows_outs_read_only, read_only_get_store|].
  intros s. apply grows_outs_bind; [apply grows_outs_read_only, read_only_lift|].
  intros out. apply grows_outs_bind;
    [|intros; apply grows_outs_read_only, read_only_ret].
  destruct (out.2); [apply grows_outs_write_out|apply grows_outs_read_only, read_only_ret].
Qed.

Lemma read_only_rom_game_config (T : tools) (rom : ROM) :
  read_only (rom_game_config T rom).
Proof.
  unfold rom_game_config. destruct (String.eqb _ _); [|apply read_only_ret].
  apply read_only_bind; [apply read_only_get_store|]. intros s.
  apply read_only_bind; [apply read_only_lift|]. intros sp_output.
  apply read_only_bind; [apply read_only_lift|]. intros x0.
  apply read_only_bind; [apply read_only_lift|]. intros x1. apply read_only_ret.
Qed.

Lemma grows_outs_generate_rom_entries (T : tools) (name : string) (roms0 : list ROM) :
  grows_outs (generate_rom_entries T name roms0).
Proof.
  unfold generate_rom_entries.
  apply grows_outs_bind; [|intros; apply grows_outs_read_only, read_only_ret].
  apply grows_outs_for_each. intros [body pubcount] [i rom].
  destruct (negb (publish rom)); [apply grows_outs_read_only, read_only_ret|].
  apply grows_outs_bind; [apply grows_outs_read_only, read_only_stat_size|].
  intros size. apply grows_outs_bind;
    [apply grows_outs_read_only, read_only_rom_img_size|].
  intros img_size. apply grows_outs_bind; [apply grows_outs_rom_mapper|].
  intros mapper. apply grows_outs_bind;
    [apply grows_outs_read_only, read_only_rom_game_config|].
  intros game_config. apply grows_outs_read_only, read_only_ret.
Qed.

Lemma read_only_larger_rom_size_of (roms_uncompressed : list ROM) :
  read_only (larger_rom_size_of roms_uncompressed).
Proof.
  apply read_only_for_each. intros acc r.
  destruct (bool_decide _); [|apply read_only_ret].
  apply read_only_bind; [apply read_only_stat_size|]. intros. apply read_only_ret.
Qed.

(** Lines 1061-1119.  When [generate_system] returns, the family's
    table file is on the disk, whether or not the family has a rom: the
    file is opened for writing before the loop over the roms, and
    nothing that follows removes it. *)
Theorem table_file_written (T : tools) (a : args)
    (file system variable_name folder : string) (extensions : list string)
    (save_prefix : string) (defs : romdefs) (cheat_codes_prefix : option string)
    (current_id : Z) (compress : option string) (speed : bool)
    (sl sl' : store * log) (r : Z * Z * Z * Z * Z * Z) :
  generate_system T a file system variable_name folder extensions save_prefix
                  defs cheat_codes_prefix current_id compress speed sl = (Ok r, sl') →
  is_Some (outs sl'.1 !! file).
Proof.
  unfold generate_system. intros H.
  apply M_bind_Ok in H as (s0 & sl0 & _ & H).
  apply M_bind_Ok in H as ([roms roms_uncompressed] & sl1 & _ & H).
  apply M_bind_Ok in H as ([roms' cid] & sl2 & _ & H).
  destruct (_ >? 18600); [by destruct sl2, sl'|].
  apply M_bind_Ok in H as ([] & [s3 l3] & Hopen & H).
  assert (is_Some (outs s3 !! file)) as Hfile.
  { destruct sl2 as [s2 l2]. apply disk_Ok in Hopen as [Hopen _].
    unfold write_out in Hopen. injection Hopen as <-.
    cbn [tick set_outs outs]. rewrite lookup_insert_eq. by eexists. }
  match type of H with
  | ?rest (s3, l3) = _ =>
      assert (keeps_file file rest) as Hkeep
  end.
  { apply keeps_file_bind; [apply keeps_file_f_write|]. intros [].
    apply keeps_file_bind.
    { apply keeps_file_for_each_M. intros. apply keeps_file_emit_rom. }
    intros t. apply keeps_file_bind.
    { apply keeps_file_grows, grows_outs_generate_rom_entries. }
    intros rom_entries. apply keeps_file_bind; [apply keeps_file_f_write|]. intros [].
    apply keeps_file_bind; [apply keeps_file_f_write|]. intros [].
    apply keeps_file_bind; [|intros; apply keeps_file_ret].
    apply keeps_file_disk, keeps_outs_read_only, read_only_larger_rom_size_of. }
  specialize (Hkeep s3 l3 Hfile). by rewrite H in Hkeep.
Qed.

Lemma table_file_written_witness :
  let sl := (sample_store [("gw", [("ball.gw", zeros 3)])]%string [] None, log0) in
  ∃ sl',
    generate_system sample_tools default_args "Core/Src/retro-go/gw_roms.c"
      "Game & Watch" "gw_system" "gw" ["gw"]%string "SAVE_GW_" empty_romdefs
      None 0 None false sl = (Ok (4096, 4096, 3, 0, 1, 0), sl') ∧
    is_Some (outs sl'.1 !! "Core/Src/retro-go/gw_roms.c"%string).
Proof.
  cbv zeta.
  assert ((generate_system sample_tools default_args "Core/Src/retro-go/gw_roms.c"
             "Game & Watch" "gw_system" "gw" ["gw"]%string "SAVE_GW_" empty_romdefs
             None 0 None false
             (sample_store [("gw", [("ball.gw", zeros 3)])]%string [] None, log0)).1 =
          Ok (4096, 4096, 3, 0, 1, 0)) as H1 by (vm_compute; reflexivity).
  destruct (generate_system sample_tools default_args "Core/Src/retro-go/gw_roms.c"
             "Game & Watch" "gw_system" "gw" ["gw"]%string "SAVE_GW_" empty_romdefs
             None 0 None false
             (sample_store [("gw", [("ball.gw", zeros 3)])]%string [] None, log0))
    as [r sl'] eqn:H.
  cbn [fst] in H1. subst r. exists sl'. split; [reflexivity|].
  exact (table_file_written _ _ _ _ _ _ _ _ _ _ _ _ _ _ _ _ H).
Defined.

(** ** Families that are given no compression method *)

Lemma only_missing_ret {A} (x : A) : only_missing (mret x : D A).
Proof. by intros s. Qed.

Lemma only_missing_bind {A B} (m : D A) (f : A → D B) :
  only_missing m → (∀ x, only_missing (f x)) → only_missing (m ≫= f).
Proof.
  intros Hm Hf s. unfold mbind, D_bind. destruct (Hm s) as [Hs He].
  destruct (m s) as [[x|e] s1]; cbn [fst snd] in *; subst s1.
  - apply Hf.
  - split; [done|]. intros e' [= <-]. by apply He.
Qed.

Lemma only_missing_for_each {A B} (body : B → A → D B) (acc : B) (l : list A) :
  (∀ acc x, only_missing (body acc x)) → only_missing (for_each body acc l).
Proof.
  intros Hbody. revert acc. induction l as [|x l IH]; intros acc; simpl.
  - apply only_missing_ret.
  - apply only_missing_bind; [apply Hbody|]. intros acc'. apply IH.
Qed.

Lemma only_missing_find_roms (T : tools) (a : args) (system folder extension : string)
    (defs : romdefs) :
  only_missing (find_roms T a system folder extension defs).
Proof.
  intros s. destruct (find_roms_spec T a system folder extension defs s)
    as (files & -> & _).
  destruct (roms s !! folder); cbn [fst snd]; (split; [done|]); [done|].
  by intros e [= <-].
Qed.

Lemma only_missing_find_roms_of (T : tools) (a : args) (system folder : string)
    (extensions : list string) (defs : romdefs) :
  only_missing (find_roms_of T a system folder extensions defs).
Proof.
  apply only_missing_for_each. intros acc e.
  apply only_missing_bind; [apply only_missing_find_roms|]. intros. apply only_missing_ret.
Qed.

Lemma only_missing_find_cdk_disks (T : tools) (a : args) (system folder : string)
    (defs : romdefs) :
  only_missing (find_cdk_disks T a system folder defs).
Proof.
  apply only_missing_bind; [apply only_missing_find_roms|]. intros. apply only_missing_ret.
Qed.

Lemma _convert_dsk_other_family (T : tools) (variable_name : string) (dsk : ROM)
    (compress : option string) (s : store) :
  contains variable_name "msx_system" = false →
  contains variable_name "amstrad_system" = false →
  _convert_dsk T variable_name dsk compress s = (Ok (), s).
Proof.
  intros Hmsx Hams. unfold _convert_dsk. destruct (negb (publish dsk)); [done|].
  by rewrite Hmsx, Hams.
Qed.

Lemma filter_all {A} (P : A → Prop) `{!∀ x, Decision (P x)} (l : list A) :
  (∀ x, P x) → filter P l = l.
Proof.
  intros HP. induction l as [|x l IH]; [done|].
  rewrite filter_cons_True by done. by rewrite IH.
Qed.

Lemma collect_roms_None (T : tools) (a : args)
    (system variable_name folder : string) (extensions : list string)
    (defs : romdefs) (speed : bool) (s : store) :
  contains variable_name "msx_system" = false →
  contains variable_name "amstrad_system" = false →
  collect_roms T a system variable_name folder extensions defs None speed s =
  match find_roms_of T a system folder extensions defs s with
  | (Ok roms_raw, _) =>
      match find_cdk_disks T a system folder defs s with
      | (Ok cdk_disks, _) =>
          (Ok (filter (λ r, contains_rom_by_name r cdk_disks = false) roms_raw
               ++ cdk_disks, roms_raw), s)
      | (Raise e, _) => (Raise e, s)
      end
  | (Raise e, _) => (Raise e, s)
  end.
Proof.
  intros Hmsx Hams.
  unfold collect_roms. unfold mbind at 1, D_bind at 1.
  destruct (only_missing_find_roms_of T a system folder extensions defs s) as [Hs _].
  destruct (find_roms_of T a system folder extensions defs s) as [[roms_raw|e] s1];
    cbn [fst snd] in *; subst s1; [|done].
  unfold mbind at 1, D_bind at 1.
  destruct (only_missing_find_cdk_disks T a system folder defs s) as [Hs _].
  destruct (find_cdk_disks T a system folder defs s) as [[cdk_disks|e] s1] eqn:Hcdk;
    cbn [fst snd] in *; subst s1; [|done].
  assert ((if bool_decide
                (filter (λ r, rom_ext r = "dsk"%string)
                   (filter (λ r, contains_rom_by_name r cdk_disks = false) roms_raw) ≠ [])
           then
             for_each (λ _ r, _convert_dsk T variable_name r None) ()
               (filter (λ r, rom_ext r = "dsk"%string)
                  (filter (λ r, contains_rom_by_name r cdk_disks = false) roms_raw))
             ≫= λ _, find_cdk_disks T a system folder defs
           else mret cdk_disks) s = (Ok cdk_disks, s)) as Hconv.
  { destruct (bool_decide _); [|done].
    unfold mbind, D_bind.
    assert (∀ l, for_each (λ _ r, _convert_dsk T variable_name r None) () l s = (Ok (), s))
      as ->; [|exact Hcdk].
    induction l as [|r l IH]; [done|]. cbn [for_each]. unfold mbind, D_bind.
    by rewrite _convert_dsk_other_family. }
  unfold mbind at 1, D_bind at 1. rewrite Hconv.
  unfold find_compressed_roms.
  unfold mbind, D_bind, mret, D_ret. rewrite andb_false_r.
  unfold merge_roms. cbn [app contains_rom_by_name existsb].
  rewrite !filter_all by done. done.
Qed.

(** Lines 945-1030, for a family that [parse] gives no compression
    method (sms, gg, md, col, sg, gw and the two bios families) or that
    is run without [--compress], disk images apart: [generate_system]
    collects its roms without touching the disk, nothing is compressed
    or converted, the only failure is a missing folder, and the list is
    the raw roms found, those with a [.cdk] file of their name replaced
    by the [.cdk] files, which come last. *)
Theorem uncompressed_family_untouched (T : tools) (a : args)
    (system variable_name folder : string) (extensions : list string)
    (defs : romdefs) (speed : bool) (s : store) :
  contains variable_name "msx_system" = false →
  contains variable_name "amstrad_system" = false →
  let run := collect_roms T a system variable_name folder extensions defs None speed s in
  run.2 = s ∧
  (∀ e, run.1 = Raise e → e = FileNotFoundError) ∧
  (∀ roms roms_uncompressed,
     run.1 = Ok (roms, roms_uncompressed) →
     ∃ cdk_disks,
       find_roms_of T a system folder extensions defs s = (Ok roms_uncompressed, s) ∧
       find_cdk_disks T a system folder defs s = (Ok cdk_disks, s) ∧
       roms = filter (λ r, contains_rom_by_name r cdk_disks = false) roms_uncompressed
              ++ cdk_disks).
Proof.
  intros Hmsx Hams. cbv zeta. rewrite collect_roms_None by done.
  destruct (only_missing_find_roms_of T a system folder extensions defs s) as [Hs He].
  destruct (find_roms_of T a system folder extensions defs s) as [[roms_raw|e] s1];
    cbn [fst snd] in *; subst s1.
  2: { split; [done|]. split; [|done]. intros e' [= <-]. by apply He. }
  clear He.
  destruct (only_missing_find_cdk_disks T a system folder defs s) as [Hs He].
  destruct (find_cdk_disks T a system folder defs s) as [[cdk_disks|e] s1];
    cbn [fst snd] in *; subst s1.
  2: { split; [done|]. split; [|done]. intros e' [= <-]. by apply He. }
  split; [done|]. split; [done|].
  intros roms roms_uncompressed [= <- <-]. by exists cdk_disks.
Qed.

Lemma uncompressed_family_untouched_witness :
  let s := sample_store [("sms", [("b.sms", zeros 3); ("a.sms", zeros 2)])]%string [] None in
  let run := collect_roms sample_tools lzma_args "Sega Master System" "sms_system" "sms"
               ["sms"]%string empty_romdefs None false s in
  (contains "sms_system" "msx_system" = false ∧
   contains "sms_system" "amstrad_system" = false) ∧
  run.2 = s ∧
  (∀ e, run.1 = Raise e → e = FileNotFoundError) ∧
  (∀ roms roms_uncompressed,
     run.1 = Ok (roms, roms_uncompressed) →
     ∃ cdk_disks,
       find_roms_of sample_tools lzma_args "Sega Master System" "sms" ["sms"]%string
                    empty_romdefs s = (Ok roms_uncompressed, s) ∧
       find_cdk_disks sample_tools lzma_args "Sega Master System" "sms" empty_romdefs s =
         (Ok cdk_disks, s) ∧
       roms = filter (λ r, contains_rom_by_name r cdk_disks = false) roms_uncompressed
              ++ cdk_disks).
Proof.
  cbv zeta. split; [split; reflexivity|].
  apply (uncompressed_family_untouched sample_tools lzma_args "Sega Master System"
           "sms_system" "sms" ["sms"]%string empty_romdefs false); reflexivity.
Defined.
